(** * fuzzball.js: a shallow embedding of the scoring engine and of [extract]

    The development follows [src/fuzzball.js].  JavaScript strings are
    sequences of UTF-16 code units, JavaScript numbers are the rational
    values of doubles, with the rounding of double arithmetic, extended with
    [NaN] and the two infinities, and the option bag is a record whose
    optional members are [option]s.  The collaborators the
    file [require]s (the text clean-up, the locale collator, Unicode
    normalisation and the heap selection) are fields of an environment
    record, so that every statement holds for any implementation of them. *)

From Stdlib Require Import ZArith NArith QArith Qround Qabs Qpower String Ascii Bool Lia Lqa.
From Stdlib Require Import List Permutation Sorted.
Import ListNotations.

#[local] Open Scope nat_scope.

Set Implicit Arguments.

(** ** JavaScript strings *)

Module Js.

(** A string is the list of its UTF-16 code units. *)
Definition jsstring := list N.

(** String literals of the examples: one code unit per ASCII character. *)
Definition lit (s : string) : jsstring :=
  map N_of_ascii (list_ascii_of_string s).

Fixpoint eqb (s t : jsstring) : bool :=
  match s, t with
  | [], [] => true
  | x :: s', y :: t' => N.eqb x y && eqb s' t'
  | _, _ => false
  end.

(** [a < b] as the default comparison of [Array.prototype.sort] sees it:
    lexicographic on code units. *)
Fixpoint ltb (s t : jsstring) : bool :=
  match s, t with
  | _, [] => false
  | [], _ :: _ => true
  | x :: s', y :: t' =>
      if N.ltb x y then true
      else if N.ltb y x then false
      else ltb s' t'
  end.

(** [s.substring(from, to)] for [0 <= from <= to]; both ends are clamped
    to the length of [s]. *)
Definition substring (s : jsstring) (from to : nat) : jsstring :=
  firstn (to - from) (skipn from s).

(** White space as [String.prototype.trim] and the class [\s] define it. *)
Definition is_whitespace (c : N) : bool :=
  ((9 <=? c) && (c <=? 13) || (c =? 32) || (c =? 160) || (c =? 5760)
   || (8192 <=? c) && (c <=? 8202) || (c =? 8232) || (c =? 8233)
   || (c =? 8239) || (c =? 8287) || (c =? 12288) || (c =? 65279))%N.

Fixpoint trim_start (s : jsstring) : jsstring :=
  match s with
  | c :: s' => if is_whitespace c then trim_start s' else s
  | [] => []
  end.

Definition trim (s : jsstring) : jsstring :=
  rev (trim_start (rev (trim_start s))).

(** [arr.join(sep)]. *)
Fixpoint join (sep : jsstring) (l : list jsstring) : jsstring :=
  match l with
  | [] => []
  | [s] => s
  | s :: l' => s ++ sep ++ join sep l'
  end.

(** [arr.sort()] on an array of strings.  Equal strings are
    indistinguishable, so the order of the result does not depend on the
    engine's algorithm. *)
Fixpoint insert (s : jsstring) (l : list jsstring) : list jsstring :=
  match l with
  | [] => [s]
  | t :: l' => if ltb t s then t :: insert s l' else s :: l
  end.

Definition sort (l : list jsstring) : list jsstring :=
  fold_right insert [] l.

(** [str.match(/\S+/g)]: the maximal runs of non-white-space, from left to
    right ([cur] is the run being read, reversed). *)
Fixpoint runs (cur : jsstring) (s : jsstring) : list jsstring :=
  match s with
  | [] => match cur with [] => [] | _ => [rev cur] end
  | c :: s' =>
      if is_whitespace c
      then match cur with [] => runs [] s' | _ => rev cur :: runs [] s' end
      else runs (c :: cur) s'
  end.

Definition match_non_space (s : jsstring) : list jsstring := runs [] s.

(** ** JavaScript numbers

    A finite number is the rational value of a double.  Subtraction,
    multiplication and division round their exact result to the nearest
    double, halves to the even one, as IEEE 754 arithmetic does.  The
    exponent range of the format is not modelled (no overflow to an
    infinity, no subnormal numbers), and the integers the program handles
    (lengths, distances, scores) are taken to be below [2^53], where every
    integer is a double. *)
Inductive jsnum : Type :=
| NaN
| NegInfinity
| PosInfinity
| Num (q : Q).

Definition of_Z (z : Z) : jsnum := Num (inject_Z z).
Definition of_nat (n : nat) : jsnum := of_Z (Z.of_nat n).

Definition Qltb (a b : Q) : bool := negb (Qle_bool b a).

(** To the nearest integer, halves to the even one. *)
Definition round_half_even (x : Q) : Z :=
  let f := Qfloor x in
  match Qcompare (x - inject_Z f) (1 # 2) with
  | Lt => f
  | Gt => (f + 1)%Z
  | Eq => if Z.even f then f else (f + 1)%Z
  end.

(** The exponent [e] of the last place of a double near [x]:
    [2^52 <= |x| / 2^e < 2^53]. *)
Definition ulp_exponent (x : Q) : Z :=
  let e0 := (Z.log2 (Z.abs (Qnum x)) - Z.log2 (Zpos (Qden x)) - 52)%Z in
  if Qle_bool (2 ^ (e0 + 52)) (Qabs x) then e0 else (e0 - 1)%Z.

(** The double nearest to [x]: a significand of 53 bits. *)
Definition binary64 (x : Q) : Q :=
  if Qeq_bool x 0 then 0
  else let e := ulp_exponent x in
       inject_Z (round_half_even (x / 2 ^ e)) * 2 ^ e.

Definition sub (a b : jsnum) : jsnum :=
  match a, b with
  | Num x, Num y => Num (binary64 (x - y))
  | NaN, _ | _, NaN => NaN
  | PosInfinity, PosInfinity | NegInfinity, NegInfinity => NaN
  | PosInfinity, _ | _, NegInfinity => PosInfinity
  | NegInfinity, _ | _, PosInfinity => NegInfinity
  end.

Definition sign_inf (positive : bool) : jsnum :=
  if positive then PosInfinity else NegInfinity.

Definition mul (a b : jsnum) : jsnum :=
  match a, b with
  | Num x, Num y => Num (binary64 (x * y))
  | NaN, _ | _, NaN => NaN
  | Num x, PosInfinity | PosInfinity, Num x =>
      if Qeq_bool x 0 then NaN else sign_inf (Qltb 0 x)
  | Num x, NegInfinity | NegInfinity, Num x =>
      if Qeq_bool x 0 then NaN else sign_inf (Qltb x 0)
  | PosInfinity, PosInfinity | NegInfinity, NegInfinity => PosInfinity
  | PosInfinity, NegInfinity | NegInfinity, PosInfinity => NegInfinity
  end.

Definition div (a b : jsnum) : jsnum :=
  match a, b with
  | Num x, Num y =>
      if Qeq_bool y 0
      then (if Qeq_bool x 0 then NaN else sign_inf (Qltb 0 x))
      else Num (binary64 (x / y))
  | NaN, _ | _, NaN => NaN
  | Num _, _ => Num 0
  | PosInfinity, Num y => sign_inf (Qle_bool 0 y)
  | NegInfinity, Num y => sign_inf (Qltb y 0)
  | _, _ => NaN
  end.

(** [a > b]; any comparison with [NaN] is false. *)
Definition gtb (a b : jsnum) : bool :=
  match a, b with
  | Num x, Num y => Qltb y x
  | PosInfinity, Num _ | PosInfinity, NegInfinity | Num _, NegInfinity => true
  | _, _ => false
  end.

(** [a >= b]. *)
Definition geb (a b : jsnum) : bool :=
  match a, b with
  | Num x, Num y => Qle_bool y x
  | PosInfinity, Num _ | PosInfinity, NegInfinity | Num _, NegInfinity => true
  | PosInfinity, PosInfinity | NegInfinity, NegInfinity => true
  | _, _ => false
  end.

Definition ltb_num (a b : jsnum) : bool := gtb b a.

(** [Math.max(a, b)]. *)
Definition max2 (a b : jsnum) : jsnum :=
  match a, b with
  | NaN, _ | _, NaN => NaN
  | PosInfinity, _ | _, PosInfinity => PosInfinity
  | NegInfinity, x | x, NegInfinity => x
  | Num x, Num y => if Qle_bool x y then Num y else Num x
  end.

(** [Math.max.apply(null, l)]; the maximum of no number is [-Infinity]. *)
Definition Math_max (l : list jsnum) : jsnum :=
  fold_right max2 NegInfinity l.

(** [Math.round]: to the nearest integer, halves upwards. *)
Definition Math_round (a : jsnum) : jsnum :=
  match a with
  | Num x => of_Z (Qfloor (x + (1 # 2)))
  | _ => a
  end.

End Js.

Import Js.

(** ** Values, options and collaborators *)

(** A candidate object: the members [extract] reads, and an identity. *)
Record jsobject : Type := {
  obj_id : nat;
  obj_proc_sorted : option jsstring;
  obj_tokens : option (list jsstring)
}.

(** What a caller may pass where a string is expected.  [VOther] stands for
    a value that is neither a string nor an object with members (a number, a
    boolean). *)
Inductive jsval : Type :=
| VString (s : jsstring)
| VObject (o : jsobject)
| VOther.

(** The option bag the scorers read.  A member the caller left out is
    [None], or [false] where the code only tests it for truth. *)
Module Opt.
Record t : Type := {
  full_process : option bool;
  force_ascii : option bool;
  subcost : option Z;
  useCollator : bool;
  astral : bool;
  normalize : bool;
  ratio_alg : option string;
  partial : bool;
  trySimple : bool;
  tokens : option (list jsstring * list jsstring);
  proc_sorted : bool
}.

(** The object [{}]: no member set. *)
Definition empty : t :=
  {| full_process := None; force_ascii := None; subcost := None;
     useCollator := false; astral := false; normalize := false;
     ratio_alg := None; partial := false; trySimple := false;
     tokens := None; proc_sorted := false |}.

Definition set_full_process (v : option bool) (o : t) : t :=
  {| full_process := v; force_ascii := force_ascii o; subcost := subcost o;
     useCollator := useCollator o; astral := astral o; normalize := normalize o;
     ratio_alg := ratio_alg o; partial := partial o; trySimple := trySimple o;
     tokens := tokens o; proc_sorted := proc_sorted o |}.

Definition set_force_ascii (v : option bool) (o : t) : t :=
  {| full_process := full_process o; force_ascii := v; subcost := subcost o;
     useCollator := useCollator o; astral := astral o; normalize := normalize o;
     ratio_alg := ratio_alg o; partial := partial o; trySimple := trySimple o;
     tokens := tokens o; proc_sorted := proc_sorted o |}.

Definition set_subcost (v : option Z) (o : t) : t :=
  {| full_process := full_process o; force_ascii := force_ascii o; subcost := v;
     useCollator := useCollator o; astral := astral o; normalize := normalize o;
     ratio_alg := ratio_alg o; partial := partial o; trySimple := trySimple o;
     tokens := tokens o; proc_sorted := proc_sorted o |}.

Definition set_normalize (v : bool) (o : t) : t :=
  {| full_process := full_process o; force_ascii := force_ascii o; subcost := subcost o;
     useCollator := useCollator o; astral := astral o; normalize := v;
     ratio_alg := ratio_alg o; partial := partial o; trySimple := trySimple o;
     tokens := tokens o; proc_sorted := proc_sorted o |}.

Definition set_partial (v : bool) (o : t) : t :=
  {| full_process := full_process o; force_ascii := force_ascii o; subcost := subcost o;
     useCollator := useCollator o; astral := astral o; normalize := normalize o;
     ratio_alg := ratio_alg o; partial := v; trySimple := trySimple o;
     tokens := tokens o; proc_sorted := proc_sorted o |}.

Definition set_tokens (v : option (list jsstring * list jsstring)) (o : t) : t :=
  {| full_process := full_process o; force_ascii := force_ascii o; subcost := subcost o;
     useCollator := useCollator o; astral := astral o; normalize := normalize o;
     ratio_alg := ratio_alg o; partial := partial o; trySimple := trySimple o;
     tokens := v; proc_sorted := proc_sorted o |}.

Definition set_proc_sorted (v : bool) (o : t) : t :=
  {| full_process := full_process o; force_ascii := force_ascii o; subcost := subcost o;
     useCollator := useCollator o; astral := astral o; normalize := normalize o;
     ratio_alg := ratio_alg o; partial := partial o; trySimple := trySimple o;
     tokens := tokens o; proc_sorted := v |}.

(** [options.m ? ... : ...] for a boolean member that may be missing. *)
Definition truthy (v : option bool) : bool :=
  match v with Some true => true | _ => false end.
End Opt.

(** The key of a candidate: its array index or its property name. *)
Inductive key : Type :=
| KIndex (i : nat)
| KName (k : jsstring).

(** One entry of the list [extract] returns: [[value, result, key]]. *)
Definition result : Type := (jsval * jsnum * key)%type.

Definition result_score (r : result) : jsnum := snd (fst r).

(** The collaborators of the scoring engine. *)
Module Env.
Record t : Type := {
  (** [utils.full_process(str, force_ascii)], the text clean-up. *)
  full_process : jsstring -> bool -> jsstring;
  (** [String.prototype.normalize], where the engine has it. *)
  normalize : option (jsstring -> jsstring);
  (** Equality of two symbols under [Intl.Collator], where available. *)
  collator : option (jsstring -> jsstring -> bool);
  (** [Heap.nlargest(results, limit, cmp)] with [cmp] the difference of
      the scores. *)
  nlargest : list result -> Z -> list result
}.
End Env.

(** ** [lib/utils.js] *)

Module Utils.

(** Modelled from the spec: [utils.validate] of [lib/utils.js], which is
    not among the sources; an operand is valid when it is a string and is
    not empty. *)
Definition validate (str : jsval) : bool :=
  match str with
  | VString (_ :: _) => true
  | _ => false
  end.

(** Modelled from the spec: [lodash.uniq], which [lib/utils.js] is given;
    each value once, in the order of first occurrence. *)
Definition uniq (l : list jsstring) : list jsstring :=
  fold_left (fun acc s => if existsb (Js.eqb s) acc then acc else acc ++ [s]) l [].

(** Modelled from the spec: [utils.tokenize] of [lib/utils.js]; split on
    white-space runs, drop empty tokens, keep each token once. *)
Definition tokenize (str : jsval) : list jsstring :=
  match str with
  | VString s => uniq (match_non_space s)
  | _ => []
  end.

(** Modelled from the spec: [utils.process_and_sort] of [lib/utils.js];
    the tokens in lexicographic order, joined by single spaces. *)
Definition process_and_sort (str : jsval) : jsstring :=
  match str with
  | VString s => trim (join (lit " ") (Js.sort (match_non_space s)))
  | _ => []
  end.

(** Modelled from the spec: [utils.clone_and_set_option_defaults] of
    [lib/utils.js]; a copy of the caller's options in which
    full-preprocessing and ASCII-folding default to true. *)
Definition clone_and_set_option_defaults (options_p : Opt.t) : Opt.t :=
  let o := match Opt.full_process options_p with
           | None => Opt.set_full_process (Some true) options_p
           | Some _ => options_p
           end in
  match Opt.force_ascii o with
  | None => Opt.set_force_ascii (Some true) o
  | Some _ => o
  end.

(** Modelled from the spec: the names of the scorers [extract] treats as
    its own ([utils.isCustomFunc] of [lib/utils.js]); any other function
    is custom. *)
Definition builtin_names : list string :=
  ["QRatio"; "partial_ratio"; "token_sort_ratio"; "partial_token_sort_ratio";
   "token_set_ratio"; "partial_token_set_ratio"]%string.

Definition isCustomFunc (name : string) : bool :=
  negb (existsb (String.eqb name) builtin_names).

(** The character classes of the clean-up; a code unit above 127 counts as
    alphanumeric and has no lower case. *)
Definition is_ascii_printable (c : N) : bool := ((32 <=? c) && (c <=? 126))%N.

Definition is_upper (c : N) : bool := ((65 <=? c) && (c <=? 90))%N.

Definition to_lower (c : N) : N := if is_upper c then (c + 32)%N else c.

Definition is_alnum (c : N) : bool :=
  ((48 <=? c) && (c <=? 57) || (65 <=? c) && (c <=? 90)
   || (97 <=? c) && (c <=? 122) || (128 <=? c))%N.

(** Every run of non-alphanumeric characters becomes one space. *)
Fixpoint collapse (in_run : bool) (s : jsstring) : jsstring :=
  match s with
  | [] => []
  | c :: s' =>
      if is_alnum c then c :: collapse false s'
      else if in_run then collapse true s' else 32%N :: collapse true s'
  end.

(** Modelled from the spec: the clean-up collaborator
    ([utils.full_process] of [lib/utils.js]); lower-case, every run of
    non-alphanumeric characters becomes one space, trimmed; with
    [force_ascii] the characters outside the printable ASCII range are
    removed first. *)
Definition full_process (str : jsstring) (force_ascii : bool) : jsstring :=
  let str := if force_ascii then filter is_ascii_printable str else str in
  trim (collapse false (map to_lower str)).

End Utils.

(** ** The lodash helpers *)

Module Lodash.

Definition mem (s : jsstring) (l : list jsstring) : bool := existsb (Js.eqb s) l.

(** Modelled from the spec: [lodash.intersection]; the tokens present in
    both arrays, each once, in the order of the first array. *)
Definition _intersect (a b : list jsstring) : list jsstring :=
  Utils.uniq (filter (fun s => mem s b) a).

(** Modelled from the spec: [lodash.difference]; the values of the first
    array that are not in the second. *)
Definition _difference (a b : list jsstring) : list jsstring :=
  filter (fun s => negb (mem s b)) a.

Definition is_high_surrogate (c : N) : bool := ((55296 <=? c) && (c <=? 56319))%N.
Definition is_low_surrogate (c : N) : bool := ((56320 <=? c) && (c <=? 57343))%N.

(** Modelled from the spec: [lodash.toarray] on a string; its code
    points, a surrogate pair counting as one symbol. *)
Fixpoint _toArray (s : jsstring) : list jsstring :=
  match s with
  | [] => []
  | c :: s' =>
      match s' with
      | d :: s'' =>
          if is_high_surrogate c && is_low_surrogate d
          then [c; d] :: _toArray s''
          else [c] :: _toArray s'
      | [] => [[c]]
      end
  end.

End Lodash.

(** ** The distance engine, [lib/leven.js] and [lib/iLeven.js] *)

Module Leven.

Section EditDistance.

Variable A : Type.
(** Equality of two symbols: raw, or the collator's. *)
Variable same : A -> A -> bool.
Variable subcost : Z.

(** Modelled from the spec: the distance engine of [lib/leven.js] and
    [lib/iLeven.js], which are not among the sources; the minimum cost of
    an edit script with insertion cost 1, deletion cost 1 and substitution
    cost [subcost]. *)
Fixpoint edit_distance (a b : list A) : Z :=
  match a with
  | [] => Z.of_nat (length b)
  | x :: a' =>
      (fix against (b : list A) : Z :=
         match b with
         | [] => Z.of_nat (length a)
         | y :: b' =>
             Z.min (Z.min (edit_distance a' b + 1) (against b' + 1))
                   (edit_distance a' b' + (if same x y then 0 else subcost))
         end) b
  end.

End EditDistance.

(** Which equality the engine uses: the collator's when the caller asks for
    it and the environment has one. *)
Definition symbol_same (e : Env.t) (options : Opt.t) (x y : jsstring) : bool :=
  match Env.collator e with
  | Some collate => if Opt.useCollator options then collate x y else Js.eqb x y
  | None => Js.eqb x y
  end.

Definition unit_same (e : Env.t) (options : Opt.t) (x y : N) : bool :=
  symbol_same e options [x] [y].

(** The substitution cost the engine reads from the options (both callers
    set it before the call). *)
Definition cost (options : Opt.t) : Z :=
  match Opt.subcost options with
  | Some c => c
  | None => 1
  end.

(** Modelled from the spec: [_leven(a, b, options)] of [lib/leven.js]; the
    distance over UTF-16 code units. *)
Definition _leven (e : Env.t) (a b : jsstring) (options : Opt.t) : Z :=
  edit_distance (unit_same e options) (cost options) a b.

(** Modelled from the spec: [_iLeven(a, b, options, _toArray)] of
    [lib/iLeven.js]; the distance over code points. *)
Definition _iLeven (e : Env.t) (a b : jsstring) (options : Opt.t) : Z :=
  edit_distance (symbol_same e options) (cost options)
                (Lodash._toArray a) (Lodash._toArray b).

End Leven.

(** ** The matching blocks of [difflib.SequenceMatcher] *)

Module Difflib.

(** A matching block [(i, j, k)]: [a[i..i+k)] equals [b[j..j+k)]. *)
Definition block : Type := (nat * nat * nat)%type.

Definition block_a (x : block) : nat := fst (fst x).
Definition block_b (x : block) : nat := snd (fst x).
Definition block_size (x : block) : nat := snd x.

Fixpoint common_prefix (s t : jsstring) : nat :=
  match s, t with
  | x :: s', y :: t' => if N.eqb x y then S (common_prefix s' t') else 0
  | _, _ => 0
  end.

(** [SequenceMatcher] is built with [autojunk] left on: when [b] has 200
    elements or more, an element that occurs in it more than
    [floor(length / 100) + 1] times is popular, and is left out of the index
    of [b] the search works with. *)
Definition popular (b : jsstring) (c : N) : bool :=
  (200 <=? length b) && (length b / 100 + 1 <? length (filter (N.eqb c) b)).

(** The length of the common run of [s] and [t] from their start, up to the
    first element of [t] that is left out. *)
Fixpoint common_run (junk : N -> bool) (s t : jsstring) : nat :=
  match s, t with
  | x :: s', y :: t' =>
      if N.eqb x y && negb (junk y) then S (common_run junk s' t') else 0
  | _, _ => 0
  end.

(** The length of the run of [a[i..ahi)] and [b[j..bhi)] that starts at
    [(i, j)] and is found through the index of [b]. *)
Definition run_length (junk : N -> bool) (a b : jsstring) (ahi bhi i j : nat) : nat :=
  common_run junk (substring a i ahi) (substring b j bhi).

Definition better (junk : N -> bool) (a b : jsstring) (ahi bhi i : nat)
           (best : block) (j : nat) : block :=
  let k := run_length junk a b ahi bhi i j in
  if block_size best <? k then (i, j, k) else best.

(** The search of [find_longest_match]: a longest run found through the
    index of [b], and of the longest ones the one that starts earliest in
    [a], then earliest in [b]; [(alo, blo, 0)] when there is none. *)
Definition search (junk : N -> bool) (a b : jsstring) (alo ahi blo bhi : nat) : block :=
  fold_left
    (fun best i => fold_left (better junk a b ahi bhi i) (seq blo (bhi - blo)) best)
    (seq alo (ahi - alo))
    (alo, blo, 0).

(** The run found is then grown over equal elements, popular or not: first
    to the left ([a[besti-1] == b[bestj-1]]), then to the right. *)
Definition extend (a b : jsstring) (alo ahi blo bhi : nat) (x : block) : block :=
  let i := block_a x in
  let j := block_b x in
  let k := block_size x in
  let back := common_prefix (rev (substring a alo i)) (rev (substring b blo j)) in
  let forth := common_prefix (substring a (i + k) ahi) (substring b (j + k) bhi) in
  (i - back, j - back, back + k + forth).

(** Modelled from the spec: [find_longest_match] of the package [difflib],
    which is not among the sources; a longest common contiguous run of
    [a[alo..ahi)] and [b[blo..bhi)], and of the longest ones the one that
    starts earliest in [a], then earliest in [b].  As in the package, the
    search leaves the popular elements of [b] out, and the run it finds is
    grown over them afterwards; no element is junk ([isjunk] is [null]). *)
Definition find_longest_match (a b : jsstring) (alo ahi blo bhi : nat) : block :=
  extend a b alo ahi blo bhi (search (popular b) a b alo ahi blo bhi).

(** The recursion of [get_matching_blocks]: the longest run, then the runs
    to its left and to its right. *)
Fixpoint blocks_from (fuel : nat) (a b : jsstring) (alo ahi blo bhi : nat) : list block :=
  match fuel with
  | O => []
  | S fuel' =>
      let x := find_longest_match a b alo ahi blo bhi in
      let i := block_a x in
      let j := block_b x in
      let k := block_size x in
      if k =? 0 then []
      else
        x :: (if (alo <? i) && (blo <? j)
              then blocks_from fuel' a b alo i blo j else [])
          ++ (if (i + k <? ahi) && (j + k <? bhi)
              then blocks_from fuel' a b (i + k) ahi (j + k) bhi else [])
  end.

Definition block_ltb (x y : block) : bool :=
  if block_a x <? block_a y then true
  else if block_a y <? block_a x then false
  else if block_b x <? block_b y then true
  else if block_b y <? block_b x then false
  else block_size x <? block_size y.

Fixpoint insert_block (x : block) (l : list block) : list block :=
  match l with
  | [] => [x]
  | y :: l' => if block_ltb y x then y :: insert_block x l' else x :: l
  end.

Definition sort_blocks (l : list block) : list block :=
  fold_right insert_block [] l.

(** Adjacent blocks are merged; [cur] is the block being grown. *)
Fixpoint collapse (cur : block) (l : list block) : list block :=
  match l with
  | [] => if block_size cur =? 0 then [] else [cur]
  | y :: l' =>
      if (block_a cur + block_size cur =? block_a y)
         && (block_b cur + block_size cur =? block_b y)
      then collapse (block_a cur, block_b cur, block_size cur + block_size y) l'
      else (if block_size cur =? 0 then [] else [cur]) ++ collapse y l'
  end.

(** Modelled from the spec: [getMatchingBlocks] of the package [difflib];
    the maximal common runs of a longest-matching-block alignment in
    increasing order, closed by the block [(|a|, |b|, 0)]. *)
Definition getMatchingBlocks (a b : jsstring) : list block :=
  let la := length a in
  let lb := length b in
  collapse (0, 0, 0) (sort_blocks (blocks_from (S la) a b 0 la 0 lb))
    ++ [(la, lb, 0)].

Definition matches (a b : jsstring) : nat :=
  fold_right (fun x n => block_size x + n) 0 (getMatchingBlocks a b).

(** Modelled from the spec: [SequenceMatcher.ratio] of the package
    [difflib]; twice the total length of the matching blocks over the sum of
    the two lengths, and 1 when both are empty. *)
Definition ratio (a b : jsstring) : jsnum :=
  let length := length a + length b in
  if length =? 0 then of_Z 1
  else div (mul (of_Z 2) (of_nat (matches a b))) (of_nat length).

End Difflib.

(** ** [src/fuzzball.js]: the scorers *)

(** A function value: [extract] looks at the name of its scorer. *)
Record jsfunction : Type := {
  fn_name : string;
  fn_call : jsval -> jsval -> Opt.t -> jsnum
}.

(** An optional member that should hold a function: left out, a falsy
    value that is no function ([null], [0], [false], the empty string), a
    truthy value that is no function, or a function. *)
Inductive supplied (A : Type) : Type :=
| Absent
| Falsy
| NotCallable
| Callable (f : A).

Arguments Absent {A}.
Arguments Falsy {A}.
Arguments NotCallable {A}.

(** The candidates: an array, an object used as a map (its own enumerable
    properties in the order of [Object.keys]; it inherits from
    [Object.prototype]), or no collection ([null], [undefined]). *)
Inductive collection : Type :=
| CArray (l : list jsval)
| CObject (l : list (jsstring * jsval))
| CNullish.

(** What a call that may [throw] yields: an [Error] the code throws itself
    ([throw new Error(message)]), a [TypeError] the engine raises (a call of
    something that is not a function), or a value. *)
Inductive outcome (A : Type) : Type :=
| Throw (message : string)
| ThrowTypeError
| Return (x : A).

Arguments Throw {A}.
Arguments ThrowTypeError {A}.

(** The options of [extract]: the bag handed on to the scorer, and the
    members [extract] reads itself. *)
Module ExtractOpt.
Record t : Type := {
  scoring : Opt.t;
  scorer : supplied jsfunction;
  processor : supplied (jsval -> jsval);
  limit : option Z;
  (** [None]: left out, or not a number. *)
  cutoff : option jsnum;
  unsorted : bool
}.
End ExtractOpt.

Section Scorers.

Variable e : Env.t.

(** [utils.full_process] on a value: the clean-up of a string; any other
    value fails the validation that follows. *)
Definition full_process (str : jsval) (force_ascii : bool) : jsval :=
  match str with
  | VString s => VString (Env.full_process e s force_ascii)
  | _ => str
  end.

(** [options.full_process ? full_process(str, options.force_ascii) : str] *)
Definition preprocessed (options : Opt.t) (str : jsval) : jsval :=
  if Opt.truthy (Opt.full_process options)
  then full_process str (Opt.truthy (Opt.force_ascii options))
  else str.

(** [str.length] of a string. *)
Definition strlen (str : jsval) : nat :=
  match str with
  | VString s => length s
  | _ => 0
  end.

Definition distance (str1 str2 : jsstring) (options_p : Opt.t) : jsnum :=
  let options := Utils.clone_and_set_option_defaults options_p in
  let str1 := if Opt.truthy (Opt.full_process options)
              then Env.full_process e str1 (Opt.truthy (Opt.force_ascii options))
              else str1 in
  let str2 := if Opt.truthy (Opt.full_process options)
              then Env.full_process e str2 (Opt.truthy (Opt.force_ascii options))
              else str2 in
  let options := match Opt.subcost options with
                 | None => Opt.set_subcost (Some 1%Z) options
                 | Some _ => options
                 end in
  if Opt.astral options then of_Z (Leven._iLeven e str1 str2 options)
  else of_Z (Leven._leven e str1 str2 options).

(** [str.normalize()] where the engine has it. *)
Definition normalized (s : jsstring) : jsstring :=
  match Env.normalize e with
  | Some normalize => normalize s
  | None => s
  end.

Definition _ratio (str1 str2 : jsval) (options : Opt.t) : jsnum :=
  if negb (Utils.validate str1) then of_Z 0 else
  if negb (Utils.validate str2) then of_Z 0 else
  match str1, str2 with
  | VString str1, VString str2 =>
      if match Opt.ratio_alg options with
         | Some alg => String.eqb alg "difflib"
         | None => false
         end
      then
        let r := Difflib.ratio str1 str2 in
        Math_round (mul (of_Z 100) r)
      else
        let options := match Opt.subcost options with
                       | None => Opt.set_subcost (Some 2%Z) options
                       | Some _ => options
                       end in
        if Opt.astral options then
          let str1 := if Opt.normalize options then normalized str1 else str1 in
          let str2 := if Opt.normalize options then normalized str2 else str2 in
          let levdistance := of_Z (Leven._iLeven e str1 str2 options) in
          let lensum := of_nat (length (Lodash._toArray str1)
                                + length (Lodash._toArray str2)) in
          Math_round (mul (of_Z 100) (div (sub lensum levdistance) lensum))
        else
          let levdistance := of_Z (Leven._leven e str1 str2 options) in
          let lensum := of_nat (length str1 + length str2) in
          Math_round (mul (of_Z 100) (div (sub lensum levdistance) lensum))
  | _, _ => of_Z 0
  end.

(** The start of the window of [longer] a block selects. *)
Definition long_start (x : Difflib.block) : nat :=
  let d := (Z.of_nat (Difflib.block_b x) - Z.of_nat (Difflib.block_a x))%Z in
  if (0 <? d)%Z then Z.to_nat d else 0.

(** The loop of [_partial_ratio] over the blocks; [scores] holds the
    ratios pushed so far. *)
Fixpoint partial_loop (shorter longer : jsstring) (options : Opt.t)
         (blocks : list Difflib.block) (scores : list jsnum) : jsnum :=
  match blocks with
  | [] => Math_max scores
  | x :: blocks' =>
      let long_end := long_start x + length shorter in
      let long_substr := substring longer (long_start x) long_end in
      let r := _ratio (VString shorter) (VString long_substr) options in
      if gtb r (Num (995 # 10)) then of_Z 100
      else partial_loop shorter longer options blocks' (scores ++ [r])
  end.

Definition _partial_ratio (str1 str2 : jsval) (options : Opt.t) : jsnum :=
  if negb (Utils.validate str1) then of_Z 0 else
  if negb (Utils.validate str2) then of_Z 0 else
  match str1, str2 with
  | VString str1, VString str2 =>
      let shorter := if length str1 <=? length str2 then str1 else str2 in
      let longer := if length str1 <=? length str2 then str2 else str1 in
      let blocks := Difflib.getMatchingBlocks shorter longer in
      partial_loop shorter longer options blocks []
  | _, _ => of_Z 0
  end.

Definition _token_set (str1 str2 : jsval) (options : Opt.t) : jsnum :=
  let tokens1 := match Opt.tokens options with
                 | None => Utils.tokenize str1
                 | Some t => fst t
                 end in
  let tokens2 := match Opt.tokens options with
                 | None => Utils.tokenize str2
                 | Some t => snd t
                 end in
  let intersection := Lodash._intersect tokens1 tokens2 in
  let diff1to2 := Lodash._difference tokens1 tokens2 in
  let diff2to1 := Lodash._difference tokens2 tokens1 in
  let sorted_sect := join (lit " ") (Js.sort intersection) in
  let sorted_1to2 := join (lit " ") (Js.sort diff1to2) in
  let sorted_2to1 := join (lit " ") (Js.sort diff2to1) in
  let combined_1to2 := sorted_sect ++ lit " " ++ sorted_1to2 in
  let combined_2to1 := sorted_sect ++ lit " " ++ sorted_2to1 in
  let sorted_sect := VString (trim sorted_sect) in
  let combined_1to2 := VString (trim combined_1to2) in
  let combined_2to1 := VString (trim combined_2to1) in
  let ratio_func := if Opt.partial options then _partial_ratio else _ratio in
  let pairwise := [ ratio_func sorted_sect combined_1to2 options;
                    ratio_func sorted_sect combined_2to1 options;
                    ratio_func combined_1to2 combined_2to1 options ] in
  let pairwise := if Opt.trySimple options
                  then pairwise ++ [ratio_func str1 str2 options]
                  else pairwise in
  Math_max pairwise.

Definition QRatio (str1 str2 : jsval) (options_p : Opt.t) : jsnum :=
  let options := Utils.clone_and_set_option_defaults options_p in
  let str1 := preprocessed options str1 in
  let str2 := preprocessed options str2 in
  if negb (Utils.validate str1) then of_Z 0 else
  if negb (Utils.validate str2) then of_Z 0 else
  _ratio str1 str2 options.

Definition partial_ratio (str1 str2 : jsval) (options_p : Opt.t) : jsnum :=
  let options := Utils.clone_and_set_option_defaults options_p in
  let str1 := preprocessed options str1 in
  let str2 := preprocessed options str2 in
  if negb (Utils.validate str1) then of_Z 0 else
  if negb (Utils.validate str2) then of_Z 0 else
  _partial_ratio str1 str2 options.

Definition token_set_ratio (str1 str2 : jsval) (options_p : Opt.t) : jsnum :=
  let options := Utils.clone_and_set_option_defaults options_p in
  let str1 := preprocessed options str1 in
  let str2 := preprocessed options str2 in
  if negb (Utils.validate str1) then of_Z 0 else
  if negb (Utils.validate str2) then of_Z 0 else
  _token_set str1 str2 options.

Definition partial_token_set_ratio (str1 str2 : jsval) (options_p : Opt.t) : jsnum :=
  let options := Utils.clone_and_set_option_defaults options_p in
  let str1 := preprocessed options str1 in
  let str2 := preprocessed options str2 in
  if negb (Utils.validate str1) then of_Z 0 else
  if negb (Utils.validate str2) then of_Z 0 else
  let options := Opt.set_partial true options in
  _token_set str1 str2 options.

Definition token_sort_ratio (str1 str2 : jsval) (options_p : Opt.t) : jsnum :=
  let options := Utils.clone_and_set_option_defaults options_p in
  let str1 := preprocessed options str1 in
  let str2 := preprocessed options str2 in
  if negb (Utils.validate str1) then of_Z 0 else
  if negb (Utils.validate str2) then of_Z 0 else
  let str1 := if negb (Opt.proc_sorted options)
              then VString (Utils.process_and_sort str1) else str1 in
  let str2 := if negb (Opt.proc_sorted options)
              then VString (Utils.process_and_sort str2) else str2 in
  _ratio str1 str2 options.

Definition partial_token_sort_ratio (str1 str2 : jsval) (options_p : Opt.t) : jsnum :=
  let options := Utils.clone_and_set_option_defaults options_p in
  let str1 := preprocessed options str1 in
  let str2 := preprocessed options str2 in
  if negb (Utils.validate str1) then of_Z 0 else
  if negb (Utils.validate str2) then of_Z 0 else
  let options := Opt.set_partial true options in
  let str1 := if negb (Opt.proc_sorted options)
              then VString (Utils.process_and_sort str1) else str1 in
  let str2 := if negb (Opt.proc_sorted options)
              then VString (Utils.process_and_sort str2) else str2 in
  _partial_ratio str1 str2 options.

Definition WRatio (str1 str2 : jsval) (options_p : Opt.t) : jsnum :=
  let options := Utils.clone_and_set_option_defaults options_p in
  let str1 := preprocessed options str1 in
  let str2 := preprocessed options str2 in
  let options := Opt.set_full_process (Some false) options in
  if negb (Utils.validate str1) then of_Z 0 else
  if negb (Utils.validate str2) then of_Z 0 else
  let unbase_scale := Num (binary64 (95 # 100)) in
  let base := _ratio str1 str2 options in
  let len_ratio := div (of_nat (Nat.max (strlen str1) (strlen str2)))
                       (of_nat (Nat.min (strlen str1) (strlen str2))) in
  let try_partial := if ltb_num len_ratio (Num (15 # 10)) then false else true in
  let partial_scale := if gtb len_ratio (Num 8) then Num (binary64 (6 # 10))
                       else Num (binary64 (90 # 100)) in
  if try_partial then
    let partial := mul (_partial_ratio str1 str2 options) partial_scale in
    let ptsor := mul (mul (partial_token_sort_ratio str1 str2 options) unbase_scale)
                     partial_scale in
    let ptser := mul (mul (partial_token_set_ratio str1 str2 options) unbase_scale)
                     partial_scale in
    Math_round (Math_max [base; partial; ptsor; ptser])
  else
    let tsor := mul (token_sort_ratio str1 str2 options) unbase_scale in
    let tser := mul (token_set_ratio str1 str2 options) unbase_scale in
    Math_round (Math_max [base; tsor; tser]).

End Scorers.

(** ** [src/fuzzball.js]: [extract] *)

Section Extract.

Variable e : Env.t.

(** The scorers [extract] knows, as function values. *)
Definition QRatio_function : jsfunction :=
  {| fn_name := "QRatio"; fn_call := QRatio e |}.
Definition partial_ratio_function : jsfunction :=
  {| fn_name := "partial_ratio"; fn_call := partial_ratio e |}.
Definition token_sort_ratio_function : jsfunction :=
  {| fn_name := "token_sort_ratio"; fn_call := token_sort_ratio e |}.
Definition partial_token_sort_ratio_function : jsfunction :=
  {| fn_name := "partial_token_sort_ratio"; fn_call := partial_token_sort_ratio e |}.
Definition token_set_ratio_function : jsfunction :=
  {| fn_name := "token_set_ratio"; fn_call := token_set_ratio e |}.
Definition partial_token_set_ratio_function : jsfunction :=
  {| fn_name := "partial_token_set_ratio"; fn_call := partial_token_set_ratio e |}.
Definition WRatio_function : jsfunction :=
  {| fn_name := "WRatio"; fn_call := WRatio e |}.

(** [_isArray(choices) ? choices.length : _keys(choices).length] *)
Definition numchoices (choices : collection) : nat :=
  match choices with
  | CArray l => length l
  | CObject l => length l
  | CNullish => 0
  end.

(** The pairs [_forEach(choices, function (value, key) ...)] visits, in
    order. *)
Definition entries (choices : collection) : list (jsval * key) :=
  match choices with
  | CArray l => combine l (map KIndex (seq 0 (length l)))
  | CObject l => map (fun kv => (snd kv, KName (fst kv))) l
  | CNullish => []
  end.

(** [if (!options.cutoff || typeof options.cutoff !== "number")
    options.cutoff = -1]: the cutoff [extract] compares with. *)
Definition cutoff_used (cutoff : option jsnum) : jsnum :=
  match cutoff with
  | None => of_Z (-1)
  | Some NaN => of_Z (-1)
  | Some (Num q) => if Qeq_bool q 0 then of_Z (-1) else Num q
  | Some c => c
  end.

(** [options.limit && typeof options.limit === "number" && options.limit > 0
    && options.limit < numchoices && !options.unsorted] *)
Definition limit_applies (options_p : ExtractOpt.t) (numchoices : nat) : bool :=
  match ExtractOpt.limit options_p with
  | Some n => (0 <? n)%Z && (n <? Z.of_nat numchoices)%Z
              && negb (ExtractOpt.unsorted options_p)
  | None => false
  end.

(** [results.sort(function(a,b){return b[1]-a[1];})]: by descending score,
    entries of equal score in scan order. *)
Fixpoint insert_result (r : result) (l : list result) : list result :=
  match l with
  | [] => [r]
  | y :: l' =>
      if gtb (result_score y) (result_score r)
      then y :: insert_result r l' else r :: l
  end.

Definition sort_results (l : list result) : list result :=
  fold_right insert_result [] l.

(** [mychoice.normalize()] on a string. *)
Definition normalize_value (normalize : bool) (v : jsval) : jsval :=
  match v with
  | VString s => if normalize then VString (normalized e s) else v
  | _ => v
  end.

(** [typeof v === "string"] *)
Definition is_string (v : jsval) : bool :=
  match v with
  | VString _ => true
  | _ => false
  end.

(** A truthy [value.proc_sorted]. *)
Definition value_proc_sorted (value : jsval) : option jsstring :=
  match value with
  | VObject o =>
      match obj_proc_sorted o with
      | Some (c :: s) => Some (c :: s)
      | _ => None
      end
  | _ => None
  end.

(** A truthy [value.tokens]. *)
Definition value_tokens (value : jsval) : option (list jsstring) :=
  match value with
  | VObject o => obj_tokens o
  | _ => None
  end.

(** The state the scan of [extract] works with, as set up before the loop. *)
Record scan_setup : Type := {
  su_query : jsval;
  su_options : Opt.t;
  su_scorer : jsfunction;
  su_processor : jsval -> jsval;
  su_pre_processor : jsval -> jsval;
  su_normalize : bool;
  su_isCustom : bool;
  su_tsort : bool;
  su_tset : bool;
  su_proc_sorted_query : jsstring;
  su_query_tokens : list jsstring
}.

(** The body of the loop up to [result]: the score of one candidate. *)
Definition score_of (su : scan_setup) (value : jsval) : jsnum :=
  let options := Opt.set_proc_sorted false (Opt.set_tokens None (su_options su)) in
  if su_tsort su then
    let options := Opt.set_proc_sorted true options in
    let mychoice :=
      match value_proc_sorted value with
      | Some s => VString s
      | None =>
          let mychoice := su_pre_processor su (su_processor su value) in
          VString (Utils.process_and_sort (normalize_value (su_normalize su) mychoice))
      end in
    fn_call (su_scorer su) (VString (su_proc_sorted_query su)) mychoice options
  else if su_tset su then
    match value_tokens value with
    | Some tokens =>
        let mychoice := VString (lit "x") in
        let options := Opt.set_tokens (Some (su_query_tokens su, tokens)) options in
        fn_call (su_scorer su) (su_query su) mychoice options
    | None =>
        let mychoice := su_pre_processor su (su_processor su value) in
        let options :=
          Opt.set_tokens
            (Some (su_query_tokens su,
                   Utils.tokenize (normalize_value (su_normalize su) mychoice)))
            options in
        fn_call (su_scorer su) (su_query su) mychoice options
    end
  else if su_isCustom su then
    let mychoice := su_processor su value in
    fn_call (su_scorer su) (su_query su) mychoice options
  else
    let mychoice := su_pre_processor su (su_processor su value) in
    let mychoice := normalize_value (su_normalize su) mychoice in
    fn_call (su_scorer su) (su_query su) mychoice options.

(** [query = query.normalize()] is reached with a query that is not a
    string, and so has no method [normalize]: a TypeError. *)
Definition query_normalize_throws (su : scan_setup) (query : jsval) : bool :=
  su_normalize su && negb (is_string (su_pre_processor su query)).

(** [normalize ? mychoice.normalize() : mychoice], under the token scorers,
    is reached with a processed candidate that is not a string: a TypeError.
    (Elsewhere the call is guarded by [typeof mychoice === "string"].) *)
Definition choice_normalize_throws (su : scan_setup) (value : jsval) : bool :=
  su_normalize su
  && ((su_tsort su && match value_proc_sorted value with Some _ => false | None => true end)
      || (su_tset su && match value_tokens value with Some _ => false | None => true end))
  && negb (is_string (su_pre_processor su (su_processor su value))).

(** The loop: [if (result > options.cutoff) results.push([value, result, key])];
    [score_of] is the score of a candidate the body does not throw on. *)
Fixpoint scan (su : scan_setup) (cutoff : jsnum) (todo : list (jsval * key))
         (results : list result) : outcome (list result) :=
  match todo with
  | [] => Return results
  | (value, key) :: todo' =>
      if choice_normalize_throws su value then ThrowTypeError
      else
        let result := score_of su value in
        scan su cutoff todo'
             (if gtb result cutoff then results ++ [(value, result, key)] else results)
  end.

(** What [extract] sets up between its checks and its loop; [su_query] is
    the query once prepared, for a query [query_normalize_throws] does not
    hold of. *)
Definition setup (query : jsval) (options : Opt.t) (scorer : jsfunction)
           (processor : jsval -> jsval) : scan_setup :=
  let isCustom := Utils.isCustomFunc (fn_name scorer) in
  let pre_processor :=
    if Opt.truthy (Opt.full_process options)
    then (fun choice => full_process e choice (Opt.truthy (Opt.force_ascii options)))
    else (fun choice => choice) in
  let has_normalize := match Env.normalize e with Some _ => true | None => false end in
  let normalize :=
    negb isCustom && Opt.astral options && Opt.normalize options && has_normalize in
  let query :=
    if isCustom then query
    else normalize_value normalize (pre_processor query) in
  let options :=
    if isCustom then options
    else
      let options := Opt.set_full_process (Some false) options in
      if Opt.astral options && Opt.normalize options
      then Opt.set_normalize false options else options in
  let tsort := String.eqb (fn_name scorer) "token_sort_ratio"
               || String.eqb (fn_name scorer) "partial_token_sort_ratio" in
  let tset := negb tsort
              && (String.eqb (fn_name scorer) "token_set_ratio"
                  || String.eqb (fn_name scorer) "partial_token_set_ratio") in
  {| su_query := query;
     su_options := options;
     su_scorer := scorer;
     su_processor := processor;
     su_pre_processor := pre_processor;
     su_normalize := normalize;
     su_isCustom := isCustom;
     su_tsort := tsort;
     su_tset := tset;
     su_proc_sorted_query := Utils.process_and_sort query;
     su_query_tokens := Utils.tokenize query |}.

Definition extract (query : jsval) (choices : collection) (options_p : ExtractOpt.t)
  : outcome (list result) :=
  let options := Utils.clone_and_set_option_defaults (ExtractOpt.scoring options_p) in
  let numchoices := numchoices choices in
  if match choices with CNullish => true | _ => false end || (numchoices =? 0)
  then Throw "No choices"
  else
    match ExtractOpt.processor options_p with
    | NotCallable => Throw "Invalid Processor"
    | given_processor =>
        let processor := match given_processor with
                         | Callable f => f
                         | _ => fun x => x
                         end in
        match ExtractOpt.scorer options_p with
        | NotCallable => Throw "Invalid Scorer"
        | given_scorer =>
            let scorer := match given_scorer with
                          | Callable f => f
                          | _ => QRatio_function
                          end in
            let cutoff := cutoff_used (ExtractOpt.cutoff options_p) in
            let su := setup query options scorer processor in
            if query_normalize_throws su query then ThrowTypeError
            else
              match scan su cutoff (entries choices) [] with
              | Return results =>
                  Return
                    (if limit_applies options_p numchoices
                     then Env.nlargest e results
                                       (match ExtractOpt.limit options_p with
                                        | Some n => n
                                        | None => 0%Z
                                        end)
                     else if negb (ExtractOpt.unsorted options_p)
                          then sort_results results
                          else results)
              | Throw message => Throw message
              | ThrowTypeError => ThrowTypeError
              end
        end
    end.

End Extract.

(** ** A reference environment

    The spec's clean-up on ASCII text, no collator, no normalisation, and
    the heap selection as the first [limit] entries by descending score. *)
Definition reference_env : Env.t :=
  {| Env.full_process := Utils.full_process;
     Env.normalize := None;
     Env.collator := None;
     Env.nlargest := fun results limit =>
                       firstn (Z.to_nat limit) (sort_results results) |}.

(** The same on an engine that has [String.prototype.normalize]; on the
    ASCII text of the examples normalisation changes nothing. *)
Definition normalizing_env : Env.t :=
  {| Env.full_process := Utils.full_process;
     Env.normalize := Some (fun s => s);
     Env.collator := None;
     Env.nlargest := Env.nlargest reference_env |}.

(** ** Notions the statements use *)

(** [Math.round(100 * ((lensum - levdistance) / lensum))] *)
Definition percent (lensum : nat) (levdistance : Z) : jsnum :=
  Math_round (mul (of_Z 100) (div (sub (of_nat lensum) (of_Z levdistance)) (of_nat lensum))).

(** [options.ratio_alg && options.ratio_alg === "difflib"] *)
Definition difflib_selected (options : Opt.t) : bool :=
  match Opt.ratio_alg options with
  | Some alg => String.eqb alg "difflib"
  | None => false
  end.

(** The substitution cost in force in [_ratio]: 2 unless the caller gave one. *)
Definition ratio_subcost (options : Opt.t) : Z :=
  match Opt.subcost options with
  | Some c => c
  | None => 2%Z
  end.

(** A substitution cost, when the caller gives one, is not negative. *)
Definition subcost_nonneg (options : Opt.t) : Prop :=
  match Opt.subcost options with
  | Some c => (0 <= c)%Z
  | None => True
  end.

(** Normalisation does not erase a text. *)
Definition normalize_keeps_text (e : Env.t) : Prop :=
  forall f, Env.normalize e = Some f -> forall s, s <> [] -> f s <> [].

(** The collator finds every symbol equal to itself. *)
Definition collator_reflexive (e : Env.t) : Prop :=
  forall c, Env.collator e = Some c -> forall x, c x x = true.

(** An input as the scorers compare it: cleaned up, unless the caller
    turned [full_process] off. *)
Definition prepared (e : Env.t) (options_p : Opt.t) (str : jsval) : jsval :=
  preprocessed e (Utils.clone_and_set_option_defaults options_p) str.

(** The window of [longer] a block selects in [_partial_ratio]. *)
Definition window (shorter longer : jsstring) (x : Difflib.block) : jsstring :=
  substring longer (long_start x) (long_start x + length shorter).

(** The ratios of [shorter] with the windows of the matching blocks, in the
    order of the blocks. *)
Definition window_ratios (e : Env.t) (shorter longer : jsstring) (options : Opt.t)
  : list jsnum :=
  map (fun x => _ratio e (VString shorter) (VString (window shorter longer x)) options)
      (Difflib.getMatchingBlocks shorter longer).

(** [r > 99.5] *)
Definition exceeds_99_5 (r : jsnum) : bool := gtb r (Num (995 # 10)).

(** A result that is a number: not [NaN]. *)
Definition number (x : jsnum) : Prop := x <> NaN.

(** The score [_ratio] derives from the edit distance: over code points in
    astral mode (after normalisation when asked for), over UTF-16 code
    units otherwise. *)
Definition distance_score (e : Env.t) (options : Opt.t) (str1 str2 : jsstring) : jsnum :=
  if Opt.astral options then
    let str1 := if Opt.normalize options then normalized e str1 else str1 in
    let str2 := if Opt.normalize options then normalized e str2 else str2 in
    percent (length (Lodash._toArray str1) + length (Lodash._toArray str2))
            (Leven.edit_distance (Leven.symbol_same e options) (ratio_subcost options)
                                 (Lodash._toArray str1) (Lodash._toArray str2))
  else
    percent (length str1 + length str2)
            (Leven.edit_distance (Leven.unit_same e options) (ratio_subcost options)
                                 str1 str2).

(** The score of the block-matching algorithm: twice the matched length
    over the sum of the lengths, as a rounded percentage. *)
Definition block_score (str1 str2 : jsstring) : jsnum :=
  Math_round (mul (of_Z 100)
                  (div (mul (of_Z 2) (of_nat (Difflib.matches str1 str2)))
                       (of_nat (length str1 + length str2)))).

(** The length of a string in code points. *)
Definition code_point_length (s : jsstring) : nat := length (Lodash._toArray s).

(** The score with the sum of the lengths taken in code points, whatever the
    mode. *)
Definition code_point_score (levdistance : Z) (str1 str2 : jsstring) : jsnum :=
  percent (code_point_length str1 + code_point_length str2) levdistance.

(** The two token arrays [_token_set] works on. *)
Definition token_sets (options : Opt.t) (str1 str2 : jsval)
  : list jsstring * list jsstring :=
  match Opt.tokens options with
  | None => (Utils.tokenize str1, Utils.tokenize str2)
  | Some t => t
  end.

(** The three strings [_token_set] compares: the sorted intersection, and
    the intersection followed by each sorted difference, trimmed. *)
Definition comparison_strings (tokens1 tokens2 : list jsstring) : jsval * jsval * jsval :=
  let sorted_sect := join (lit " ") (Js.sort (Lodash._intersect tokens1 tokens2)) in
  let sorted_1to2 := join (lit " ") (Js.sort (Lodash._difference tokens1 tokens2)) in
  let sorted_2to1 := join (lit " ") (Js.sort (Lodash._difference tokens2 tokens1)) in
  (VString (trim sorted_sect),
   VString (trim (sorted_sect ++ lit " " ++ sorted_1to2)),
   VString (trim (sorted_sect ++ lit " " ++ sorted_2to1))).

(** The ratio function [_token_set] selects. *)
Definition ratio_func (e : Env.t) (options : Opt.t) : jsval -> jsval -> Opt.t -> jsnum :=
  if Opt.partial options then _partial_ratio e else _ratio e.

(** The candidates of a collection with their scores, in scan order. *)
Definition scored (e : Env.t) (su : scan_setup) (choices : collection) : list result :=
  map (fun vk => (fst vk, score_of e su (fst vk), snd vk)) (entries choices).

(** The scan of [extract] for a query, a collection and options that pass
    its checks. *)
Definition processor_used (p : supplied (jsval -> jsval)) : jsval -> jsval :=
  match p with
  | Callable f => f
  | _ => fun x => x
  end.

Definition scorer_used (e : Env.t) (s : supplied jsfunction) : jsfunction :=
  match s with
  | Callable f => f
  | _ => QRatio_function e
  end.

Definition setup_of (e : Env.t) (query : jsval) (options_p : ExtractOpt.t) : scan_setup :=
  setup e query (Utils.clone_and_set_option_defaults (ExtractOpt.scoring options_p))
        (scorer_used e (ExtractOpt.scorer options_p))
        (processor_used (ExtractOpt.processor options_p)).

(** The last step of [extract]: selection, sorting, or neither. *)
Definition ranked (e : Env.t) (options_p : ExtractOpt.t) (numchoices : nat)
           (results : list result) : list result :=
  if limit_applies options_p numchoices
  then Env.nlargest e results (match ExtractOpt.limit options_p with
                               | Some n => n
                               | None => 0%Z
                               end)
  else if negb (ExtractOpt.unsorted options_p) then sort_results results
       else results.

(** Options of [extract] with nothing set. *)
Definition no_extract_options : ExtractOpt.t :=
  {| ExtractOpt.scoring := Opt.empty;
     ExtractOpt.scorer := Absent;
     ExtractOpt.processor := Absent;
     ExtractOpt.limit := None;
     ExtractOpt.cutoff := None;
     ExtractOpt.unsorted := false |}.

(** Options with one member set, for the examples. *)
Definition with_ratio_alg (alg : string) (o : Opt.t) : Opt.t :=
  {| Opt.full_process := Opt.full_process o; Opt.force_ascii := Opt.force_ascii o;
     Opt.subcost := Opt.subcost o; Opt.useCollator := Opt.useCollator o;
     Opt.astral := Opt.astral o; Opt.normalize := Opt.normalize o;
     Opt.ratio_alg := Some alg; Opt.partial := Opt.partial o;
     Opt.trySimple := Opt.trySimple o; Opt.tokens := Opt.tokens o;
     Opt.proc_sorted := Opt.proc_sorted o |}.

Definition with_trySimple (v : bool) (o : Opt.t) : Opt.t :=
  {| Opt.full_process := Opt.full_process o; Opt.force_ascii := Opt.force_ascii o;
     Opt.subcost := Opt.subcost o; Opt.useCollator := Opt.useCollator o;
     Opt.astral := Opt.astral o; Opt.normalize := Opt.normalize o;
     Opt.ratio_alg := Opt.ratio_alg o; Opt.partial := Opt.partial o;
     Opt.trySimple := v; Opt.tokens := Opt.tokens o;
     Opt.proc_sorted := Opt.proc_sorted o |}.

Definition with_cutoff (c : option jsnum) (o : ExtractOpt.t) : ExtractOpt.t :=
  {| ExtractOpt.scoring := ExtractOpt.scoring o;
     ExtractOpt.scorer := ExtractOpt.scorer o;
     ExtractOpt.processor := ExtractOpt.processor o;
     ExtractOpt.limit := ExtractOpt.limit o;
     ExtractOpt.cutoff := c;
     ExtractOpt.unsorted := ExtractOpt.unsorted o |}.


Definition with_limit (n : option Z) (o : ExtractOpt.t) : ExtractOpt.t :=
  {| ExtractOpt.scoring := ExtractOpt.scoring o;
     ExtractOpt.scorer := ExtractOpt.scorer o;
     ExtractOpt.processor := ExtractOpt.processor o;
     ExtractOpt.limit := n;
     ExtractOpt.cutoff := ExtractOpt.cutoff o;
     ExtractOpt.unsorted := ExtractOpt.unsorted o |}.

Definition with_scorer (f : supplied jsfunction) (o : ExtractOpt.t) : ExtractOpt.t :=
  {| ExtractOpt.scoring := ExtractOpt.scoring o;
     ExtractOpt.scorer := f;
     ExtractOpt.processor := ExtractOpt.processor o;
     ExtractOpt.limit := ExtractOpt.limit o;
     ExtractOpt.cutoff := ExtractOpt.cutoff o;
     ExtractOpt.unsorted := ExtractOpt.unsorted o |}.

Definition with_unsorted (v : bool) (o : ExtractOpt.t) : ExtractOpt.t :=
  {| ExtractOpt.scoring := ExtractOpt.scoring o;
     ExtractOpt.scorer := ExtractOpt.scorer o;
     ExtractOpt.processor := ExtractOpt.processor o;
     ExtractOpt.limit := ExtractOpt.limit o;
     ExtractOpt.cutoff := ExtractOpt.cutoff o;
     ExtractOpt.unsorted := v |}.

(** Options of [extract] that ask for astral mode with normalisation, and
    turn the clean-up off: [{astral: true, normalize: true,
    full_process: false}]. *)
Definition normalizing_options : ExtractOpt.t :=
  {| ExtractOpt.scoring :=
       {| Opt.full_process := Some false; Opt.force_ascii := None;
          Opt.subcost := None; Opt.useCollator := false;
          Opt.astral := true; Opt.normalize := true;
          Opt.ratio_alg := None; Opt.partial := false;
          Opt.trySimple := false; Opt.tokens := None;
          Opt.proc_sorted := false |};
     ExtractOpt.scorer := Absent;
     ExtractOpt.processor := Absent;
     ExtractOpt.limit := None;
     ExtractOpt.cutoff := None;
     ExtractOpt.unsorted := false |}.

(** A string value from an ASCII literal. *)
Definition str (s : string) : jsval := VString (lit s).

(** A text of 200 code units: "y", four times "x", then 195 times "y".
    Both letters occur more than 3 times in it, so both are popular. *)
Definition popular_text : jsstring := lit "yxxxx" ++ repeat 121%N 195.

(** ** [src/fuzzball.js]: [extractAsync]

    [extractAsync] scans one candidate per call of [searchLoop] and hands
    the next call to [setImmediate]; the calls run one after the other, and
    the last one calls the callback.  A call of [searchLoop] is one unfolding
    of the fixpoint below; the collection is taken not to change between two
    calls. *)

(** What a call of [extractAsync] comes to: a TypeError thrown to the
    caller, the callback called with an error or with the results, a
    TypeError raised in a later call of [searchLoop] (run by
    [setImmediate], so that nobody catches it and the callback is never
    called), or a loop that was cut short. *)
Inductive async_outcome : Type :=
| TypeError
| CallbackError (message : string)
| CallbackResults (results : list result)
| UncaughtTypeError
| NoCallback.

(** How the calls of [searchLoop] end: the call at position [p] throws a
    TypeError, the last call has the results, or the calls were cut short. *)
Inductive loop_outcome : Type :=
| LoopThrows (p : nat)
| LoopEnds (results : list result)
| LoopCut.

(** [choices[c]] on an object: the value of its property [c]. *)
Fixpoint property (l : list (jsstring * jsval)) (c : jsstring) : option jsval :=
  match l with
  | [] => None
  | (k, v) :: l' => if Js.eqb k c then Some v else property l' c
  end.

(** [choices.hasOwnProperty(c)] for a name [c] of [Object.keys(choices)]:
    the method is inherited from [Object.prototype], unless the object has
    a property of that name itself; its value, a candidate, is then called,
    and is no function: a TypeError. *)
Definition hasOwnProperty (l : list (jsstring * jsval)) (c : jsstring) : outcome bool :=
  match property l (lit "hasOwnProperty") with
  | Some _ => ThrowTypeError
  | None => Return (match property l c with Some _ => true | None => false end)
  end.

Section ExtractAsync.

Variable e : Env.t.

(** The calls of [searchLoop] from position [p] on: [searchLoop(p)] on an
    array, [searchLoop(keys[p], p)] on an object.  [fuel] bounds the number
    of calls. *)
Fixpoint searchLoop (fuel : nat) (su : scan_setup) (cutoff : jsnum)
         (choices : collection) (p : nat) (results : list result)
  : loop_outcome :=
  match fuel with
  | O => LoopCut
  | S fuel' =>
      let visited : outcome (option (jsval * key)) :=
        match choices with
        | CArray l => Return (Some (nth p l VOther, KIndex p))
        | CObject l =>
            let c := nth p (map fst l) [] in
            match hasOwnProperty l c with
            | Return true =>
                Return (match property l c with
                        | Some value => Some (value, KName c)
                        | None => None
                        end)
            | Return false => Return None
            | Throw message => Throw message
            | ThrowTypeError => ThrowTypeError
            end
        | CNullish => Return None
        end in
      match visited with
      | Return (Some (value, idx)) =>
          if choice_normalize_throws su value then LoopThrows p
          else
            let result := score_of e su value in
            let results :=
              if gtb result cutoff then results ++ [(value, result, idx)] else results in
            if (Z.of_nat p <? Z.of_nat (numchoices choices) - 1)%Z
            then searchLoop fuel' su cutoff choices (p + 1) results
            else LoopEnds results
      | Return None =>
          if (Z.of_nat p <? Z.of_nat (numchoices choices) - 1)%Z
          then searchLoop fuel' su cutoff choices (p + 1) results
          else LoopEnds results
      | _ => LoopThrows p
      end
  end.

Definition extractAsync (query : jsval) (choices : collection) (options_p : ExtractOpt.t)
  : async_outcome :=
  let options := Utils.clone_and_set_option_defaults (ExtractOpt.scoring options_p) in
  match choices with
  | CNullish => TypeError
  | _ =>
      let numchoices := numchoices choices in
      if numchoices =? 0 then CallbackError "No choices"
      else
        match ExtractOpt.processor options_p with
        | NotCallable => CallbackError "Invalid Processor"
        | given_processor =>
            let processor := match given_processor with
                             | Callable f => f
                             | _ => fun x => x
                             end in
            match ExtractOpt.scorer options_p with
            | NotCallable => CallbackError "Invalid Scorer"
            | given_scorer =>
                let scorer := match given_scorer with
                              | Callable f => f
                              | _ => QRatio_function e
                              end in
                let cutoff := cutoff_used (ExtractOpt.cutoff options_p) in
                let su := setup e query options scorer processor in
                if query_normalize_throws su query then TypeError
                else
                  match searchLoop numchoices su cutoff choices 0 [] with
                  | LoopEnds results =>
                      CallbackResults
                        (if limit_applies options_p numchoices
                         then Env.nlargest e results
                                           (match ExtractOpt.limit options_p with
                                            | Some n => n
                                            | None => 0%Z
                                            end)
                         else if negb (ExtractOpt.unsorted options_p)
                              then sort_results results
                              else results)
                  | LoopThrows O => TypeError
                  | LoopThrows (S _) => UncaughtTypeError
                  | LoopCut => NoCallback
                  end
            end
        end
  end.

End ExtractAsync.

(** ** Further notions the statements use *)

(** A score of the ratio family: an integer from 0 to 100. *)
Definition percentage (x : jsnum) : Prop :=
  exists z, x = of_Z z /\ (0 <= z <= 100)%Z.

(** The text [distance] measures: cleaned up, unless the caller turned
    [full_process] off. *)
Definition prepared_text (e : Env.t) (options_p : Opt.t) (s : jsstring) : jsstring :=
  if Opt.truthy (Opt.full_process (Utils.clone_and_set_option_defaults options_p))
  then Env.full_process e s
         (Opt.truthy (Opt.force_ascii (Utils.clone_and_set_option_defaults options_p)))
  else s.

(** The symbols [distance] compares: code points in astral mode, UTF-16
    code units otherwise. *)
Definition symbols (options : Opt.t) (s : jsstring) : list jsstring :=
  if Opt.astral options then Lodash._toArray s else map (fun c => [c]) s.

(** One result does not score less than the other. *)
Definition scores_at_least (r1 r2 : result) : Prop :=
  geb (result_score r1) (result_score r2) = true.




(** The property names of an object are pairwise different. *)
Definition distinct_keys (choices : collection) : Prop :=
  match choices with
  | CObject l => NoDup (map fst l)
  | _ => True
  end.

(** When the scorer is one of the library's, the caller asks for astral mode
    with normalisation and the engine has [normalize], [extract] calls
    [normalize] on the query and on the processed candidates itself; these
    then have to be strings. *)
Definition normalize_callable (e : Env.t) (query : jsval) (choices : collection)
           (options_p : ExtractOpt.t) : Prop :=
  su_normalize (setup_of e query options_p) = true ->
  (exists s, query = VString s)
  /\ forall value k, In (value, k) (entries choices) ->
       exists s, processor_used (ExtractOpt.processor options_p) value = VString s.

(** A token: not empty, and free of white space. *)
Definition solid (t : jsstring) : Prop :=
  t <> [] /\ Forall (fun c => is_whitespace c = false) t.

(** A text that does not start with white space (and is not empty). *)
Definition starts_solid (x : jsstring) : Prop :=
  match x with
  | c :: _ => is_whitespace c = false
  | [] => False
  end.

(** The collaborator the symbol equality rests on is symmetric. *)
Definition collator_symmetric (e : Env.t) : Prop :=
  forall c, Env.collator e = Some c -> forall x y, c x y = c y x.

(** The total length of a list of blocks. *)
Definition total (l : list Difflib.block) : nat :=
  fold_right (fun x n => Difflib.block_size x + n) 0 l.

(** A finite number from 0 to 100, whole or not. *)
Definition bounded (x : jsnum) : Prop :=
  exists q, x = Num q /\ (0 <= q)%Q /\ (q <= 100)%Q.

(** * Properties *)

(** ** Numbers *)

Lemma Qfloor_half (z : Z) : Qfloor (inject_Z z + (1 # 2)) = z.
Proof.
  unfold Qfloor, Qplus, inject_Z; simpl.
  symmetry; apply Z.div_unique with (r := 1%Z); lia.
Qed.

Lemma Math_round_of_Z (z : Z) : Math_round (of_Z z) = of_Z z.
Proof. unfold Math_round, of_Z. now rewrite Qfloor_half. Qed.

Lemma Qle_bool_refl (x : Q) : Qle_bool x x = true.
Proof. apply Qle_bool_iff, Qle_refl. Qed.

Lemma Qltb_false_iff (a b : Q) : Qltb a b = false <-> (b <= a)%Q.
Proof.
  unfold Qltb. rewrite negb_false_iff. apply Qle_bool_iff.
Qed.

Lemma Qltb_true_iff (a b : Q) : Qltb a b = true <-> (a < b)%Q.
Proof.
  unfold Qltb. rewrite negb_true_iff. split; intro H.
  - apply Qnot_le_lt. intro Hle. apply Qle_bool_iff in Hle. congruence.
  - destruct (Qle_bool b a) eqn:E; [|reflexivity].
    apply Qle_bool_iff in E. exfalso. exact (Qlt_not_le _ _ H E).
Qed.

Lemma round_mono (x y : Q) :
  (x <= y)%Q -> (Qfloor (x + (1 # 2)) <= Qfloor (y + (1 # 2)))%Z.
Proof.
  intro H. apply Qfloor_resp_le. apply Qplus_le_compat; [exact H | apply Qle_refl].
Qed.

(** ** The arithmetic of doubles *)

Section Rounding.

#[local] Open Scope Q_scope.

Lemma round_half_even_near (x : Q) :
  (x - (1 # 2) <= inject_Z (round_half_even x)
   /\ inject_Z (round_half_even x) <= x + (1 # 2))%Q.
Proof.
  unfold round_half_even.
  pose proof (Qfloor_le x) as Hlo. pose proof (Qlt_floor x) as Hhi.
  rewrite inject_Z_plus in Hhi. change (inject_Z 1) with 1 in Hhi.
  destruct (Qcompare (x - inject_Z (Qfloor x)) (1 # 2)) eqn:E.
  - apply Qeq_alt in E.
    destruct (Z.even (Qfloor x)); [|rewrite inject_Z_plus; change (inject_Z 1) with 1]; lra.
  - apply Qlt_alt in E. lra.
  - apply Qgt_alt in E. rewrite inject_Z_plus. change (inject_Z 1) with 1. lra.
Qed.

Lemma round_half_even_nonneg (x : Q) : 0 <= x -> (0 <= round_half_even x)%Z.
Proof.
  intro H. assert (Hf : (0 <= Qfloor x)%Z).
  { change 0%Z with (Qfloor 0). now apply Qfloor_resp_le. }
  unfold round_half_even.
  destruct (Qcompare (x - inject_Z (Qfloor x)) (1 # 2)); [destruct (Z.even (Qfloor x))| |]; lia.
Qed.

Lemma pow2_pos (e : Z) : 0 < 2 ^ e.
Proof. apply Qpower_0_lt. reflexivity. Qed.

(** A positive number is at least [2^52] units of its last place. *)
Lemma ulp_exponent_le (x : Q) : 0 < x -> 2 ^ (ulp_exponent x + 52) <= x.
Proof.
  intro Hx. unfold ulp_exponent.
  destruct (Qle_bool (2 ^ (Z.log2 (Z.abs (Qnum x)) - Z.log2 (Z.pos (Qden x)) - 52 + 52))
                     (Qabs x)) eqn:E.
  - apply Qle_bool_iff in E. rewrite Qabs_pos in E by lra. exact E.
  - clear E. destruct x as [n d]. cbn [Qnum Qden].
    assert (Hn : (0 < n)%Z) by (unfold Qlt in Hx; simpl in Hx; lia).
    rewrite Z.abs_eq by lia.
    pose proof (Z.log2_spec n Hn) as [Ln _].
    pose proof (Z.log2_spec (Z.pos d) ltac:(lia)) as [_ Ld].
    pose proof (Z.log2_nonneg n) as Nn. pose proof (Z.log2_nonneg (Z.pos d)) as Nd.
    replace (Z.log2 n - Z.log2 (Z.pos d) - 52 - 1 + 52)%Z
      with (Z.log2 n - (Z.log2 (Z.pos d) + 1))%Z by lia.
    rewrite Qpower_minus by discriminate.
    change 2 with (inject_Z 2). rewrite <- !Zpower_Qpower by lia.
    apply Qle_shift_div_r.
    + change 0 with (inject_Z 0). rewrite <- Zlt_Qlt. lia.
    + unfold Qle, Qmult, inject_Z. cbn [Qnum Qden].
      rewrite Z.mul_1_r, Pos.mul_1_r.
      apply Z.le_trans with (n * Z.pos d)%Z; [|nia].
      apply Z.mul_le_mono_nonneg; lia.
Qed.

Lemma binary64_nonneg (x : Q) : 0 <= x -> 0 <= binary64 x.
Proof.
  intro H. unfold binary64. destruct (Qeq_bool x 0); [apply Qle_refl|].
  apply Qmult_le_0_compat; [|apply Qlt_le_weak, pow2_pos].
  change 0 with (inject_Z 0). rewrite <- Zle_Qle. apply round_half_even_nonneg.
  apply Qle_shift_div_l; [apply pow2_pos | lra].
Qed.

(** The relative error of one rounding is at most [2^-53]. *)
Lemma binary64_near (x : Q) :
  0 <= x ->
  x * (1 - (1 # 9007199254740992)) <= binary64 x
  /\ binary64 x <= x * (1 + (1 # 9007199254740992)).
Proof.
  intro H. unfold binary64. destruct (Qeq_bool x 0) eqn:E.
  - apply Qeq_bool_iff in E. rewrite E. split; lra.
  - assert (Hx : 0 < x).
    { apply Qle_lteq in H. destruct H as [H | H]; [exact H|].
      symmetry in H. apply Qeq_bool_iff in H. congruence. }
    pose proof (@ulp_exponent_le x Hx) as Hu.
    set (e := ulp_exponent x) in *.
    pose proof (pow2_pos e) as Pe.
    rewrite Qpower_plus in Hu by discriminate.
    change (2 ^ 52) with (inject_Z 4503599627370496) in Hu.
    destruct (round_half_even_near (x / 2 ^ e)) as [Lo Hi].
    set (m := inject_Z (round_half_even (x / 2 ^ e))) in *.
    assert (Hs : x / 2 ^ e * 2 ^ e == x) by (field; lra).
    set (s := x / 2 ^ e) in *.
    assert (Hs52 : inject_Z 4503599627370496 <= s).
    { unfold s. apply Qle_shift_div_l; [exact Pe | lra]. }
    change (inject_Z 4503599627370496) with 4503599627370496 in *.
    split.
    + apply Qle_trans with ((s - (1 # 2)) * 2 ^ e).
      * rewrite <- Hs. nra.
      * apply Qmult_le_compat_r; [exact Lo | lra].
    + apply Qle_trans with ((s + (1 # 2)) * 2 ^ e).
      * apply Qmult_le_compat_r; [exact Hi | lra].
      * rewrite <- Hs. nra.
Qed.

Lemma round_half_even_nonpos (x : Q) : x <= 0 -> (round_half_even x <= 0)%Z.
Proof.
  intro H. pose proof (Qfloor_le x) as Hlo.
  assert (Hf : (Qfloor x <= 0)%Z).
  { rewrite Zle_Qle. change (inject_Z 0) with 0. lra. }
  unfold round_half_even.
  destruct (Qcompare (x - inject_Z (Qfloor x)) (1 # 2)) eqn:E.
  - apply Qeq_alt in E.
    assert (Qfloor x <> 0)%Z by (intro C; rewrite C in E; change (inject_Z 0) with 0 in E; lra).
    destruct (Z.even (Qfloor x)); lia.
  - lia.
  - apply Qgt_alt in E.
    assert (Qfloor x <> 0)%Z by (intro C; rewrite C in E; change (inject_Z 0) with 0 in E; lra).
    lia.
Qed.

Lemma binary64_nonpos (x : Q) : x <= 0 -> binary64 x <= 0.
Proof.
  intro H. unfold binary64. destruct (Qeq_bool x 0); [apply Qle_refl|].
  pose proof (pow2_pos (ulp_exponent x)) as P.
  assert (Hm : inject_Z (round_half_even (x / 2 ^ ulp_exponent x)) <= 0).
  { change 0 with (inject_Z 0). rewrite <- Zle_Qle. apply round_half_even_nonpos.
    apply Qle_shift_div_r; [exact P | lra]. }
  nra.
Qed.

(** [Math.round(100 * q)] in the arithmetic of doubles, for a quotient [q]
    that is itself the result of a division. *)
Lemma round_100_times (q : Q) :
  let y := binary64 (100 * q) in
  (0 <= q -> (0 <= Qfloor (y + (1 # 2)))%Z)
  /\ (q <= 1001 # 1000 -> (Qfloor (y + (1 # 2)) <= 100)%Z)
  /\ (999 # 1000 <= q -> (100 <= Qfloor (y + (1 # 2)))%Z).
Proof.
  intro y. repeat split.
  - intro H. change 0%Z with (Qfloor 0). apply Qfloor_resp_le.
    pose proof (@binary64_nonneg (100 * q) ltac:(lra)). unfold y. lra.
  - intro H.
    assert (Hy : y <= 1004 # 10).
    { destruct (Qlt_le_dec q 0) as [Hn | Hp].
      - pose proof (@binary64_nonpos (100 * q) ltac:(lra)). unfold y. lra.
      - destruct (@binary64_near (100 * q) ltac:(lra)) as [_ Hi]. unfold y. lra. }
    assert (Hlt : (Qfloor (y + (1 # 2)) < 101)%Z).
    { rewrite Zlt_Qlt. pose proof (Qfloor_le (y + (1 # 2))).
      change (inject_Z 101) with 101. lra. }
    lia.
  - intro H.
    destruct (@binary64_near (100 * q) ltac:(lra)) as [Lo _].
    change 100%Z with (Qfloor 100). apply Qfloor_resp_le. unfold y. lra.
Qed.

(** A quotient of two non-negative numbers after the rounding of the
    numerator and of the quotient. *)
Lemma rounded_quotient (x t : Q) :
  0 <= x -> 0 < t ->
  let q := binary64 (binary64 x / t) in
  0 <= q
  /\ (x <= t -> q <= 1001 # 1000)
  /\ (x == t -> 999 # 1000 <= q).
Proof.
  intros Hx Ht q.
  pose proof (@binary64_nonneg x Hx) as N1.
  destruct (@binary64_near x Hx) as [Lo1 Hi1].
  assert (Hq0 : 0 <= binary64 x / t) by (apply Qle_shift_div_l; lra).
  pose proof (@binary64_nonneg _ Hq0) as N2.
  destruct (@binary64_near _ Hq0) as [Lo2 Hi2].
  fold q in N2, Lo2, Hi2.
  repeat split; [exact N2 | |].
  - intro H.
    assert (binary64 x / t <= 1 + (1 # 9007199254740992)).
    { apply Qle_shift_div_r; [exact Ht|]. nra. }
    nra.
  - intro H.
    assert (1 - (1 # 9007199254740992) <= binary64 x / t).
    { apply Qle_shift_div_l; [exact Ht|]. lra. }
    nra.
Qed.

End Rounding.

(** ** The distance engine *)

Section EditDistanceFacts.

Variable A : Type.
Variable same : A -> A -> bool.
Variable subcost : Z.

Lemma edit_distance_nil_r (a : list A) :
  Leven.edit_distance same subcost a [] = Z.of_nat (length a).
Proof. destruct a; reflexivity. Qed.

Lemma edit_distance_cons (x y : A) (a b : list A) :
  Leven.edit_distance same subcost (x :: a) (y :: b) =
  Z.min (Z.min (Leven.edit_distance same subcost a (y :: b) + 1)
               (Leven.edit_distance same subcost (x :: a) b + 1))
        (Leven.edit_distance same subcost a b + (if same x y then 0 else subcost)).
Proof. reflexivity. Qed.

Hypothesis subcost_nonneg : (0 <= subcost)%Z.

Lemma edit_distance_nonneg (a b : list A) :
  (0 <= Leven.edit_distance same subcost a b)%Z.
Proof.
  revert b. induction a as [|x a IHa]; intro b.
  - simpl. lia.
  - induction b as [|y b IHb].
    + rewrite edit_distance_nil_r. lia.
    + rewrite edit_distance_cons.
      pose proof (IHa (y :: b)) as H1. pose proof (IHa b) as H2.
      destruct (same x y); lia.
Qed.

Hypothesis same_refl : forall x, same x x = true.

Lemma edit_distance_refl (s : list A) :
  Leven.edit_distance same subcost s s = 0%Z.
Proof.
  induction s as [|x s IH].
  - reflexivity.
  - rewrite edit_distance_cons, same_refl, IH.
    pose proof (edit_distance_nonneg s (x :: s)).
    pose proof (edit_distance_nonneg (x :: s) s).
    lia.
Qed.

End EditDistanceFacts.

Lemma eqb_refl (s : jsstring) : Js.eqb s s = true.
Proof.
  induction s as [|x s IH]; simpl; [reflexivity|].
  now rewrite N.eqb_refl, IH.
Qed.

(** ** The score formula *)

Lemma inject_nat_pos (n : nat) : 0 < n -> (0 < inject_Z (Z.of_nat n))%Q.
Proof.
  intro H. change 0%Q with (inject_Z 0). rewrite <- Zlt_Qlt. lia.
Qed.

Lemma inject_nat_nonzero (n : nat) : 0 < n -> Qeq_bool (inject_Z (Z.of_nat n)) 0 = false.
Proof.
  intro H. destruct (Qeq_bool (inject_Z (Z.of_nat n)) 0) eqn:E; [|reflexivity].
  apply Qeq_bool_iff in E. pose proof (inject_nat_pos H) as P.
  rewrite E in P. exfalso. exact (Qlt_irrefl _ P).
Qed.

Lemma percent_value (n : nat) (d : Z) :
  0 < n ->
  percent n d =
  of_Z (Qfloor (binary64 (100 * binary64 (binary64 (inject_Z (Z.of_nat n) - inject_Z d)
                                          / inject_Z (Z.of_nat n)))
                + (1 # 2))).
Proof.
  intro H. unfold percent, of_nat, of_Z. cbn [sub div mul Math_round].
  rewrite (inject_nat_nonzero H). reflexivity.
Qed.

Lemma percent_exact (n : nat) : 0 < n -> percent n 0 = of_Z 100.
Proof.
  intro H. rewrite (percent_value _ H). unfold of_Z. f_equal. f_equal.
  pose proof (inject_nat_pos H) as P.
  destruct (@rounded_quotient (inject_Z (Z.of_nat n) - inject_Z 0) (inject_Z (Z.of_nat n)))
    as (Q0 & Q1 & Q2); [change (inject_Z 0) with 0%Q; lra | exact P |].
  assert (E : (inject_Z (Z.of_nat n) - inject_Z 0 == inject_Z (Z.of_nat n))%Q)
    by (change (inject_Z 0) with 0%Q; ring).
  specialize (Q2 E). assert (L : (inject_Z (Z.of_nat n) - inject_Z 0
                                  <= inject_Z (Z.of_nat n))%Q) by (rewrite E; apply Qle_refl).
  specialize (Q1 L).
  destruct (round_100_times
              (binary64 (binary64 (inject_Z (Z.of_nat n) - inject_Z 0)
                         / inject_Z (Z.of_nat n)))) as (_ & R1 & R2).
  specialize (R1 Q1). specialize (R2 Q2). lia.
Qed.

Lemma percent_le_100 (n : nat) (d : Z) :
  0 < n -> (0 <= d)%Z -> exists z, percent n d = of_Z z /\ (z <= 100)%Z.
Proof.
  intros H Hd. rewrite (percent_value _ H). eexists; split; [reflexivity|].
  pose proof (inject_nat_pos H) as P.
  assert (D : (0 <= inject_Z d)%Q) by (change 0%Q with (inject_Z 0); now rewrite <- Zle_Qle).
  set (t := inject_Z (Z.of_nat n)) in *.
  set (x := (t - inject_Z d)%Q).
  assert (Hq : (binary64 (binary64 x / t) <= 1001 # 1000)%Q).
  { destruct (Qlt_le_dec x 0) as [Hneg | Hpos].
    - pose proof (@binary64_nonpos x ltac:(lra)) as N1.
      assert (N2 : (binary64 x / t <= 0)%Q).
      { apply Qle_shift_div_r; [exact P | lra]. }
      pose proof (binary64_nonpos N2). lra.
    - destruct (@rounded_quotient x t Hpos P) as (_ & Q1 & _). apply Q1. unfold x. lra. }
  destruct (round_100_times (binary64 (binary64 x / t))) as (_ & R1 & _).
  exact (R1 Hq).
Qed.

(** ** Matching blocks *)

Lemma seq_sorted (start len : nat) : StronglySorted lt (seq start len).
Proof.
  revert start. induction len as [|len IH]; intro start; cbn [seq]; constructor.
  - apply IH.
  - apply Forall_forall. intros x Hx. apply in_seq in Hx. lia.
Qed.

Section LongestMatch.

Variable junk : N -> bool.
Variables a b : jsstring.
Variables ahi bhi : nat.

Let rl := Difflib.run_length junk a b ahi bhi.

Lemma better_row (i : nat) (js : list nat) (best : Difflib.block) :
  StronglySorted lt js ->
  let r := fold_left (Difflib.better junk a b ahi bhi i) js best in
  Difflib.block_size best <= Difflib.block_size r
  /\ (forall j, In j js -> rl i j <= Difflib.block_size r)
  /\ (r = best
      \/ exists j, In j js /\ r = (i, j, rl i j) /\ Difflib.block_size best < rl i j
                   /\ forall j', In j' js -> j' < j -> rl i j' < rl i j).
Proof.
  intro Hs. revert best. induction Hs as [|j js Hs IH Hj]; intro best; simpl.
  - repeat split; [lia | intros j [] | now left].
  - assert (Hb : Difflib.better junk a b ahi bhi i best j
                 = if Difflib.block_size best <? rl i j then (i, j, rl i j) else best)
      by reflexivity.
    destruct (IH (Difflib.better junk a b ahi bhi i best j)) as (H1 & H2 & H3).
    rewrite Hb in H1, H2, H3 |- *. clear Hb.
    rewrite Forall_forall in Hj.
    destruct (Difflib.block_size best <? rl i j) eqn:E.
    + apply Nat.ltb_lt in E. unfold Difflib.block_size at 1 in H1. simpl in H1.
      repeat split.
      * lia.
      * intros j' [<- | Hj']; [exact H1 | now apply H2].
      * right. destruct H3 as [H3 | (j' & Hj' & H3 & H4 & H5)].
        -- exists j. repeat split; [now left | exact H3 | lia |].
           intros j' [<- | Hj'] Hlt; [lia | specialize (Hj j' Hj'); lia].
        -- exists j'. unfold Difflib.block_size in H4. simpl in H4.
           repeat split; [now right | exact H3 | lia |].
           intros j'' [<- | Hj''] Hlt; [lia | now apply H5].
    + apply Nat.ltb_ge in E.
      repeat split.
      * exact H1.
      * intros j' [<- | Hj']; [lia | now apply H2].
      * destruct H3 as [H3 | (j' & Hj' & H3 & H4 & H5)]; [now left|].
        right. exists j'. repeat split; [now right | exact H3 | exact H4 |].
        intros j'' [<- | Hj''] Hlt; [lia | now apply H5].
Qed.

Lemma better_rows (il js : list nat) (best : Difflib.block) :
  StronglySorted lt il -> StronglySorted lt js ->
  let r := fold_left
             (fun best i => fold_left (Difflib.better junk a b ahi bhi i) js best) il best in
  Difflib.block_size best <= Difflib.block_size r
  /\ (forall i j, In i il -> In j js -> rl i j <= Difflib.block_size r)
  /\ (r = best
      \/ exists i j, In i il /\ In j js /\ r = (i, j, rl i j)
                     /\ Difflib.block_size best < rl i j
                     /\ forall i' j', In i' il -> In j' js ->
                                      i' < i \/ (i' = i /\ j' < j) -> rl i' j' < rl i j).
Proof.
  intros Hi Hjs. revert best. induction Hi as [|i il Hi IH Hil]; intro best; simpl.
  - repeat split; [lia | intros i j [] | now left].
  - destruct (better_row i best Hjs) as (R1 & R2 & R3).
    destruct (IH (fold_left (Difflib.better junk a b ahi bhi i) js best)) as (H1 & H2 & H3).
    rewrite Forall_forall in Hil.
    repeat split.
    + lia.
    + intros i' j [<- | Hi'] Hj; [specialize (R2 j Hj); lia | now apply H2].
    + destruct H3 as [H3 | (i' & j & Hi' & Hj & H3 & H4 & H5)].
      * destruct R3 as [R3 | (j & Hj & R3 & R4 & R5)].
        -- left. now rewrite H3.
        -- right. exists i, j.
           repeat split; [now left | exact Hj | now rewrite H3 | exact R4 |].
           intros i' j' [<- | Hi'] Hj' [Hlt | [Heq Hlt]].
           ++ lia.
           ++ now apply R5.
           ++ specialize (Hil i' Hi'). lia.
           ++ specialize (Hil i' Hi'). lia.
      * right. exists i', j.
        repeat split; [now right | exact Hj | exact H3 | lia |].
        intros i'' j' [<- | Hi''] Hj' Hlt; [|now apply H5].
        specialize (R2 j' Hj'). lia.
Qed.

End LongestMatch.

(** What the search finds: a longest run, and the first of the longest. *)
Lemma search_spec (junk : N -> bool) (a b : jsstring) (alo ahi blo bhi : nat) :
  let r := Difflib.search junk a b alo ahi blo bhi in
  let rl := Difflib.run_length junk a b ahi bhi in
  (forall i j, alo <= i < ahi -> blo <= j < bhi -> rl i j <= Difflib.block_size r)
  /\ (r = (alo, blo, 0)
      \/ exists i j, alo <= i < ahi /\ blo <= j < bhi
                     /\ r = (i, j, rl i j) /\ 0 < rl i j
                     /\ forall i' j', alo <= i' < ahi -> blo <= j' < bhi ->
                                      i' < i \/ (i' = i /\ j' < j) -> rl i' j' < rl i j).
Proof.
  unfold Difflib.search.
  destruct (better_rows junk a b ahi bhi (alo, blo, 0)
                        (seq_sorted alo (ahi - alo)) (seq_sorted blo (bhi - blo)))
    as (_ & H2 & H3).
  split.
  - intros i j Hi Hj. apply H2; apply in_seq; lia.
  - destruct H3 as [H3 | (i & j & Hi & Hj & H3 & H4 & H5)]; [now left|].
    right. exists i, j. apply in_seq in Hi, Hj.
    repeat split; try lia; try assumption.
    intros i' j' Hi' Hj' Hlt. apply H5; [apply in_seq; lia | apply in_seq; lia | exact Hlt].
Qed.

Lemma common_prefix_le (s t : jsstring) : Difflib.common_prefix s t <= length s.
Proof.
  revert t. induction s as [|x s IH]; intros [|y t]; simpl; try lia.
  destruct (N.eqb x y); [specialize (IH t)|]; lia.
Qed.

Lemma common_prefix_le_r (s t : jsstring) : Difflib.common_prefix s t <= length t.
Proof.
  revert t. induction s as [|x s IH]; intros [|y t]; simpl; try lia.
  destruct (N.eqb x y); [specialize (IH t)|]; lia.
Qed.

Lemma common_prefix_full (s t : jsstring) :
  Difflib.common_prefix s t = length s -> firstn (length s) t = s.
Proof.
  revert t. induction s as [|x s IH]; intros [|y t]; simpl; try reflexivity; try discriminate.
  destruct (N.eqb x y) eqn:E; [|discriminate].
  intro H. apply N.eqb_eq in E. subst y. f_equal. apply IH. lia.
Qed.

Lemma common_prefix_app (s t : jsstring) : Difflib.common_prefix s (s ++ t) = length s.
Proof.
  induction s as [|x s IH]; simpl; [reflexivity|].
  now rewrite N.eqb_refl, IH.
Qed.

Lemma common_prefix_same (s : jsstring) : Difflib.common_prefix s s = length s.
Proof.
  pose proof (common_prefix_app s []) as H. now rewrite app_nil_r in H.
Qed.

Lemma common_prefix_nil_r (s : jsstring) : Difflib.common_prefix s [] = 0.
Proof. now destruct s. Qed.

(** Past their common prefix two strings differ at once. *)
Lemma common_prefix_skipn (s t : jsstring) :
  Difflib.common_prefix (skipn (Difflib.common_prefix s t) s)
                        (skipn (Difflib.common_prefix s t) t) = 0.
Proof.
  revert t. induction s as [|x s IH]; intros [|y t]; try reflexivity.
  cbn [Difflib.common_prefix]. destruct (N.eqb x y) eqn:E.
  - cbn [skipn]. apply IH.
  - cbn [skipn Difflib.common_prefix]. now rewrite E.
Qed.

Lemma common_run_le_prefix (junk : N -> bool) (s t : jsstring) :
  Difflib.common_run junk s t <= Difflib.common_prefix s t.
Proof.
  revert t. induction s as [|x s IH]; intros [|y t]; simpl; try lia.
  destruct (N.eqb x y); cbn [andb]; [|lia].
  destruct (negb (junk y)); [specialize (IH t)|]; lia.
Qed.

Lemma common_run_no_junk (junk : N -> bool) (s t : jsstring) :
  (forall c, junk c = false) ->
  Difflib.common_run junk s t = Difflib.common_prefix s t.
Proof.
  intro H. revert t. induction s as [|x s IH]; intros [|y t]; simpl; try reflexivity.
  rewrite H, IH. cbn [negb]. now rewrite andb_true_r.
Qed.

(** A run of [s] and [t] is a run of [s] and itself, and of [t] and itself. *)
Lemma common_run_self_l (junk : N -> bool) (s t : jsstring) :
  Difflib.common_run junk s t <= Difflib.common_run junk s s.
Proof.
  revert t. induction s as [|x s IH]; intros [|y t]; simpl; try lia.
  rewrite N.eqb_refl. cbn [andb].
  destruct (N.eqb x y) eqn:E; cbn [andb]; [|lia].
  apply N.eqb_eq in E. subst y.
  destruct (negb (junk x)); [specialize (IH t)|]; lia.
Qed.

Lemma common_run_self_r (junk : N -> bool) (s t : jsstring) :
  Difflib.common_run junk s t <= Difflib.common_run junk t t.
Proof.
  revert t. induction s as [|x s IH]; intros [|y t]; simpl; try lia.
  rewrite N.eqb_refl. cbn [andb].
  destruct (N.eqb x y) eqn:E; cbn [andb]; [|lia].
  destruct (negb (junk y)); [specialize (IH t)|]; lia.
Qed.

Lemma popular_short (b : jsstring) (c : N) : length b < 200 -> Difflib.popular b c = false.
Proof.
  intro H. unfold Difflib.popular.
  replace (200 <=? length b) with false by (symmetry; apply Nat.leb_gt; exact H).
  reflexivity.
Qed.

Lemma substring_whole (s : jsstring) : substring s 0 (length s) = s.
Proof. unfold substring. simpl. rewrite Nat.sub_0_r. apply firstn_all. Qed.

Lemma substring_length (s : jsstring) (from to : nat) :
  length (substring s from to) = Nat.min (to - from) (length s - from).
Proof. unfold substring. now rewrite length_firstn, length_skipn. Qed.

Lemma skipn_substring (s : jsstring) (j : nat) : substring s j (length s) = skipn j s.
Proof.
  unfold substring. apply firstn_all2. rewrite length_skipn. lia.
Qed.

Lemma substring_empty (s : jsstring) (from to : nat) : to <= from -> substring s from to = [].
Proof. intro H. unfold substring. now replace (to - from) with 0 by lia. Qed.

(** [s.substring(from + k, to)] is [s.substring(from, to)] without its
    first [k] elements. *)
Lemma substring_skipn (s : jsstring) (from to k : nat) :
  substring s (from + k) to = skipn k (substring s from to).
Proof.
  unfold substring. rewrite skipn_firstn_comm, skipn_skipn.
  f_equal; [lia | f_equal; lia].
Qed.

(** The element before position [i]: the last of [s.substring(lo, i)] and
    the first of [s.substring(i - 1, hi)]. *)
Lemma substring_before (s : jsstring) (lo i hi : nat) :
  lo < i -> i <= length s -> i <= hi ->
  exists x, substring s lo i = substring s lo (i - 1) ++ [x]
            /\ substring s (i - 1) hi = x :: substring s i hi.
Proof.
  intros Hlo Hi Hhi.
  destruct (nth_error s (i - 1)) as [x|] eqn:E;
    [|apply nth_error_None in E; lia].
  apply nth_error_split in E. destruct E as (l1 & l2 & -> & Hl).
  exists x. unfold substring. split.
  - rewrite skipn_app. replace (lo - length l1) with 0 by lia. cbn [skipn].
    rewrite !firstn_app, length_skipn.
    replace (i - lo - (length l1 - lo)) with 1 by lia.
    replace (i - 1 - lo - (length l1 - lo)) with 0 by lia.
    cbn [firstn]. rewrite app_nil_r.
    rewrite !firstn_all2 by (rewrite length_skipn; lia). reflexivity.
  - rewrite !skipn_app.
    rewrite (skipn_all2 l1 (n := i - 1)) by lia.
    rewrite (skipn_all2 l1 (n := i)) by lia.
    replace (i - 1 - length l1) with 0 by lia.
    replace (i - length l1) with 1 by lia.
    cbn [skipn app]. replace (hi - (i - 1)) with (S (hi - i)) by lia. reflexivity.
Qed.

Lemma run_length_le (junk : N -> bool) (a b : jsstring) (ahi bhi i j : nat) :
  Difflib.run_length junk a b ahi bhi i j <= ahi - i
  /\ Difflib.run_length junk a b ahi bhi i j <= bhi - j
  /\ Difflib.run_length junk a b ahi bhi i j <= length a - i
  /\ Difflib.run_length junk a b ahi bhi i j <= length b - j.
Proof.
  unfold Difflib.run_length.
  pose proof (common_run_le_prefix junk (substring a i ahi) (substring b j bhi)) as H.
  pose proof (common_prefix_le (substring a i ahi) (substring b j bhi)) as Ha.
  pose proof (common_prefix_le_r (substring a i ahi) (substring b j bhi)) as Hb.
  rewrite substring_length in Ha, Hb. lia.
Qed.

(** What the search finds lies inside the two ranges. *)
Lemma search_inside (junk : N -> bool) (a b : jsstring) (alo ahi blo bhi : nat) :
  let x := Difflib.search junk a b alo ahi blo bhi in
  alo <= Difflib.block_a x /\ blo <= Difflib.block_b x
  /\ (x = (alo, blo, 0)
      \/ Difflib.block_a x + Difflib.block_size x <= ahi
         /\ Difflib.block_b x + Difflib.block_size x <= bhi).
Proof.
  destruct (search_spec junk a b alo ahi blo bhi)
    as (_ & [Hr | (i & j & Hi & Hj & Hr & Hp & _)]); cbv zeta; rewrite Hr;
    unfold Difflib.block_a, Difflib.block_b, Difflib.block_size; cbn [fst snd].
  - repeat split; try lia. now left.
  - pose proof (run_length_le junk a b ahi bhi i j). repeat split; lia.
Qed.

Lemma extend_inside (a b : jsstring) (alo ahi blo bhi : nat) (x : Difflib.block) :
  alo <= Difflib.block_a x -> blo <= Difflib.block_b x ->
  (x = (alo, blo, 0)
   \/ Difflib.block_a x + Difflib.block_size x <= ahi
      /\ Difflib.block_b x + Difflib.block_size x <= bhi) ->
  let y := Difflib.extend a b alo ahi blo bhi x in
  Difflib.block_size y <> 0 ->
  alo <= Difflib.block_a y
  /\ Difflib.block_a y + Difflib.block_size y <= ahi
  /\ blo <= Difflib.block_b y
  /\ Difflib.block_b y + Difflib.block_size y <= bhi.
Proof.
  intros Ha Hb Hk. unfold Difflib.extend.
  assert (Hk' : Difflib.block_a x = alo /\ Difflib.block_b x = blo /\ Difflib.block_size x = 0
                \/ Difflib.block_a x + Difflib.block_size x <= ahi
                   /\ Difflib.block_b x + Difflib.block_size x <= bhi).
  { destruct Hk as [-> | Hk]; [left; repeat split | now right]. }
  clear Hk.
  set (i := Difflib.block_a x) in *. set (j := Difflib.block_b x) in *.
  set (k := Difflib.block_size x) in *.
  pose proof (common_prefix_le (rev (substring a alo i)) (rev (substring b blo j))) as B1.
  pose proof (common_prefix_le_r (rev (substring a alo i)) (rev (substring b blo j))) as B2.
  pose proof (common_prefix_le (substring a (i + k) ahi) (substring b (j + k) bhi)) as F1.
  pose proof (common_prefix_le_r (substring a (i + k) ahi) (substring b (j + k) bhi)) as F2.
  rewrite length_rev, substring_length in B1, B2.
  rewrite substring_length in F1, F2.
  apply Nat.min_glb_l in B1, B2, F1, F2.
  cbv zeta. unfold Difflib.block_a at 1 2, Difflib.block_b at 1 2.
  unfold Difflib.block_size at 1 2 3. cbn [fst snd].
  clearbody i j k.
  generalize dependent (Difflib.common_prefix (rev (substring a alo i))
                                              (rev (substring b blo j))).
  generalize dependent (Difflib.common_prefix (substring a (i + k) ahi)
                                              (substring b (j + k) bhi)).
  intros forth F1 F2 back B1 B2 Hy.
  destruct Hk' as [(-> & -> & ->) | [H1 H2]]; lia.
Qed.

(** The longest match lies inside the two ranges. *)
Lemma longest_match_inside (a b : jsstring) (alo ahi blo bhi : nat) :
  let x := Difflib.find_longest_match a b alo ahi blo bhi in
  Difflib.block_size x <> 0 ->
  alo <= Difflib.block_a x
  /\ Difflib.block_a x + Difflib.block_size x <= ahi
  /\ blo <= Difflib.block_b x
  /\ Difflib.block_b x + Difflib.block_size x <= bhi.
Proof.
  unfold Difflib.find_longest_match.
  destruct (search_inside (Difflib.popular b) a b alo ahi blo bhi) as (Ha & Hb & Hk).
  now apply extend_inside.
Qed.

(** Below 200 elements no element is popular, and the match is the run the
    search finds: there is nothing to grow it over. *)
Lemma find_longest_match_spec (a b : jsstring) (alo ahi blo bhi : nat) :
  length b < 200 ->
  let r := Difflib.find_longest_match a b alo ahi blo bhi in
  let rl := fun i j => Difflib.common_prefix (substring a i ahi) (substring b j bhi) in
  (forall i j, alo <= i < ahi -> blo <= j < bhi -> rl i j <= Difflib.block_size r)
  /\ (r = (alo, blo, 0)
      \/ exists i j, alo <= i < ahi /\ blo <= j < bhi
                     /\ r = (i, j, rl i j) /\ 0 < rl i j).
Proof.
  intros Hshort r rl.
  assert (Hrl : forall i j, Difflib.run_length (Difflib.popular b) a b ahi bhi i j = rl i j).
  { intros i j. apply common_run_no_junk. intro c. now apply popular_short. }
  destruct (search_spec (Difflib.popular b) a b alo ahi blo bhi) as (Hmax & Hr).
  cbv zeta in Hmax, Hr.
  assert (Hsame : r = Difflib.search (Difflib.popular b) a b alo ahi blo bhi).
  { unfold r, Difflib.find_longest_match.
    destruct Hr as [Hr | (i & j & Hi & Hj & Hr & Hp & _)]; rewrite Hr in Hmax |- *;
      unfold Difflib.extend, Difflib.block_a, Difflib.block_b, Difflib.block_size in *;
      cbn [fst snd] in *.
    - rewrite (substring_empty a (from := alo) (to := alo)) by lia. cbn [rev Difflib.common_prefix].
      rewrite !Nat.add_0_r, !Nat.sub_0_r. cbn [Nat.add].
      destruct (Nat.lt_ge_cases alo ahi) as [Ha | Ha];
        [|rewrite (substring_empty a (from := alo) (to := ahi)) by lia; reflexivity].
      destruct (Nat.lt_ge_cases blo bhi) as [Hb | Hb];
        [|rewrite (substring_empty b (from := blo) (to := bhi)) by lia;
          now rewrite common_prefix_nil_r].
      specialize (Hmax alo blo ltac:(lia) ltac:(lia)). rewrite Hrl in Hmax. unfold rl in Hmax.
      replace (Difflib.common_prefix (substring a alo ahi) (substring b blo bhi)) with 0 by lia.
      reflexivity.
    - rewrite Hrl in Hp |- *. set (k := rl i j) in *.
      pose proof (run_length_le (Difflib.popular b) a b ahi bhi i j) as (_ & _ & La & Lb).
      rewrite Hrl in La, Lb. fold k in La, Lb.
      assert (F : Difflib.common_prefix (substring a (i + k) ahi) (substring b (j + k) bhi) = 0).
      { rewrite !substring_skipn. unfold k, rl. apply common_prefix_skipn. }
      assert (B : Difflib.common_prefix (rev (substring a alo i)) (rev (substring b blo j)) = 0).
      { destruct (Nat.eq_dec alo i) as [<- | Ni];
          [rewrite (substring_empty a (from := alo) (to := alo)) by lia; reflexivity|].
        destruct (Nat.eq_dec blo j) as [<- | Nj];
          [rewrite (substring_empty b (from := blo) (to := blo)) by lia;
           apply common_prefix_nil_r|].
        destruct (@substring_before a alo i ahi) as (x & -> & Hx); try lia.
        destruct (@substring_before b blo j bhi) as (y & -> & Hy); try lia.
        rewrite !rev_app_distr. cbn [rev app Difflib.common_prefix].
        destruct (N.eqb x y) eqn:E; [|reflexivity]. exfalso.
        specialize (Hmax (i - 1) (j - 1) ltac:(lia) ltac:(lia)).
        rewrite Hrl in Hmax. unfold rl in Hmax. rewrite Hx, Hy in Hmax.
        cbn [Difflib.common_prefix] in Hmax. rewrite E in Hmax.
        rewrite Hrl in Hmax. unfold rl in Hmax. lia. }
      rewrite F, B. rewrite !Nat.sub_0_r, Nat.add_0_r. reflexivity. }
  rewrite Hsame. split.
  - intros i j Hi Hj. rewrite <- Hrl. now apply Hmax.
  - destruct Hr as [Hr | (i & j & Hi & Hj & Hr & Hp & _)]; [now left|].
    right. exists i, j. rewrite Hrl in Hr, Hp. repeat split; try lia; assumption.
Qed.

(** The run of [u] and a string that starts with [u] goes on as long as the
    elements are kept, up to the end of [u]. *)
Lemma common_run_of_prefix (junk : N -> bool) (u w : jsstring) :
  Difflib.common_run junk u (u ++ w)
  = Nat.min (length u) (Difflib.common_run junk (u ++ w) (u ++ w)).
Proof.
  induction u as [|x u IH]; [reflexivity|].
  cbn [app Difflib.common_run length]. rewrite N.eqb_refl. cbn [andb].
  destruct (negb (junk x)); [rewrite IH|]; reflexivity.
Qed.

Lemma common_run_prefix_l (junk : N -> bool) (u v w : jsstring) :
  Difflib.common_run junk u v <= Difflib.common_run junk u (u ++ w).
Proof.
  revert v. induction u as [|x u IH]; intros [|y v]; cbn [app Difflib.common_run]; try lia.
  rewrite N.eqb_refl. cbn [andb].
  destruct (N.eqb x y) eqn:E; cbn [andb]; [|lia].
  apply N.eqb_eq in E. subst y.
  destruct (negb (junk x)); [specialize (IH v)|]; lia.
Qed.

Lemma substring_of_prefix (s post : jsstring) (i : nat) :
  i <= length s ->
  substring (s ++ post) i (length (s ++ post)) = substring s i (length s) ++ post.
Proof.
  intro H. rewrite !skipn_substring, skipn_app.
  replace (i - length s) with 0 by lia. reflexivity.
Qed.

(** When [b] starts with [a], the longest match is the whole of [a], however
    many elements of [b] are popular: the run the search finds starts at the
    same place in both, and grows to the whole of [a]. *)
Lemma longest_match_of_prefix (s post : jsstring) :
  Difflib.find_longest_match s (s ++ post) 0 (length s) 0 (length (s ++ post))
  = (0, 0, length s).
Proof.
  unfold Difflib.find_longest_match.
  set (b := s ++ post). set (junk := Difflib.popular b).
  set (n := length s). set (m := length b).
  assert (Hnm : n <= m) by (unfold n, m, b; rewrite length_app; lia).
  assert (Hhead : forall i, i <= n -> substring b 0 i = substring s 0 i).
  { intros i Hi. unfold substring, b. cbn [skipn]. rewrite Nat.sub_0_r, firstn_app.
    replace (i - length s) with 0 by (fold n; lia). cbn [firstn]. apply app_nil_r. }
  assert (Htail : forall i, i <= n -> substring b i m = substring s i n ++ post).
  { intros i Hi. now apply substring_of_prefix. }
  assert (Hgrow : forall i k, i + k <= n ->
             Difflib.extend s b 0 n 0 m (i, i, k) = (0, 0, n)).
  { intros i k Hik.
    unfold Difflib.extend, Difflib.block_a, Difflib.block_b, Difflib.block_size.
    cbn [fst snd]. rewrite (Hhead i) by lia. rewrite (Htail (i + k)) by lia.
    rewrite common_prefix_same, common_prefix_app, length_rev, !substring_length.
    fold n. f_equal; [f_equal|]; lia. }
  destruct (search_spec junk s b 0 n 0 m) as (_ & [Hr | (i & j & Hi & Hj & Hr & Hp & Hfirst)]);
    cbv zeta in *; rewrite Hr.
  - apply (Hgrow 0 0). lia.
  - set (k := Difflib.run_length junk s b n m i j) in *.
    pose proof (run_length_le junk s b n m i j) as (Lk & _). fold k in Lk.
    assert (Hii : k <= Difflib.run_length junk s b n m i i).
    { unfold k, Difflib.run_length. rewrite (Htail i) by lia. apply common_run_prefix_l. }
    assert (Hjj : j < i -> k <= Difflib.run_length junk s b n m j j).
    { intro Hlt. unfold Difflib.run_length. rewrite (Htail j) by lia.
      rewrite common_run_of_prefix, <- (Htail j) by lia.
      apply Nat.min_glb.
      - rewrite substring_length. lia.
      - apply common_run_self_r. }
    assert (i = j).
    { destruct (Nat.lt_trichotomy i j) as [Hlt | [Heq | Hgt]]; [|exact Heq|].
      - specialize (Hfirst i i ltac:(lia) ltac:(lia) (or_intror (conj eq_refl Hlt))).
        fold k in Hfirst. lia.
      - specialize (Hfirst j j ltac:(lia) ltac:(lia) (or_introl Hgt)).
        fold k in Hfirst. specialize (Hjj Hgt). lia. }
    subst j. apply Hgrow. lia.
Qed.

(** Of a string and itself, the longest match is the whole string. *)
Lemma longest_match_of_same (s : jsstring) :
  Difflib.find_longest_match s s 0 (length s) 0 (length s) = (0, 0, length s).
Proof.
  pose proof (longest_match_of_prefix s []) as H. now rewrite app_nil_r in H.
Qed.

(** When [a] occurs in [b], the longest match is the whole of [a]. *)
Lemma longest_match_of_substring (a pre post : jsstring) :
  a <> [] ->
  let b := pre ++ a ++ post in
  length b < 200 ->
  exists j, Difflib.find_longest_match a b 0 (length a) 0 (length b) = (0, j, length a)
            /\ substring b j (j + length a) = a.
Proof.
  intros Ha b Hshort.
  assert (La : 0 < length a) by (destruct a; [congruence | simpl; lia]).
  destruct (find_longest_match_spec a b 0 (length a) 0 (length b) Hshort) as (Hmax & Hr).
  cbv zeta in Hmax, Hr.
  assert (Hocc : Difflib.common_prefix (substring a 0 (length a))
                                       (substring b (length pre) (length b)) = length a).
  { rewrite substring_whole, skipn_substring.
    unfold b. rewrite skipn_app, Nat.sub_diag, skipn_all. simpl.
    apply common_prefix_app. }
  assert (Hlen : length pre < length b).
  { unfold b. rewrite !length_app. lia. }
  pose proof (Hmax 0 (length pre) ltac:(lia) ltac:(lia)) as Hge.
  rewrite Hocc in Hge.
  destruct Hr as [Hr | (i & j & Hi & Hj & Hr & Hpos)].
  - rewrite Hr in Hge. unfold Difflib.block_size in Hge. simpl in Hge. lia.
  - rewrite Hr in Hge. unfold Difflib.block_size in Hge. simpl in Hge.
    pose proof (common_prefix_le (substring a i (length a)) (substring b j (length b))) as Hle.
    rewrite substring_length in Hle.
    assert (i = 0) by lia. subst i.
    assert (Hk : Difflib.common_prefix (substring a 0 (length a)) (substring b j (length b))
                 = length a) by lia.
    exists j. split.
    + rewrite Hr, Hk. reflexivity.
    + rewrite substring_whole, skipn_substring in Hk.
      apply common_prefix_full in Hk.
      unfold substring. replace (j + length a - j) with (length a) by lia. exact Hk.
Qed.

(** One match that covers the whole of [a] is the only block. *)
Lemma matching_blocks_of_full_match (a b : jsstring) (j : nat) :
  a <> [] ->
  Difflib.find_longest_match a b 0 (length a) 0 (length b) = (0, j, length a) ->
  Difflib.getMatchingBlocks a b = [(0, j, length a); (length a, length b, 0)].
Proof.
  intros Ha Hm.
  assert (La : 0 < length a) by (destruct a; [congruence | simpl; lia]).
  unfold Difflib.getMatchingBlocks. cbn [Difflib.blocks_from].
  rewrite Hm. unfold Difflib.block_size, Difflib.block_a, Difflib.block_b. cbn [fst snd].
  destruct (length a =? 0) eqn:E; [apply Nat.eqb_eq in E; lia|].
  rewrite Nat.ltb_irrefl. cbn [andb].
  replace (0 + length a <? length a) with false by (symmetry; apply Nat.ltb_ge; lia).
  cbn [andb app Difflib.sort_blocks fold_right Difflib.insert_block Difflib.collapse].
  unfold Difflib.block_size, Difflib.block_a, Difflib.block_b. cbn [fst snd].
  cbn [Nat.add Nat.eqb andb].
  destruct j as [|j]; cbn [Nat.eqb Difflib.collapse].
  - unfold Difflib.block_size, Difflib.block_a, Difflib.block_b. cbn [fst snd Nat.add].
    rewrite E. reflexivity.
  - cbn [app]. unfold Difflib.block_size. cbn [fst snd]. rewrite E. reflexivity.
Qed.

Lemma matching_blocks_of_substring (a pre post : jsstring) :
  a <> [] ->
  let b := pre ++ a ++ post in
  length b < 200 ->
  exists j, Difflib.getMatchingBlocks a b = [(0, j, length a); (length a, length b, 0)]
            /\ substring b j (j + length a) = a.
Proof.
  intros Ha b Hshort.
  destruct (longest_match_of_substring pre post Ha Hshort) as (j & Hm & Hs).
  fold b in Hm, Hs.
  exists j. split; [|exact Hs]. now apply matching_blocks_of_full_match.
Qed.

Lemma matching_blocks_of_prefix (s post : jsstring) :
  s <> [] ->
  Difflib.getMatchingBlocks s (s ++ post)
  = [(0, 0, length s); (length s, length (s ++ post), 0)].
Proof.
  intro Hs. apply matching_blocks_of_full_match; [exact Hs|]. apply longest_match_of_prefix.
Qed.

Lemma matching_blocks_of_same (s : jsstring) :
  s <> [] ->
  Difflib.getMatchingBlocks s s = [(0, 0, length s); (length s, length s, 0)].
Proof.
  intro Hs. apply matching_blocks_of_full_match; [exact Hs|]. apply longest_match_of_same.
Qed.

(** ** [_ratio] *)

Lemma validate_string (s : jsstring) : Utils.validate (VString s) = true <-> s <> [].
Proof. destruct s; simpl; split; congruence. Qed.

Lemma validate_inv (v : jsval) :
  Utils.validate v = true -> exists c s, v = VString (c :: s).
Proof.
  destruct v as [[|c s]| |]; simpl; try discriminate. intros _. now exists c, s.
Qed.

(** [_ratio] on two non-empty strings, by algorithm and mode. *)
Lemma _ratio_strings (e : Env.t) (s1 s2 : jsstring) (o : Opt.t) :
  s1 <> [] -> s2 <> [] ->
  _ratio e (VString s1) (VString s2) o =
  if difflib_selected o then Math_round (mul (of_Z 100) (Difflib.ratio s1 s2))
  else if Opt.astral o then
    let n1 := if Opt.normalize o then normalized e s1 else s1 in
    let n2 := if Opt.normalize o then normalized e s2 else s2 in
    percent (length (Lodash._toArray n1) + length (Lodash._toArray n2))
            (Leven.edit_distance (Leven.symbol_same e o) (ratio_subcost o)
                                 (Lodash._toArray n1) (Lodash._toArray n2))
  else
    percent (length s1 + length s2)
            (Leven.edit_distance (Leven.unit_same e o) (ratio_subcost o) s1 s2).
Proof.
  intros H1 H2. destruct s1 as [|c1 s1]; [congruence|]. destruct s2 as [|c2 s2]; [congruence|].
  unfold _ratio, difflib_selected, ratio_subcost. cbn [Utils.validate negb].
  destruct (Opt.ratio_alg o) as [alg|]; [destruct (String.eqb alg "difflib")|];
    try reflexivity;
    destruct (Opt.subcost o) as [c|] eqn:Ec; cbn [Opt.astral Opt.set_subcost Opt.normalize];
    destruct (Opt.astral o); try reflexivity;
    unfold Leven._leven, Leven._iLeven, Leven.cost; cbn [Opt.subcost Opt.set_subcost];
    try rewrite Ec; reflexivity.
Qed.

Lemma _ratio_invalid_l (e : Env.t) (a b : jsval) (o : Opt.t) :
  Utils.validate a = false -> _ratio e a b o = of_Z 0.
Proof. intro H. unfold _ratio. now rewrite H. Qed.

Lemma _ratio_invalid_r (e : Env.t) (a b : jsval) (o : Opt.t) :
  Utils.validate b = false -> _ratio e a b o = of_Z 0.
Proof. intro H. unfold _ratio. rewrite H. now destruct (Utils.validate a). Qed.

Lemma _ratio_set_full_process (e : Env.t) (a b : jsval) (o : Opt.t) (v : option bool) :
  _ratio e a b (Opt.set_full_process v o) = _ratio e a b o.
Proof.
  destruct (Utils.validate a) eqn:Va; [|now rewrite !_ratio_invalid_l].
  destruct (Utils.validate b) eqn:Vb; [|now rewrite !_ratio_invalid_r].
  apply validate_inv in Va, Vb. destruct Va as (c1 & s1 & ->), Vb as (c2 & s2 & ->).
  rewrite !_ratio_strings by congruence. reflexivity.
Qed.

Lemma toArray_nonempty (s : jsstring) : s <> [] -> 0 < length (Lodash._toArray s).
Proof.
  destruct s as [|c [|d s]]; [congruence | simpl; lia |].
  intros _. simpl.
  destruct (Lodash.is_high_surrogate c && Lodash.is_low_surrogate d); simpl; lia.
Qed.

Lemma normalized_nonempty (e : Env.t) (s : jsstring) :
  normalize_keeps_text e -> s <> [] -> normalized e s <> [].
Proof.
  intros H Hs. unfold normalized. destruct (Env.normalize e) as [f|] eqn:E; [|exact Hs].
  now apply (H f E).
Qed.

Lemma nonempty_length (s : jsstring) : s <> [] -> 0 < length s.
Proof. destruct s; [congruence | simpl; lia]. Qed.

Lemma percent_integer (n : nat) (d : Z) : 0 < n -> exists z, percent n d = of_Z z.
Proof. intro H. rewrite (percent_value _ H). eexists; reflexivity. Qed.

Lemma difflib_ratio_value (a b : jsstring) :
  0 < length a + length b ->
  Difflib.ratio a b =
  Num (binary64 (binary64 (inject_Z 2 * inject_Z (Z.of_nat (Difflib.matches a b)))
                 / inject_Z (Z.of_nat (length a + length b)))).
Proof.
  intro H. unfold Difflib.ratio.
  destruct (length a + length b =? 0) eqn:E; [apply Nat.eqb_eq in E; lia|].
  unfold of_nat, of_Z. cbn [mul div]. now rewrite (inject_nat_nonzero H).
Qed.

Lemma _ratio_integer (e : Env.t) (a b : jsval) (o : Opt.t) :
  (Opt.astral o = true -> Opt.normalize o = true -> normalize_keeps_text e) ->
  exists z, _ratio e a b o = of_Z z.
Proof.
  intro He.
  destruct (Utils.validate a) eqn:Va; [|exists 0%Z; now apply _ratio_invalid_l].
  destruct (Utils.validate b) eqn:Vb; [|exists 0%Z; now apply _ratio_invalid_r].
  apply validate_inv in Va, Vb. destruct Va as (c1 & s1 & ->), Vb as (c2 & s2 & ->).
  rewrite _ratio_strings by congruence.
  destruct (difflib_selected o).
  - rewrite difflib_ratio_value by (simpl; lia). eexists. reflexivity.
  - destruct (Opt.astral o) eqn:Ea.
    + cbv zeta. apply percent_integer.
      destruct (Opt.normalize o) eqn:En.
      * assert (N1 : c1 :: s1 <> []) by congruence.
        pose proof (toArray_nonempty (normalized_nonempty (He eq_refl eq_refl) N1)). lia.
      * assert (N1 : c1 :: s1 <> []) by congruence.
        pose proof (toArray_nonempty N1). lia.
    + apply percent_integer. simpl. lia.
Qed.

Lemma unit_same_refl (e : Env.t) (o : Opt.t) :
  (Opt.useCollator o = true -> collator_reflexive e) ->
  forall x, Leven.unit_same e o x x = true.
Proof.
  intros H x. unfold Leven.unit_same, Leven.symbol_same.
  destruct (Env.collator e) as [c|] eqn:Ec; [|apply eqb_refl].
  destruct (Opt.useCollator o); [|apply eqb_refl].
  now apply (H eq_refl c Ec).
Qed.

Lemma symbol_same_refl (e : Env.t) (o : Opt.t) :
  (Opt.useCollator o = true -> collator_reflexive e) ->
  forall x, Leven.symbol_same e o x x = true.
Proof.
  intros H x. unfold Leven.symbol_same.
  destruct (Env.collator e) as [c|] eqn:Ec; [|apply eqb_refl].
  destruct (Opt.useCollator o); [|apply eqb_refl].
  now apply (H eq_refl c Ec).
Qed.

Lemma ratio_subcost_nonneg (o : Opt.t) : subcost_nonneg o -> (0 <= ratio_subcost o)%Z.
Proof.
  unfold subcost_nonneg, ratio_subcost. destruct (Opt.subcost o); [tauto | lia].
Qed.

Lemma matches_of_substring (a pre post : jsstring) :
  a <> [] -> length (pre ++ a ++ post) < 200 ->
  Difflib.matches a (pre ++ a ++ post) = length a.
Proof.
  intros Ha Hshort. unfold Difflib.matches.
  destruct (matching_blocks_of_substring pre post Ha Hshort) as (j & -> & _).
  simpl. unfold Difflib.block_size. simpl. lia.
Qed.

Lemma matches_of_same (s : jsstring) : s <> [] -> Difflib.matches s s = length s.
Proof.
  intro Hs. unfold Difflib.matches. rewrite (matching_blocks_of_same Hs).
  simpl. unfold Difflib.block_size. simpl. lia.
Qed.

Lemma round_percent_of_ratio (m n : nat) :
  0 < n -> m <= n ->
  exists z, Math_round (mul (of_Z 100)
                            (Num (binary64 (binary64 (inject_Z 2 * inject_Z (Z.of_nat m))
                                            / inject_Z (Z.of_nat (m + n)))))) = of_Z z
            /\ (z <= 100)%Z /\ (m = n -> z = 100%Z).
Proof.
  intros Hn Hm. cbn [mul Math_round of_Z]. eexists. split; [reflexivity|].
  change (inject_Z 100) with 100%Q.
  assert (P : (0 < inject_Z (Z.of_nat (m + n)))%Q) by (apply inject_nat_pos; lia).
  assert (X : (0 <= inject_Z 2 * inject_Z (Z.of_nat m))%Q).
  { rewrite <- inject_Z_mult. change 0%Q with (inject_Z 0). rewrite <- Zle_Qle. lia. }
  destruct (@rounded_quotient _ _ X P) as (_ & Q1 & Q2).
  destruct (round_100_times
              (binary64 (binary64 (inject_Z 2 * inject_Z (Z.of_nat m))
                         / inject_Z (Z.of_nat (m + n))))) as (_ & R1 & R2).
  split.
  - apply R1, Q1. rewrite <- inject_Z_mult, <- Zle_Qle. lia.
  - intros ->.
    assert (E : (inject_Z 2 * inject_Z (Z.of_nat n) == inject_Z (Z.of_nat (n + n)))%Q).
    { rewrite <- inject_Z_mult. unfold Qeq, inject_Z. cbn [Qnum Qden]. lia. }
    specialize (R1 (Q1 ltac:(rewrite E; apply Qle_refl))). specialize (R2 (Q2 E)). lia.
Qed.

(** A non-empty string compared with itself scores 100. *)
Lemma _ratio_reflexive (e : Env.t) (s : jsstring) (o : Opt.t) :
  s <> [] ->
  subcost_nonneg o ->
  (Opt.useCollator o = true -> collator_reflexive e) ->
  (Opt.astral o = true -> Opt.normalize o = true -> normalize_keeps_text e) ->
  _ratio e (VString s) (VString s) o = of_Z 100.
Proof.
  intros Hs Hc Hcol Hnorm. rewrite _ratio_strings by assumption.
  pose proof (@ratio_subcost_nonneg o Hc) as Hcost.
  destruct (difflib_selected o).
  - rewrite difflib_ratio_value by (pose proof (nonempty_length Hs); lia).
    rewrite (matches_of_same Hs).
    destruct (@round_percent_of_ratio (length s) (length s)) as (z & Hz & _ & H100);
      [now apply nonempty_length | lia |].
    rewrite Hz, H100; reflexivity.
  - destruct (Opt.astral o) eqn:Ea.
    + cbv zeta. rewrite edit_distance_refl by (assumption || now apply symbol_same_refl).
      apply percent_exact.
      destruct (Opt.normalize o) eqn:En.
      * pose proof (@toArray_nonempty (normalized e s)
                      (normalized_nonempty (Hnorm eq_refl eq_refl) Hs)). lia.
      * pose proof (toArray_nonempty Hs). lia.
    + rewrite edit_distance_refl by (assumption || now apply unit_same_refl).
      apply percent_exact. pose proof (nonempty_length Hs). lia.
Qed.

(** ** The defaults leave the scoring members alone *)

Ltac clone_cases o :=
  unfold Utils.clone_and_set_option_defaults;
  destruct (Opt.full_process o) as [[|]|];
  cbn [Opt.force_ascii Opt.set_full_process];
  destruct (Opt.force_ascii o) as [[|]|].

Lemma clone_difflib_selected (o : Opt.t) :
  difflib_selected (Utils.clone_and_set_option_defaults o) = difflib_selected o.
Proof. clone_cases o; reflexivity. Qed.

Lemma clone_subcost (o : Opt.t) :
  Opt.subcost (Utils.clone_and_set_option_defaults o) = Opt.subcost o.
Proof. clone_cases o; reflexivity. Qed.

Lemma clone_astral (o : Opt.t) :
  Opt.astral (Utils.clone_and_set_option_defaults o) = Opt.astral o.
Proof. clone_cases o; reflexivity. Qed.

Lemma clone_normalize (o : Opt.t) :
  Opt.normalize (Utils.clone_and_set_option_defaults o) = Opt.normalize o.
Proof. clone_cases o; reflexivity. Qed.

Lemma clone_useCollator (o : Opt.t) :
  Opt.useCollator (Utils.clone_and_set_option_defaults o) = Opt.useCollator o.
Proof. clone_cases o; reflexivity. Qed.

Lemma clone_partial (o : Opt.t) :
  Opt.partial (Utils.clone_and_set_option_defaults o) = Opt.partial o.
Proof. clone_cases o; reflexivity. Qed.

Lemma clone_trySimple (o : Opt.t) :
  Opt.trySimple (Utils.clone_and_set_option_defaults o) = Opt.trySimple o.
Proof. clone_cases o; reflexivity. Qed.

Lemma clone_tokens (o : Opt.t) :
  Opt.tokens (Utils.clone_and_set_option_defaults o) = Opt.tokens o.
Proof. clone_cases o; reflexivity. Qed.

Lemma clone_subcost_nonneg (o : Opt.t) :
  subcost_nonneg o -> subcost_nonneg (Utils.clone_and_set_option_defaults o).
Proof. unfold subcost_nonneg. now rewrite clone_subcost. Qed.

Lemma _ratio_clone (e : Env.t) (a b : jsval) (o : Opt.t) :
  _ratio e a b (Utils.clone_and_set_option_defaults o) = _ratio e a b o.
Proof.
  destruct (Utils.validate a) eqn:Va; [|now rewrite !_ratio_invalid_l].
  destruct (Utils.validate b) eqn:Vb; [|now rewrite !_ratio_invalid_r].
  apply validate_inv in Va, Vb. destruct Va as (c1 & s1 & ->), Vb as (c2 & s2 & ->).
  rewrite !_ratio_strings by congruence.
  clone_cases o; reflexivity.
Qed.

(** [QRatio]: the two validations, then [_ratio] under the caller's
    options. *)
Lemma QRatio_unfold (e : Env.t) (a b : jsval) (o : Opt.t) :
  let o' := Utils.clone_and_set_option_defaults o in
  QRatio e a b o =
  if Utils.validate (preprocessed e o' a) && Utils.validate (preprocessed e o' b)
  then _ratio e (preprocessed e o' a) (preprocessed e o' b) o
  else of_Z 0.
Proof.
  intro o'. unfold QRatio. fold o'.
  destruct (Utils.validate (preprocessed e o' a)); [|reflexivity].
  destruct (Utils.validate (preprocessed e o' b)); [|reflexivity].
  apply _ratio_clone.
Qed.

Lemma preprocessed_default (e : Env.t) (s : jsstring) :
  preprocessed e (Utils.clone_and_set_option_defaults Opt.empty) (VString s)
  = VString (Env.full_process e s true).
Proof. reflexivity. Qed.

(** C4, amended.  Under default options, a string whose cleaned-up form is
    not empty has ratio 100 with itself, and every string has distance 0
    to itself.  (A string that cleans up to the empty string has ratio 0
    with itself: the validation returns before any computation.) *)
Theorem ratio_and_distance_of_equal_strings (e : Env.t) (s : jsstring) :
  (Env.full_process e s true <> [] ->
   QRatio e (VString s) (VString s) Opt.empty = of_Z 100)
  /\ distance e s s Opt.empty = of_Z 0.
Proof.
  split.
  - intro Hs. rewrite QRatio_unfold, preprocessed_default.
    destruct (Env.full_process e s true) as [|c t] eqn:E; [congruence|].
    cbn [Utils.validate andb].
    apply _ratio_reflexive; [congruence | exact I | discriminate | discriminate].
  - unfold distance. cbn.
    unfold Leven._leven. rewrite edit_distance_refl; [reflexivity | cbn; lia |].
    intro x. apply unit_same_refl. discriminate.
Qed.

(** ** [_partial_ratio] *)

Lemma partial_loop_spec (e : Env.t) (shorter longer : jsstring) (o : Opt.t)
      (blocks : list Difflib.block) (scores : list jsnum) :
  let rs := map (fun x => _ratio e (VString shorter)
                                 (VString (window shorter longer x)) o) blocks in
  partial_loop e shorter longer o blocks scores =
  if existsb exceeds_99_5 rs then of_Z 100 else Math_max (scores ++ rs).
Proof.
  revert scores. induction blocks as [|x blocks IH]; intro scores; cbn [map existsb partial_loop].
  - now rewrite app_nil_r.
  - fold (window shorter longer x). unfold exceeds_99_5 at 1.
    destruct (gtb (_ratio e (VString shorter) (VString (window shorter longer x)) o)
                  (Num (995 # 10))); cbn [orb]; [reflexivity|].
    rewrite IH. cbv zeta. now rewrite <- app_assoc.
Qed.

Lemma _partial_ratio_strings (e : Env.t) (s1 s2 : jsstring) (o : Opt.t) :
  s1 <> [] -> s2 <> [] ->
  let shorter := if length s1 <=? length s2 then s1 else s2 in
  let longer := if length s1 <=? length s2 then s2 else s1 in
  _partial_ratio e (VString s1) (VString s2) o =
  if existsb exceeds_99_5 (window_ratios e shorter longer o) then of_Z 100
  else Math_max (window_ratios e shorter longer o).
Proof.
  intros H1 H2 shorter longer.
  destruct s1 as [|c1 s1]; [congruence|]. destruct s2 as [|c2 s2]; [congruence|].
  unfold _partial_ratio. cbn [Utils.validate negb].
  fold shorter longer. rewrite partial_loop_spec. reflexivity.
Qed.

Lemma _partial_ratio_invalid_l (e : Env.t) (a b : jsval) (o : Opt.t) :
  Utils.validate a = false -> _partial_ratio e a b o = of_Z 0.
Proof. intro H. unfold _partial_ratio. now rewrite H. Qed.

Lemma _partial_ratio_invalid_r (e : Env.t) (a b : jsval) (o : Opt.t) :
  Utils.validate b = false -> _partial_ratio e a b o = of_Z 0.
Proof. intro H. unfold _partial_ratio. rewrite H. now destruct (Utils.validate a). Qed.

Lemma window_ratios_clone (e : Env.t) (shorter longer : jsstring) (o : Opt.t) :
  window_ratios e shorter longer (Utils.clone_and_set_option_defaults o)
  = window_ratios e shorter longer o.
Proof.
  unfold window_ratios. apply map_ext. intro x. apply _ratio_clone.
Qed.

Lemma _partial_ratio_clone (e : Env.t) (a b : jsval) (o : Opt.t) :
  _partial_ratio e a b (Utils.clone_and_set_option_defaults o) = _partial_ratio e a b o.
Proof.
  destruct (Utils.validate a) eqn:Va; [|now rewrite !_partial_ratio_invalid_l].
  destruct (Utils.validate b) eqn:Vb; [|now rewrite !_partial_ratio_invalid_r].
  apply validate_inv in Va, Vb. destruct Va as (c1 & s1 & ->), Vb as (c2 & s2 & ->).
  rewrite !_partial_ratio_strings by congruence.
  now rewrite window_ratios_clone.
Qed.

Lemma partial_ratio_unfold (e : Env.t) (a b : jsval) (o : Opt.t) :
  partial_ratio e a b o =
  if Utils.validate (prepared e o a) && Utils.validate (prepared e o b)
  then _partial_ratio e (prepared e o a) (prepared e o b) o
  else of_Z 0.
Proof.
  unfold partial_ratio, prepared.
  destruct (Utils.validate (preprocessed e _ a)); [|reflexivity].
  destruct (Utils.validate (preprocessed e _ b)); [|reflexivity].
  apply _partial_ratio_clone.
Qed.

(** C2, amended.  For two inputs that are non-empty strings once prepared,
    [partial_ratio] takes the first as [shorter] unless it is strictly
    longer, computes the matching blocks of [shorter] and [longer], and
    returns 100 if the ratio of [shorter] with some window exceeds 99.5, and
    the maximum of these ratios otherwise.  The window of a block starts at
    max(0, offset in longer - offset in shorter) and is the substring of
    [longer] up to that start plus the length of [shorter]: it is cut at
    the end of [longer], so its length is the smaller of the length of
    [shorter] and the number of code units from its start to the end of
    [longer]. *)
Theorem partial_ratio_over_windows (e : Env.t) (a b : jsval) (o : Opt.t)
        (s1 s2 : jsstring) :
  prepared e o a = VString s1 -> s1 <> [] ->
  prepared e o b = VString s2 -> s2 <> [] ->
  let shorter := if length s1 <=? length s2 then s1 else s2 in
  let longer := if length s1 <=? length s2 then s2 else s1 in
  partial_ratio e a b o =
    (if existsb exceeds_99_5 (window_ratios e shorter longer o) then of_Z 100
     else Math_max (window_ratios e shorter longer o))
  /\ forall x, In x (Difflib.getMatchingBlocks shorter longer) ->
       window shorter longer x
       = substring longer (Nat.max 0 (Difflib.block_b x - Difflib.block_a x))
                   (Nat.max 0 (Difflib.block_b x - Difflib.block_a x) + length shorter)
       /\ length (window shorter longer x)
          = Nat.min (length shorter)
                    (length longer - (Difflib.block_b x - Difflib.block_a x)).
Proof.
  intros Ha H1 Hb H2 shorter longer. split.
  - rewrite partial_ratio_unfold, Ha, Hb.
    rewrite (proj2 (validate_string s1) H1), (proj2 (validate_string s2) H2).
    cbn [andb]. now apply _partial_ratio_strings.
  - intros x _.
    assert (Hls : long_start x = Difflib.block_b x - Difflib.block_a x).
    { unfold long_start.
      destruct (0 <? Z.of_nat (Difflib.block_b x) - Z.of_nat (Difflib.block_a x))%Z eqn:E.
      - apply Z.ltb_lt in E. lia.
      - apply Z.ltb_ge in E. lia. }
    unfold window. rewrite Hls. cbn [Nat.max]. split; [reflexivity|].
    rewrite substring_length. f_equal. lia.
Qed.

(** C10, amended.  [partial_ratio] is symmetric in its two arguments
    whenever the two prepared inputs differ in length: the computation then
    depends only on which one is shorter. *)
Theorem partial_ratio_symmetric_on_unequal_lengths (e : Env.t) (a b : jsval) (o : Opt.t) :
  strlen (prepared e o a) <> strlen (prepared e o b) ->
  partial_ratio e a b o = partial_ratio e b a o.
Proof.
  intro Hlen. rewrite !partial_ratio_unfold.
  destruct (Utils.validate (prepared e o a)) eqn:Va;
    destruct (Utils.validate (prepared e o b)) eqn:Vb; cbn [andb]; try reflexivity.
  apply validate_inv in Va, Vb. destruct Va as (c1 & s1 & Ea), Vb as (c2 & s2 & Eb).
  rewrite Ea, Eb in Hlen |- *. cbn [strlen] in Hlen.
  rewrite !_partial_ratio_strings by congruence.
  destruct (length (c1 :: s1) <=? length (c2 :: s2)) eqn:E1;
    destruct (length (c2 :: s2) <=? length (c1 :: s1)) eqn:E2; try reflexivity.
  - apply Nat.leb_le in E1, E2. lia.
  - apply Nat.leb_gt in E1, E2. lia.
Qed.

(** ** Containment *)

Lemma geb_of_Z (x y : Z) : (y <= x)%Z -> geb (of_Z x) (of_Z y) = true.
Proof.
  intro H. unfold geb, of_Z. apply Qle_bool_iff. now rewrite <- Zle_Qle.
Qed.

Lemma _ratio_le_100_of_substring (e : Env.t) (s pre post : jsstring) (o : Opt.t) :
  s <> [] ->
  length (pre ++ s ++ post) < 200 ->
  subcost_nonneg o ->
  (Opt.astral o = true -> Opt.normalize o = true -> normalize_keeps_text e) ->
  exists z, _ratio e (VString s) (VString (pre ++ s ++ post)) o = of_Z z /\ (z <= 100)%Z.
Proof.
  intros Hs Hshort Hc Hnorm.
  assert (Hb : pre ++ s ++ post <> []).
  { intro E. apply app_eq_nil in E. destruct E as [_ E]. apply app_eq_nil in E. tauto. }
  pose proof (nonempty_length Hs) as Ls. pose proof (nonempty_length Hb) as Lb.
  pose proof (@ratio_subcost_nonneg o Hc) as Hcost.
  rewrite _ratio_strings by assumption.
  destruct (difflib_selected o).
  - rewrite difflib_ratio_value by lia. rewrite matches_of_substring by assumption.
    destruct (@round_percent_of_ratio (length s) (length (pre ++ s ++ post)))
      as (z & Hz & H100 & _); [lia | rewrite !length_app; lia |].
    exists z. now split.
  - destruct (Opt.astral o) eqn:Ea.
    + cbv zeta. apply percent_le_100; [|now apply edit_distance_nonneg].
      destruct (Opt.normalize o) eqn:En.
      * pose proof (toArray_nonempty (normalized_nonempty (Hnorm eq_refl eq_refl) Hs)). lia.
      * pose proof (toArray_nonempty Hs). lia.
    + apply percent_le_100; [lia | now apply edit_distance_nonneg].
Qed.

Lemma window_ratios_of_substring (e : Env.t) (s pre post : jsstring) (o : Opt.t) :
  s <> [] ->
  length (pre ++ s ++ post) < 200 ->
  subcost_nonneg o ->
  (Opt.useCollator o = true -> collator_reflexive e) ->
  (Opt.astral o = true -> Opt.normalize o = true -> normalize_keeps_text e) ->
  exists rest, window_ratios e s (pre ++ s ++ post) o = of_Z 100 :: rest.
Proof.
  intros Hs Hshort Hc Hcol Hnorm. unfold window_ratios.
  destruct (matching_blocks_of_substring pre post Hs Hshort) as (j & -> & Hsub).
  cbn [map]. eexists. f_equal.
  assert (Hw : window s (pre ++ s ++ post) (0, j, length s) = s).
  { unfold window, long_start, Difflib.block_a, Difflib.block_b. cbn [fst snd].
    destruct (0 <? Z.of_nat j - Z.of_nat 0)%Z eqn:E.
    - replace (Z.to_nat (Z.of_nat j - Z.of_nat 0)) with j by lia. exact Hsub.
    - apply Z.ltb_ge in E. assert (j = 0) by lia. subst j. exact Hsub. }
  rewrite Hw. now apply _ratio_reflexive.
Qed.

(** A string against one that starts with it: the first window is the
    string, at any length. *)
Lemma window_ratios_of_prefix (e : Env.t) (s post : jsstring) (o : Opt.t) :
  s <> [] ->
  subcost_nonneg o ->
  (Opt.useCollator o = true -> collator_reflexive e) ->
  (Opt.astral o = true -> Opt.normalize o = true -> normalize_keeps_text e) ->
  exists rest, window_ratios e s (s ++ post) o = of_Z 100 :: rest.
Proof.
  intros Hs Hc Hcol Hnorm. unfold window_ratios.
  rewrite (matching_blocks_of_prefix post Hs).
  cbn [map]. eexists. f_equal.
  assert (Hw : window s (s ++ post) (0, 0, length s) = s).
  { unfold window, long_start, Difflib.block_a, Difflib.block_b. cbn [fst snd].
    assert (Hsub : substring (s ++ post) 0 (0 + length s) = s).
    { unfold substring. cbn [skipn Nat.add]. rewrite Nat.sub_0_r, firstn_app, Nat.sub_diag.
      cbn [firstn]. now rewrite firstn_all, app_nil_r. }
    destruct (0 <? Z.of_nat 0 - Z.of_nat 0)%Z; exact Hsub. }
  rewrite Hw. now apply _ratio_reflexive.
Qed.

(** A string against itself: the first window is the string, at any length. *)
Lemma window_ratios_of_same (e : Env.t) (s : jsstring) (o : Opt.t) :
  s <> [] ->
  subcost_nonneg o ->
  (Opt.useCollator o = true -> collator_reflexive e) ->
  (Opt.astral o = true -> Opt.normalize o = true -> normalize_keeps_text e) ->
  exists rest, window_ratios e s s o = of_Z 100 :: rest.
Proof.
  intros Hs Hc Hcol Hnorm. unfold window_ratios.
  rewrite (matching_blocks_of_same Hs).
  cbn [map]. eexists. f_equal.
  assert (Hw : window s s (0, 0, length s) = s).
  { unfold window, long_start, Difflib.block_a, Difflib.block_b. cbn [fst snd].
    destruct (0 <? Z.of_nat 0 - Z.of_nat 0)%Z; apply substring_whole. }
  rewrite Hw. now apply _ratio_reflexive.
Qed.

(** C8, amended.  When the prepared first input is a substring of the
    prepared second one, and the second one has fewer than 200 code units,
    [partial_ratio] is at least [ratio] (QRatio), for every option bag whose
    substitution cost, if given, is not negative; the collator is taken to
    be reflexive and normalisation to keep a non-empty text non-empty.  (From
    200 code units on the matcher leaves the popular elements of the longer
    input out of its search, and the window that holds the shorter input may
    be missed.) *)
Theorem partial_ratio_ge_ratio_of_substring (e : Env.t) (a b : jsval) (o : Opt.t)
        (s pre post : jsstring) :
  collator_reflexive e ->
  normalize_keeps_text e ->
  subcost_nonneg o ->
  prepared e o a = VString s ->
  prepared e o b = VString (pre ++ s ++ post) ->
  length (pre ++ s ++ post) < 200 ->
  geb (partial_ratio e a b o) (QRatio e a b o) = true.
Proof.
  intros Hcol Hnorm Hc Ha Hb Hshort.
  rewrite partial_ratio_unfold, QRatio_unfold. cbv zeta. fold (prepared e o a) (prepared e o b).
  rewrite Ha, Hb.
  destruct s as [|c s]; [reflexivity|].
  assert (Hs : c :: s <> []) by congruence.
  assert (Hlong : pre ++ (c :: s) ++ post <> []).
  { intro E. apply app_eq_nil in E. destruct E as [_ E]. discriminate. }
  rewrite (proj2 (validate_string _) Hs), (proj2 (validate_string _) Hlong). cbn [andb].
  rewrite _partial_ratio_strings by assumption.
  assert (Hle : (length (c :: s) <=? length (pre ++ (c :: s) ++ post)) = true).
  { apply Nat.leb_le. rewrite !length_app. lia. }
  rewrite Hle.
  destruct (@window_ratios_of_substring e (c :: s) pre post o Hs Hshort Hc (fun _ => Hcol)
              (fun _ _ => Hnorm)) as (rest & ->).
  cbn [existsb]. change (exceeds_99_5 (of_Z 100)) with true. cbn [orb].
  destruct (@_ratio_le_100_of_substring e (c :: s) pre post o Hs Hshort Hc
              (fun _ _ => Hnorm)) as (z & -> & Hz).
  now apply geb_of_Z.
Qed.

(** ** No scorer yields [NaN] *)

Lemma number_of_Z (z : Z) : number (of_Z z).
Proof. discriminate. Qed.

Lemma max2_number (a b : jsnum) : number a -> number b -> number (max2 a b).
Proof.
  unfold number. destruct a, b; simpl; try congruence.
  destruct (Qle_bool q q0); congruence.
Qed.

Lemma Math_max_number (l : list jsnum) : Forall number l -> number (Math_max l).
Proof.
  induction 1 as [|x l Hx _ IH]; simpl.
  - discriminate.
  - now apply max2_number.
Qed.

Lemma mul_scale_number (x : jsnum) (q : Q) :
  number x -> Qeq_bool q 0 = false -> number (mul x (Num q)).
Proof.
  unfold number. intros Hx Hq. destruct x; simpl; try congruence; rewrite Hq;
    destruct (Qltb _ _); discriminate.
Qed.

Section Numbers.

Variable e : Env.t.
Hypothesis keeps : normalize_keeps_text e.

Lemma _ratio_number (a b : jsval) (o : Opt.t) : number (_ratio e a b o).
Proof.
  destruct (@_ratio_integer e a b o (fun _ _ => keeps)) as (z & ->). apply number_of_Z.
Qed.

Lemma window_ratios_number (shorter longer : jsstring) (o : Opt.t) :
  Forall number (window_ratios e shorter longer o).
Proof.
  unfold window_ratios. apply Forall_map, Forall_forall. intros x _. apply _ratio_number.
Qed.

Lemma _partial_ratio_number (a b : jsval) (o : Opt.t) : number (_partial_ratio e a b o).
Proof.
  destruct (Utils.validate a) eqn:Va;
    [|rewrite _partial_ratio_invalid_l by assumption; apply number_of_Z].
  destruct (Utils.validate b) eqn:Vb;
    [|rewrite _partial_ratio_invalid_r by assumption; apply number_of_Z].
  apply validate_inv in Va, Vb. destruct Va as (c1 & s1 & ->), Vb as (c2 & s2 & ->).
  rewrite _partial_ratio_strings by congruence.
  destruct (existsb _ _); [apply number_of_Z|].
  apply Math_max_number, window_ratios_number.
Qed.

Lemma _token_set_number (a b : jsval) (o : Opt.t) : number (_token_set e a b o).
Proof.
  unfold _token_set. apply Math_max_number.
  destruct (Opt.partial o); destruct (Opt.trySimple o); cbn [app];
    repeat (apply Forall_cons; [apply _ratio_number || apply _partial_ratio_number|]);
    apply Forall_nil.
Qed.

Lemma token_sort_ratio_number (a b : jsval) (o : Opt.t) : number (token_sort_ratio e a b o).
Proof.
  unfold token_sort_ratio.
  destruct (negb (Utils.validate _)); [apply number_of_Z|].
  destruct (negb (Utils.validate _)); [apply number_of_Z|].
  apply _ratio_number.
Qed.

Lemma token_set_ratio_number (a b : jsval) (o : Opt.t) : number (token_set_ratio e a b o).
Proof.
  unfold token_set_ratio.
  destruct (negb (Utils.validate _)); [apply number_of_Z|].
  destruct (negb (Utils.validate _)); [apply number_of_Z|].
  apply _token_set_number.
Qed.

Lemma partial_token_sort_ratio_number (a b : jsval) (o : Opt.t) :
  number (partial_token_sort_ratio e a b o).
Proof.
  unfold partial_token_sort_ratio.
  destruct (negb (Utils.validate _)); [apply number_of_Z|].
  destruct (negb (Utils.validate _)); [apply number_of_Z|].
  apply _partial_ratio_number.
Qed.

Lemma partial_token_set_ratio_number (a b : jsval) (o : Opt.t) :
  number (partial_token_set_ratio e a b o).
Proof.
  unfold partial_token_set_ratio.
  destruct (negb (Utils.validate _)); [apply number_of_Z|].
  destruct (negb (Utils.validate _)); [apply number_of_Z|].
  apply _token_set_number.
Qed.

End Numbers.

Lemma round_max_ge (z : Z) (rest : list jsnum) :
  Forall number rest ->
  geb (Math_round (Math_max (of_Z z :: rest))) (of_Z z) = true.
Proof.
  intro H. apply Math_max_number in H. cbn [Math_max fold_right].
  fold (Math_max rest). unfold number in H.
  destruct (Math_max rest) as [| | |y]; [congruence | | reflexivity |].
  - cbn [of_Z max2]. fold (of_Z z). rewrite Math_round_of_Z. apply geb_of_Z. lia.
  - cbn [of_Z max2]. destruct (Qle_bool (inject_Z z) y) eqn:E.
    + cbn [Math_round]. apply geb_of_Z. rewrite <- (Qfloor_half z) at 1.
      apply round_mono. now apply Qle_bool_iff.
    + fold (of_Z z). rewrite Math_round_of_Z. apply geb_of_Z. lia.
Qed.

(** C7.  For every pair of inputs and every option bag, [WRatio] is greater
    than or equal to [ratio] (QRatio) of the same pair: it rounds a maximum
    that includes the base ratio.  Normalisation is taken to keep a
    non-empty text non-empty, so that no score is [NaN]. *)
Theorem WRatio_ge_QRatio (e : Env.t) (a b : jsval) (o : Opt.t) :
  normalize_keeps_text e ->
  geb (WRatio e a b o) (QRatio e a b o) = true.
Proof.
  intro keeps. unfold WRatio, QRatio.
  set (o' := Utils.clone_and_set_option_defaults o).
  destruct (negb (Utils.validate (preprocessed e o' a))); [reflexivity|].
  destruct (negb (Utils.validate (preprocessed e o' b))); [reflexivity|].
  rewrite _ratio_set_full_process.
  destruct (@_ratio_integer e (preprocessed e o' a) (preprocessed e o' b) o'
              (fun _ _ => keeps)) as (z & ->).
  destruct (ltb_num _ _).
  - apply round_max_ge.
    repeat (apply Forall_cons;
            [apply mul_scale_number;
             [first [apply (token_sort_ratio_number keeps)
                    | apply (token_set_ratio_number keeps)]
             | reflexivity]|]).
    apply Forall_nil.
  - apply round_max_ge.
    assert (Hs : forall x, number x ->
                 number (mul x (if gtb (div (of_nat (Nat.max (strlen (preprocessed e o' a))
                                                           (strlen (preprocessed e o' b))))
                                            (of_nat (Nat.min (strlen (preprocessed e o' a))
                                                           (strlen (preprocessed e o' b)))))
                                       (Num 8)
                                then Num (binary64 (6 # 10)) else Num (binary64 (90 # 100))))).
    { intros x Hx. destruct (gtb _ _); now apply mul_scale_number. }
    repeat apply Forall_cons; try apply Forall_nil; apply Hs.
    + apply (_partial_ratio_number keeps).
    + apply mul_scale_number; [apply (partial_token_sort_ratio_number keeps) | reflexivity].
    + apply mul_scale_number; [apply (partial_token_set_ratio_number keeps) | reflexivity].
Qed.

(** ** The two algorithms of [_ratio] *)

Lemma QRatio_strings (e : Env.t) (a b : jsval) (o : Opt.t) :
  QRatio e a b o =
  match prepared e o a, prepared e o b with
  | VString (c1 :: t1), VString (c2 :: t2) =>
      if difflib_selected o then block_score (c1 :: t1) (c2 :: t2)
      else distance_score e o (c1 :: t1) (c2 :: t2)
  | _, _ => of_Z 0
  end.
Proof.
  rewrite QRatio_unfold. cbv zeta. fold (prepared e o a) (prepared e o b).
  destruct (prepared e o a) as [[|c1 t1]| |]; try reflexivity.
  destruct (prepared e o b) as [[|c2 t2]| |]; try reflexivity.
  cbn [Utils.validate andb]. rewrite _ratio_strings by congruence.
  destruct (difflib_selected o); [|reflexivity].
  unfold block_score, Difflib.ratio. cbn [length Nat.add Nat.eqb]. reflexivity.
Qed.

(** C1, amended.  Unless [ratio_alg] is "difflib", [ratio] (QRatio) returns 0
    if either prepared input is empty or not a string, and otherwise
    round(100 * (lensum - distance) / lensum), where the lengths and the
    edit distance are taken over UTF-16 code units, or over code points
    (after normalisation, when asked for) if [astral] is set, and the
    substitution cost is 2 when the caller gives none.  The formula
    ([percent]) is evaluated as the code evaluates it: the difference, the
    quotient and the product are rounded to doubles, and [Math.round] takes
    the result to the nearest integer, halves upwards. *)
Theorem QRatio_by_edit_distance (e : Env.t) (a b : jsval) (o : Opt.t) :
  difflib_selected o = false ->
  QRatio e a b o =
  match prepared e o a, prepared e o b with
  | VString (c1 :: t1), VString (c2 :: t2) =>
      let str1 := c1 :: t1 in
      let str2 := c2 :: t2 in
      if Opt.astral o then
        let str1 := if Opt.normalize o then normalized e str1 else str1 in
        let str2 := if Opt.normalize o then normalized e str2 else str2 in
        percent (code_point_length str1 + code_point_length str2)
                (Leven.edit_distance (Leven.symbol_same e o) (ratio_subcost o)
                                     (Lodash._toArray str1) (Lodash._toArray str2))
      else
        percent (length str1 + length str2)
                (Leven.edit_distance (Leven.unit_same e o) (ratio_subcost o) str1 str2)
  | _, _ => of_Z 0
  end.
Proof.
  intro H. rewrite QRatio_strings, H. reflexivity.
Qed.

(** C5, amended.  The two ratio algorithms are backends selected by
    [ratio_alg]: when its value is "difflib", and only then, [ratio]
    (QRatio) returns, for two prepared inputs that are non-empty strings,
    the rounded percentage of 2 * (total length of the matching blocks) /
    (sum of the lengths) instead of the edit-distance formula; with either
    algorithm it returns 0 when an input is empty or not a string.  Both
    formulas are evaluated in double arithmetic, as the code evaluates
    them: [Math.round(100 * r)] of the double [r]. *)
Theorem QRatio_selects_algorithm (e : Env.t) (a b : jsval) (o : Opt.t) :
  (difflib_selected o = true <-> Opt.ratio_alg o = Some "difflib"%string)
  /\ QRatio e a b o =
     match prepared e o a, prepared e o b with
     | VString (c1 :: t1), VString (c2 :: t2) =>
         if difflib_selected o
         then Math_round
                (mul (of_Z 100)
                     (div (mul (of_Z 2) (of_nat (Difflib.matches (c1 :: t1) (c2 :: t2))))
                          (of_nat (length (c1 :: t1) + length (c2 :: t2)))))
         else distance_score e o (c1 :: t1) (c2 :: t2)
     | _, _ => of_Z 0
     end.
Proof.
  split.
  - unfold difflib_selected. destruct (Opt.ratio_alg o) as [alg|].
    + rewrite String.eqb_eq. split; congruence.
    + split; discriminate.
  - apply QRatio_strings.
Qed.

(** ** [_token_set] *)

Lemma ratio_func_clone (e : Env.t) (o : Opt.t) (x y : jsval) :
  ratio_func e (Utils.clone_and_set_option_defaults o) x y
             (Utils.clone_and_set_option_defaults o)
  = ratio_func e o x y o.
Proof.
  unfold ratio_func. rewrite clone_partial.
  destruct (Opt.partial o); [apply _partial_ratio_clone | apply _ratio_clone].
Qed.

(** C6, amended.  For two valid prepared inputs, [token_set_ratio] builds the
    trimmed strings sorted intersection, intersection + " " + sorted
    difference 1-to-2 and intersection + " " + sorted difference 2-to-1 from
    the two token sets (those of [options.tokens] when given), scores the
    three pairings with the selected ratio function (partial or full) and
    returns the maximum of these three scores and, when [trySimple] is
    set, of the score of the two prepared inputs themselves. *)
Theorem token_set_ratio_is_a_maximum (e : Env.t) (a b : jsval) (o : Opt.t) :
  Utils.validate (prepared e o a) = true ->
  Utils.validate (prepared e o b) = true ->
  let str1 := prepared e o a in
  let str2 := prepared e o b in
  let tokens := token_sets o str1 str2 in
  let sorted_sect := fst (fst (comparison_strings (fst tokens) (snd tokens))) in
  let combined_1to2 := snd (fst (comparison_strings (fst tokens) (snd tokens))) in
  let combined_2to1 := snd (comparison_strings (fst tokens) (snd tokens)) in
  token_set_ratio e a b o =
  Math_max ([ ratio_func e o sorted_sect combined_1to2 o;
              ratio_func e o sorted_sect combined_2to1 o;
              ratio_func e o combined_1to2 combined_2to1 o ]
            ++ if Opt.trySimple o then [ratio_func e o str1 str2 o] else []).
Proof.
  intros Va Vb str1 str2 tokens sorted_sect combined_1to2 combined_2to1.
  unfold token_set_ratio. fold (prepared e o a) (prepared e o b). rewrite Va, Vb.
  cbn [negb]. unfold _token_set. rewrite clone_tokens, clone_trySimple.
  fold (ratio_func e (Utils.clone_and_set_option_defaults o)).
  rewrite !ratio_func_clone.
  subst sorted_sect combined_1to2 combined_2to1 tokens. unfold token_sets.
  fold str1 str2.
  destruct (Opt.tokens o) as [[t1 t2]|]; destruct (Opt.trySimple o); reflexivity.
Qed.

(** ** [extract] *)

Lemma scan_outcome (e : Env.t) (su : scan_setup) (cutoff : jsnum)
      (todo : list (jsval * key)) (results : list result) :
  scan e su cutoff todo results =
  if existsb (fun vk => choice_normalize_throws su (fst vk)) todo
  then ThrowTypeError
  else Return (results
               ++ filter (fun r => gtb (result_score r) cutoff)
                         (map (fun vk => (fst vk, score_of e su (fst vk), snd vk)) todo)).
Proof.
  revert results. induction todo as [|[value k] todo IH]; intro results;
    cbn [scan map filter existsb fst snd].
  - now rewrite app_nil_r.
  - destruct (choice_normalize_throws su value); [reflexivity|]. cbn [orb].
    rewrite IH. destruct (existsb _ todo); [reflexivity|].
    unfold result_score at 2. cbn [fst snd].
    destruct (gtb (score_of e su value) cutoff); [|reflexivity].
    now rewrite <- app_assoc.
Qed.

Lemma In_insert_result (r x : result) (l : list result) :
  In x (insert_result r l) <-> x = r \/ In x l.
Proof.
  induction l as [|y l IH]; cbn [insert_result].
  - simpl. intuition congruence.
  - destruct (gtb (result_score y) (result_score r)); simpl in *; rewrite ?IH;
      intuition congruence.
Qed.

Lemma In_sort_results (x : result) (l : list result) :
  In x (sort_results l) <-> In x l.
Proof.
  induction l as [|r l IH]; cbn [sort_results fold_right]; [tauto|].
  fold (sort_results l). rewrite In_insert_result, IH. simpl. intuition congruence.
Qed.

(** [extract] once its three checks have passed. *)
Lemma extract_outcome (e : Env.t) (query : jsval) (choices : collection)
      (o : ExtractOpt.t) :
  numchoices choices <> 0 ->
  ExtractOpt.processor o <> NotCallable ->
  ExtractOpt.scorer o <> NotCallable ->
  extract e query choices o =
  if query_normalize_throws (setup_of e query o) query
     || existsb (fun vk => choice_normalize_throws (setup_of e query o) (fst vk))
                (entries choices)
  then ThrowTypeError
  else Return (ranked e o (numchoices choices)
                 (filter (fun r => gtb (result_score r)
                                       (cutoff_used (ExtractOpt.cutoff o)))
                         (scored e (setup_of e query o) choices))).
Proof.
  intros Hn Hp Hs. unfold extract.
  assert (Hc : (match choices with CNullish => true | _ => false end
                || (numchoices choices =? 0)) = false).
  { destruct choices; simpl in *; try congruence; apply Nat.eqb_neq; exact Hn. }
  rewrite Hc. unfold ranked, scored, setup_of, scorer_used, processor_used.
  destruct (ExtractOpt.processor o) eqn:Ep; try congruence;
    destruct (ExtractOpt.scorer o) eqn:Es; try congruence;
    rewrite scan_outcome;
    (destruct (query_normalize_throws _ _); [reflexivity|]);
    cbn [orb]; (destruct (existsb _ _); reflexivity).
Qed.



(** What a call of [extract] that returns has passed. *)
Lemma extract_return_checks (e : Env.t) (query : jsval) (choices : collection)
      (o : ExtractOpt.t) (l : list result) :
  extract e query choices o = Return l ->
  numchoices choices <> 0
  /\ ExtractOpt.processor o <> NotCallable
  /\ ExtractOpt.scorer o <> NotCallable.
Proof.
  intro Hx. repeat split.
  - intro E. unfold extract in Hx. rewrite E in Hx.
    destruct choices; simpl in Hx; discriminate.
  - intro E. unfold extract in Hx. rewrite E in Hx.
    destruct (_ || _) in Hx; discriminate.
  - intro E. unfold extract in Hx. rewrite E in Hx.
    destruct (_ || _) in Hx; [discriminate|].
    destruct (ExtractOpt.processor o); discriminate.
Qed.

(** What [extract] returns when its checks pass, read back from a result. *)
Lemma extract_return_inv (e : Env.t) (query : jsval) (choices : collection)
      (o : ExtractOpt.t) (l : list result) :
  extract e query choices o = Return l ->
  l = ranked e o (numchoices choices)
             (filter (fun r => gtb (result_score r) (cutoff_used (ExtractOpt.cutoff o)))
                     (scored e (setup_of e query o) choices)).
Proof.
  intro Hx. destruct (@extract_return_checks e query choices o l Hx) as (Hn & Hp & Hs).
  rewrite (@extract_outcome e query choices o Hn Hp Hs) in Hx.
  destruct (_ || _) in Hx; [discriminate|]. now injection Hx as <-.
Qed.

(** C3, amended.  [extract] returns a scored candidate, as the triple
    (candidate, score, key), if and only if its score is strictly greater
    than the cutoff in force, unless a limit applies; then it returns what
    the selection of the [limit] largest makes of these triples.  The cutoff
    in force is the caller's when that is a number other than 0 and [NaN]
    (an infinity included), and -1 when none is given, or 0, or [NaN]: so a
    candidate that scores 0 is kept when no cutoff is given, and also when
    the cutoff given is 0. *)
Theorem extract_keeps_scores_above_cutoff (e : Env.t) (query : jsval)
        (choices : collection) (o : ExtractOpt.t) (l : list result) :
  extract e query choices o = Return l ->
  (limit_applies o (numchoices choices) = false ->
   forall r, In r l <->
             In r (scored e (setup_of e query o) choices)
             /\ gtb (result_score r) (cutoff_used (ExtractOpt.cutoff o)) = true)
  /\ (limit_applies o (numchoices choices) = true ->
      exists n, ExtractOpt.limit o = Some n
                /\ l = Env.nlargest e
                         (filter (fun r => gtb (result_score r)
                                               (cutoff_used (ExtractOpt.cutoff o)))
                                 (scored e (setup_of e query o) choices)) n)
  /\ (ExtractOpt.cutoff o = None -> cutoff_used (ExtractOpt.cutoff o) = of_Z (-1))
  /\ (forall c, ExtractOpt.cutoff o = Some (Num c) -> ~ (c == 0)%Q ->
                cutoff_used (ExtractOpt.cutoff o) = Num c)
  /\ (forall c, ExtractOpt.cutoff o = Some (Num c) -> (c == 0)%Q ->
                cutoff_used (ExtractOpt.cutoff o) = of_Z (-1))
  /\ (ExtractOpt.cutoff o = Some NaN -> cutoff_used (ExtractOpt.cutoff o) = of_Z (-1))
  /\ (ExtractOpt.cutoff o = Some PosInfinity ->
      cutoff_used (ExtractOpt.cutoff o) = PosInfinity)
  /\ (ExtractOpt.cutoff o = Some NegInfinity ->
      cutoff_used (ExtractOpt.cutoff o) = NegInfinity)
  /\ gtb (of_Z 0) (of_Z (-1)) = true.
Proof.
  intro Hx. apply extract_return_inv in Hx. subst l.
  split; [|split; [|repeat split]].
  - intros Hl r. unfold ranked. rewrite Hl.
    destruct (negb (ExtractOpt.unsorted o)).
    + rewrite In_sort_results. apply filter_In.
    + apply filter_In.
  - intro Hl. unfold ranked. rewrite Hl. unfold limit_applies in Hl.
    destruct (ExtractOpt.limit o) as [n|]; [|discriminate].
    exists n. split; reflexivity.
  - intros ->. reflexivity.
  - intros c -> Hc. cbn [cutoff_used].
    destruct (Qeq_bool c 0) eqn:E; [|reflexivity].
    apply Qeq_bool_iff in E. contradiction.
  - intros c -> Hc. cbn [cutoff_used].
    apply Qeq_bool_iff in Hc. now rewrite Hc.
  - intros ->. reflexivity.
  - intros ->. reflexivity.
  - intros ->. reflexivity.
Qed.


(** ** The recursion of the matching blocks ends *)

Lemma longest_match_bounds (a b : jsstring) (alo ahi blo bhi : nat) :
  let x := Difflib.find_longest_match a b alo ahi blo bhi in
  Difflib.block_size x <> 0 ->
  alo <= Difflib.block_a x
  /\ Difflib.block_a x + Difflib.block_size x <= ahi
  /\ blo <= Difflib.block_b x.
Proof.
  intros x Hk. destruct (@longest_match_inside a b alo ahi blo bhi Hk) as (H1 & H2 & H3 & _).
  auto.
Qed.

(** Any fuel above the length of the range of [a] gives the same blocks. *)
Lemma blocks_from_enough_fuel (n m : nat) (a b : jsstring) (alo ahi blo bhi : nat) :
  ahi - alo < n -> ahi - alo < m ->
  Difflib.blocks_from n a b alo ahi blo bhi = Difflib.blocks_from m a b alo ahi blo bhi.
Proof.
  revert m alo ahi blo bhi.
  induction n as [|n IH]; intros m alo ahi blo bhi Hn Hm; [lia|].
  destruct m as [|m]; [lia|].
  cbn [Difflib.blocks_from].
  pose proof (longest_match_bounds a b alo ahi blo bhi) as Hb. cbv zeta in Hb.
  set (x := Difflib.find_longest_match a b alo ahi blo bhi) in *.
  destruct (Difflib.block_size x =? 0) eqn:E; [reflexivity|].
  apply Nat.eqb_neq in E. destruct (Hb E) as (B1 & B2 & B3).
  f_equal. f_equal.
  - destruct ((alo <? Difflib.block_a x) && (blo <? Difflib.block_b x)); [|reflexivity].
    apply IH; lia.
  - destruct ((Difflib.block_a x + Difflib.block_size x <? ahi)
              && (Difflib.block_b x + Difflib.block_size x <? bhi)); [|reflexivity].
    apply IH; lia.
Qed.

(** * Further properties *)

(** ** Bounds of the distance *)

Section EditDistanceBounds.

Variable A : Type.
Variable same : A -> A -> bool.
Variable subcost : Z.

(** Deleting every symbol of one sequence and inserting every symbol of the
    other is always possible. *)
Lemma edit_distance_le_sum (a b : list A) :
  (Leven.edit_distance same subcost a b <= Z.of_nat (length a + length b))%Z.
Proof.
  revert b. induction a as [|x a IHa]; intro b.
  - simpl. lia.
  - induction b as [|y b IHb].
    + rewrite edit_distance_nil_r. lia.
    + rewrite edit_distance_cons. pose proof (IHa (y :: b)) as H. cbn [length] in *. lia.
Qed.

Hypothesis same_sym : forall x y, same x y = same y x.

Lemma edit_distance_sym (a b : list A) :
  Leven.edit_distance same subcost a b = Leven.edit_distance same subcost b a.
Proof.
  revert b. induction a as [|x a IHa]; intro b.
  - rewrite edit_distance_nil_r. reflexivity.
  - induction b as [|y b IHb].
    + rewrite edit_distance_nil_r. reflexivity.
    + rewrite !edit_distance_cons.
      rewrite (IHa (y :: b)), IHb, (IHa b), (same_sym x y). lia.
Qed.

End EditDistanceBounds.

Section EditDistanceZero.

Variable A : Type.
Variable same : A -> A -> bool.
Variable subcost : Z.
Hypothesis subcost_pos : (0 < subcost)%Z.
Hypothesis same_eq : forall x y, same x y = true -> x = y.

Lemma edit_distance_zero (a b : list A) :
  Leven.edit_distance same subcost a b = 0%Z -> a = b.
Proof.
  revert b. induction a as [|x a IHa]; intro b.
  - simpl. destruct b; [reflexivity | simpl; lia].
  - induction b as [|y b IHb].
    + rewrite edit_distance_nil_r. simpl. lia.
    + rewrite edit_distance_cons.
      assert (N : (0 <= subcost)%Z) by lia.
      pose proof (@edit_distance_nonneg A same subcost N a (y :: b)) as P1.
      pose proof (@edit_distance_nonneg A same subcost N (x :: a) b) as P2.
      pose proof (@edit_distance_nonneg A same subcost N a b) as P3.
      destruct (same x y) eqn:E; intro H.
      * f_equal; [now apply same_eq | apply IHa; lia].
      * lia.
Qed.

End EditDistanceZero.

(** ** Percentages *)

Lemma percentage_of_Z (z : Z) : (0 <= z <= 100)%Z -> percentage (of_Z z).
Proof. intro H. now exists z. Qed.

Lemma percent_nonneg (n : nat) (d : Z) :
  0 < n -> (d <= Z.of_nat n)%Z -> exists z, percent n d = of_Z z /\ (0 <= z)%Z.
Proof.
  intros H Hd. rewrite (percent_value _ H). eexists; split; [reflexivity|].
  pose proof (inject_nat_pos H) as P.
  set (t := inject_Z (Z.of_nat n)) in *.
  assert (X : (0 <= t - inject_Z d)%Q).
  { unfold t, Qminus. rewrite <- inject_Z_opp, <- inject_Z_plus.
    change 0%Q with (inject_Z 0). rewrite <- Zle_Qle. lia. }
  destruct (@rounded_quotient _ _ X P) as (Q0 & _ & _).
  destruct (round_100_times (binary64 (binary64 (t - inject_Z d) / t))) as (R0 & _ & _).
  exact (R0 Q0).
Qed.

Lemma percent_percentage (n : nat) (d : Z) :
  0 < n -> (0 <= d <= Z.of_nat n)%Z -> percentage (percent n d).
Proof.
  intros H [H0 Hn].
  destruct (percent_le_100 H H0) as (z & Hz & Hle).
  destruct (percent_nonneg H Hn) as (z' & Hz' & Hge).
  rewrite Hz in Hz'. injection Hz' as E.
  exists z. split; [exact Hz|]. split; [|exact Hle].
  assert (z = z').
  { clear -E. unfold inject_Z in E. congruence. }
  lia.
Qed.

(** ** The matching blocks do not overlap *)

Lemma total_cons (x : Difflib.block) (l : list Difflib.block) :
  total (x :: l) = Difflib.block_size x + total l.
Proof. reflexivity. Qed.

Lemma total_app (l1 l2 : list Difflib.block) : total (l1 ++ l2) = total l1 + total l2.
Proof. induction l1 as [|x l1 IH]; simpl; [reflexivity | rewrite IH; lia]. Qed.

(** The blocks found in a range fit in it, side by side. *)
Lemma blocks_from_total (fuel : nat) (a b : jsstring) (alo ahi blo bhi : nat) :
  total (Difflib.blocks_from fuel a b alo ahi blo bhi) <= ahi - alo
  /\ total (Difflib.blocks_from fuel a b alo ahi blo bhi) <= bhi - blo.
Proof.
  revert alo ahi blo bhi. induction fuel as [|fuel IH]; intros alo ahi blo bhi.
  - simpl. lia.
  - cbn [Difflib.blocks_from].
    pose proof (longest_match_inside a b alo ahi blo bhi) as Hb. cbv zeta in Hb.
    set (x := Difflib.find_longest_match a b alo ahi blo bhi) in *.
    destruct (Difflib.block_size x =? 0) eqn:E; [simpl; lia|].
    apply Nat.eqb_neq in E. destruct (Hb E) as (B1 & B2 & B3 & B4).
    rewrite total_cons, total_app.
    assert (L : total (if (alo <? Difflib.block_a x) && (blo <? Difflib.block_b x)
                       then Difflib.blocks_from fuel a b alo (Difflib.block_a x) blo
                                                (Difflib.block_b x)
                       else []) <= Difflib.block_a x - alo
                /\ total (if (alo <? Difflib.block_a x) && (blo <? Difflib.block_b x)
                          then Difflib.blocks_from fuel a b alo (Difflib.block_a x) blo
                                                   (Difflib.block_b x)
                          else []) <= Difflib.block_b x - blo).
    { destruct ((alo <? Difflib.block_a x) && (blo <? Difflib.block_b x));
        [apply IH | simpl; lia]. }
    assert (R : total (if (Difflib.block_a x + Difflib.block_size x <? ahi)
                          && (Difflib.block_b x + Difflib.block_size x <? bhi)
                       then Difflib.blocks_from fuel a b
                              (Difflib.block_a x + Difflib.block_size x) ahi
                              (Difflib.block_b x + Difflib.block_size x) bhi
                       else []) <= ahi - (Difflib.block_a x + Difflib.block_size x)
                /\ total (if (Difflib.block_a x + Difflib.block_size x <? ahi)
                             && (Difflib.block_b x + Difflib.block_size x <? bhi)
                          then Difflib.blocks_from fuel a b
                                 (Difflib.block_a x + Difflib.block_size x) ahi
                                 (Difflib.block_b x + Difflib.block_size x) bhi
                          else []) <= bhi - (Difflib.block_b x + Difflib.block_size x)).
    { destruct ((Difflib.block_a x + Difflib.block_size x <? ahi)
                && (Difflib.block_b x + Difflib.block_size x <? bhi));
        [apply IH | simpl; lia]. }
    lia.
Qed.

Lemma total_insert_block (x : Difflib.block) (l : list Difflib.block) :
  total (Difflib.insert_block x l) = Difflib.block_size x + total l.
Proof.
  induction l as [|y l IH]; cbn [Difflib.insert_block]; [reflexivity|].
  destruct (Difflib.block_ltb y x); rewrite !total_cons; [rewrite IH|]; lia.
Qed.

Lemma total_sort_blocks (l : list Difflib.block) : total (Difflib.sort_blocks l) = total l.
Proof.
  induction l as [|x l IH]; [reflexivity|].
  cbn [Difflib.sort_blocks fold_right]. fold (Difflib.sort_blocks l).
  rewrite total_insert_block, IH. reflexivity.
Qed.

Lemma total_collapse (cur : Difflib.block) (l : list Difflib.block) :
  total (Difflib.collapse cur l) = Difflib.block_size cur + total l.
Proof.
  revert cur. induction l as [|y l IH]; intro cur; cbn [Difflib.collapse].
  - destruct (Difflib.block_size cur =? 0) eqn:E; simpl;
      [apply Nat.eqb_eq in E|]; lia.
  - destruct ((Difflib.block_a cur + Difflib.block_size cur =? Difflib.block_a y)
              && (Difflib.block_b cur + Difflib.block_size cur =? Difflib.block_b y)).
    + rewrite IH, total_cons. unfold Difflib.block_size at 1. cbn [snd]. lia.
    + rewrite total_app, IH, total_cons.
      destruct (Difflib.block_size cur =? 0) eqn:E; simpl;
        [apply Nat.eqb_eq in E|]; lia.
Qed.

(** The matched length is at most the length of either string. *)
Lemma matches_le (a b : jsstring) :
  Difflib.matches a b <= length a /\ Difflib.matches a b <= length b.
Proof.
  unfold Difflib.matches. fold (total (Difflib.getMatchingBlocks a b)).
  unfold Difflib.getMatchingBlocks. rewrite total_app, total_collapse, total_sort_blocks.
  pose proof (blocks_from_total (S (length a)) a b 0 (length a) 0 (length b)) as [H1 H2].
  change (Difflib.block_size (0, 0, 0)) with 0.
  change (total [(length a, length b, 0)]) with 0. lia.
Qed.

Lemma round_percent_of_matches (m t : nat) :
  0 < t -> 2 * m <= t ->
  percentage (Math_round (mul (of_Z 100)
                              (Num (binary64 (binary64 (inject_Z 2 * inject_Z (Z.of_nat m))
                                              / inject_Z (Z.of_nat t)))))).
Proof.
  intros Ht Hm. cbn [mul Math_round of_Z]. eexists. split; [reflexivity|].
  change (inject_Z 100) with 100%Q.
  assert (P : (0 < inject_Z (Z.of_nat t))%Q) by (now apply inject_nat_pos).
  assert (X : (0 <= inject_Z 2 * inject_Z (Z.of_nat m))%Q).
  { rewrite <- inject_Z_mult. change 0%Q with (inject_Z 0). rewrite <- Zle_Qle. lia. }
  destruct (@rounded_quotient _ _ X P) as (Q0 & Q1 & _).
  destruct (round_100_times
              (binary64 (binary64 (inject_Z 2 * inject_Z (Z.of_nat m))
                         / inject_Z (Z.of_nat t)))) as (R0 & R1 & _).
  split; [exact (R0 Q0)|].
  apply R1, Q1. rewrite <- inject_Z_mult, <- Zle_Qle. lia.
Qed.

(** ** The range of the scores *)

Lemma Math_max_percentage (l : list jsnum) :
  l <> [] -> Forall percentage l -> percentage (Math_max l).
Proof.
  induction l as [|x l IH]; [congruence|]. intros _ H.
  apply Forall_cons_iff in H. destruct H as [(z & -> & Hz) Hl].
  cbn [Math_max fold_right]. fold (Math_max l).
  destruct l as [|y l].
  - simpl. now exists z.
  - destruct (IH ltac:(discriminate) Hl) as (z' & -> & Hz').
    cbn [of_Z max2]. destruct (Qle_bool (inject_Z z) (inject_Z z')); [now exists z' | now exists z].
Qed.

Section Ranges.

Variable e : Env.t.
Hypothesis keeps : normalize_keeps_text e.

Lemma lensum_astral_pos (o : Opt.t) (s1 s2 : jsstring) :
  s1 <> [] ->
  0 < length (Lodash._toArray (if Opt.normalize o then normalized e s1 else s1))
      + length (Lodash._toArray (if Opt.normalize o then normalized e s2 else s2)).
Proof.
  intro H. destruct (Opt.normalize o).
  - pose proof (toArray_nonempty (normalized_nonempty keeps H)). lia.
  - pose proof (toArray_nonempty H). lia.
Qed.

(** [_ratio] is a whole number and is not negative, whatever the
    substitution cost; with a cost that is not negative it is at most 100. *)
Lemma _ratio_range (a b : jsval) (o : Opt.t) :
  exists z, _ratio e a b o = of_Z z /\ (0 <= z)%Z /\ (subcost_nonneg o -> (z <= 100)%Z).
Proof.
  destruct (Utils.validate a) eqn:Va;
    [|exists 0%Z; rewrite _ratio_invalid_l by assumption; repeat split; lia].
  destruct (Utils.validate b) eqn:Vb;
    [|exists 0%Z; rewrite _ratio_invalid_r by assumption; repeat split; lia].
  apply validate_inv in Va, Vb. destruct Va as (c1 & s1 & ->), Vb as (c2 & s2 & ->).
  rewrite _ratio_strings by congruence.
  assert (N1 : c1 :: s1 <> []) by congruence.
  destruct (difflib_selected o).
  - rewrite difflib_ratio_value by (simpl; lia).
    destruct (@round_percent_of_matches (Difflib.matches (c1 :: s1) (c2 :: s2))
                (length (c1 :: s1) + length (c2 :: s2))) as (z & Hz & Hr).
    + simpl; lia.
    + pose proof (matches_le (c1 :: s1) (c2 :: s2)). lia.
    + exists z. rewrite Hz. repeat split; lia.
  - destruct (Opt.astral o) eqn:Ea.
    + cbv zeta.
      set (n1 := Lodash._toArray (if Opt.normalize o then normalized e (c1 :: s1) else c1 :: s1)).
      set (n2 := Lodash._toArray (if Opt.normalize o then normalized e (c2 :: s2) else c2 :: s2)).
      pose proof (@lensum_astral_pos o (c1 :: s1) (c2 :: s2) N1) as Hpos. fold n1 n2 in Hpos.
      pose proof (edit_distance_le_sum (Leven.symbol_same e o) (ratio_subcost o) n1 n2) as Hle.
      destruct (percent_nonneg Hpos Hle) as (z & Hz & Hz0).
      exists z. split; [exact Hz|]. split; [exact Hz0|].
      intro Hc. pose proof (@ratio_subcost_nonneg o Hc) as Hcost.
      destruct (@percent_le_100 (length n1 + length n2)
                  (Leven.edit_distance (Leven.symbol_same e o) (ratio_subcost o) n1 n2)
                  Hpos (edit_distance_nonneg _ Hcost n1 n2)) as (z' & Hz' & H100).
      rewrite Hz in Hz'. injection Hz' as E. unfold inject_Z in E.
      assert (z = z') by congruence. lia.
    + assert (Hpos : 0 < length (c1 :: s1) + length (c2 :: s2)) by (simpl; lia).
      pose proof (edit_distance_le_sum (Leven.unit_same e o) (ratio_subcost o)
                                       (c1 :: s1) (c2 :: s2)) as Hle.
      destruct (percent_nonneg Hpos Hle) as (z & Hz & Hz0).
      exists z. split; [exact Hz|]. split; [exact Hz0|].
      intro Hc. pose proof (@ratio_subcost_nonneg o Hc) as Hcost.
      destruct (@percent_le_100 (length (c1 :: s1) + length (c2 :: s2))
                  (Leven.edit_distance (Leven.unit_same e o) (ratio_subcost o)
                                       (c1 :: s1) (c2 :: s2))
                  Hpos (edit_distance_nonneg _ Hcost _ _)) as (z' & Hz' & H100).
      rewrite Hz in Hz'. injection Hz' as E. unfold inject_Z in E.
      assert (z = z') by congruence. lia.
Qed.

Lemma _ratio_percentage (a b : jsval) (o : Opt.t) :
  subcost_nonneg o -> percentage (_ratio e a b o).
Proof.
  intro Hc. destruct (_ratio_range a b o) as (z & Hz & H0 & H100).
  exists z. split; [exact Hz|]. split; [exact H0 | now apply H100].
Qed.

Lemma not_exceeding (z : Z) : exceeds_99_5 (of_Z z) = false -> (z <= 100)%Z.
Proof.
  unfold exceeds_99_5, gtb, of_Z. intro H. apply Qltb_false_iff in H.
  unfold Qle, inject_Z in H. simpl in H. lia.
Qed.

Lemma getMatchingBlocks_nonempty (a b : jsstring) : Difflib.getMatchingBlocks a b <> [].
Proof.
  unfold Difflib.getMatchingBlocks. intro H. apply app_eq_nil in H. destruct H; discriminate.
Qed.

Lemma windows_percentage (shorter longer : jsstring) (o : Opt.t) :
  percentage (if existsb exceeds_99_5 (window_ratios e shorter longer o) then of_Z 100
              else Math_max (window_ratios e shorter longer o)).
Proof.
  destruct (existsb exceeds_99_5 (window_ratios e shorter longer o)) eqn:Ex;
    [apply percentage_of_Z; lia|].
  apply Math_max_percentage.
  - unfold window_ratios. intro H. apply map_eq_nil in H.
    exact (getMatchingBlocks_nonempty _ _ H).
  - apply Forall_forall. intros r Hr.
    assert (Hn : exceeds_99_5 r = false).
    { destruct (exceeds_99_5 r) eqn:Er; [|reflexivity].
      assert (existsb exceeds_99_5 (window_ratios e shorter longer o) = true)
        by (apply existsb_exists; now exists r).
      congruence. }
    unfold window_ratios in Hr. apply in_map_iff in Hr. destruct Hr as (x & <- & _).
    destruct (_ratio_range (VString shorter) (VString (window shorter longer x)) o)
      as (z & Hz & H0 & _).
    rewrite Hz in Hn |- *. apply percentage_of_Z. split; [exact H0 | now apply not_exceeding].
Qed.

(** [_partial_ratio] is a percentage whatever the substitution cost: a
    ratio above 99.5 is replaced by 100. *)
Lemma _partial_ratio_percentage (a b : jsval) (o : Opt.t) :
  percentage (_partial_ratio e a b o).
Proof.
  destruct (Utils.validate a) eqn:Va;
    [|rewrite _partial_ratio_invalid_l by assumption; apply percentage_of_Z; lia].
  destruct (Utils.validate b) eqn:Vb;
    [|rewrite _partial_ratio_invalid_r by assumption; apply percentage_of_Z; lia].
  apply validate_inv in Va, Vb. destruct Va as (c1 & s1 & ->), Vb as (c2 & s2 & ->).
  rewrite _partial_ratio_strings by congruence.
  apply windows_percentage.
Qed.

Lemma _token_set_percentage (a b : jsval) (o : Opt.t) :
  Opt.partial o = true \/ subcost_nonneg o -> percentage (_token_set e a b o).
Proof.
  intro H. unfold _token_set. apply Math_max_percentage.
  - destruct (Opt.trySimple o); discriminate.
  - assert (R : forall x y, percentage ((if Opt.partial o then _partial_ratio e else _ratio e) x y o)).
    { intros x y. destruct (Opt.partial o) eqn:Ep.
      - apply _partial_ratio_percentage.
      - apply _ratio_percentage. destruct H; [discriminate | assumption]. }
    destruct (Opt.trySimple o); cbn [app]; repeat (apply Forall_cons; [apply R|]);
      apply Forall_nil.
Qed.

End Ranges.

(** ** Every scorer returns a percentage *)

Lemma percentage_bounded (x : jsnum) : percentage x -> bounded x.
Proof.
  intros (z & -> & H0 & H100). exists (inject_Z z). split; [reflexivity|]. split.
  - change 0%Q with (inject_Z 0). now rewrite <- Zle_Qle.
  - change 100%Q with (inject_Z 100). now rewrite <- Zle_Qle.
Qed.

Lemma mul_scale_bounded (x : jsnum) (s : Q) :
  bounded x -> (0 <= s)%Q -> (s <= 99 # 100)%Q -> bounded (mul x (Num s)).
Proof.
  intros (q & -> & H0 & H100) Hs0 Hs1. cbn [mul]. eexists. split; [reflexivity|].
  assert (N : (0 <= q * s)%Q) by now apply Qmult_le_0_compat.
  split; [now apply binary64_nonneg|].
  destruct (binary64_near N) as [_ Hi].
  assert (L : (q * s <= 99)%Q) by nra.
  nra.
Qed.

Lemma Math_max_bounded (l : list jsnum) :
  l <> [] -> Forall bounded l -> bounded (Math_max l).
Proof.
  induction l as [|x l IH]; [congruence|]. intros _ H.
  apply Forall_cons_iff in H. destruct H as [(q & -> & Hq) Hl].
  cbn [Math_max fold_right]. fold (Math_max l).
  destruct l as [|y l].
  - simpl. now exists q.
  - destruct (IH ltac:(discriminate) Hl) as (q' & -> & Hq').
    cbn [max2]. destruct (Qle_bool q q'); [now exists q' | now exists q].
Qed.

Lemma round_bounded (x : jsnum) : bounded x -> percentage (Math_round x).
Proof.
  intros (q & -> & H0 & H100). cbn [Math_round]. eexists. split; [reflexivity|]. split.
  - change 0%Z with (Qfloor 0). apply Qfloor_resp_le.
    change 0%Q with (0 + 0)%Q. apply Qplus_le_compat; [exact H0 | discriminate].
  - rewrite <- (Qfloor_half 100). apply round_mono. exact H100.
Qed.

Section ScorerRanges.

Variable e : Env.t.
Hypothesis keeps : normalize_keeps_text e.

(** X1.  [QRatio] returns a whole number from 0 to 100, as its
    documentation says, for every pair of inputs and every option bag whose
    substitution cost is not negative. *)
Theorem QRatio_is_a_percentage (a b : jsval) (o : Opt.t) :
  subcost_nonneg o -> percentage (QRatio e a b o).
Proof.
  intro Hc. rewrite QRatio_unfold. cbv zeta.
  destruct (_ && _); [now apply _ratio_percentage | apply percentage_of_Z; lia].
Qed.

(** X2.  [partial_ratio] returns a whole number from 0 to 100 for every pair
    of inputs and every option bag, whatever the substitution cost: a window
    ratio above 99.5 is returned as 100. *)
Theorem partial_ratio_is_a_percentage (a b : jsval) (o : Opt.t) :
  percentage (partial_ratio e a b o).
Proof.
  rewrite partial_ratio_unfold.
  destruct (_ && _); [now apply _partial_ratio_percentage | apply percentage_of_Z; lia].
Qed.

Lemma token_sort_ratio_percentage (a b : jsval) (o : Opt.t) :
  subcost_nonneg o -> percentage (token_sort_ratio e a b o).
Proof.
  intro Hc. pose proof (clone_subcost_nonneg o Hc) as Hc'.
  unfold token_sort_ratio.
  destruct (negb (Utils.validate _)); [apply percentage_of_Z; lia|].
  destruct (negb (Utils.validate _)); [apply percentage_of_Z; lia|].
  now apply _ratio_percentage.
Qed.

Lemma token_set_ratio_percentage (a b : jsval) (o : Opt.t) :
  subcost_nonneg o -> percentage (token_set_ratio e a b o).
Proof.
  intro Hc. pose proof (clone_subcost_nonneg o Hc) as Hc'.
  unfold token_set_ratio.
  destruct (negb (Utils.validate _)); [apply percentage_of_Z; lia|].
  destruct (negb (Utils.validate _)); [apply percentage_of_Z; lia|].
  apply _token_set_percentage; [exact keeps | now right].
Qed.

Lemma partial_token_sort_ratio_percentage (a b : jsval) (o : Opt.t) :
  percentage (partial_token_sort_ratio e a b o).
Proof.
  unfold partial_token_sort_ratio.
  destruct (negb (Utils.validate _)); [apply percentage_of_Z; lia|].
  destruct (negb (Utils.validate _)); [apply percentage_of_Z; lia|].
  now apply _partial_ratio_percentage.
Qed.

Lemma partial_token_set_ratio_percentage (a b : jsval) (o : Opt.t) :
  percentage (partial_token_set_ratio e a b o).
Proof.
  unfold partial_token_set_ratio.
  destruct (negb (Utils.validate _)); [apply percentage_of_Z; lia|].
  destruct (negb (Utils.validate _)); [apply percentage_of_Z; lia|].
  apply _token_set_percentage; [exact keeps | now left].
Qed.

(** X3.  [token_sort_ratio] and [token_set_ratio] return a whole number from 0
    to 100 for every pair of inputs and every option bag whose substitution
    cost is not negative. *)
Theorem token_ratios_are_percentages (a b : jsval) (o : Opt.t) :
  subcost_nonneg o ->
  percentage (token_sort_ratio e a b o) /\ percentage (token_set_ratio e a b o).
Proof.
  intro Hc. split.
  - now apply token_sort_ratio_percentage.
  - now apply token_set_ratio_percentage.
Qed.

(** X4.  [partial_token_sort_ratio] and [partial_token_set_ratio] return a
    whole number from 0 to 100 for every pair of inputs and every option
    bag, whatever the substitution cost. *)
Theorem partial_token_ratios_are_percentages (a b : jsval) (o : Opt.t) :
  percentage (partial_token_sort_ratio e a b o)
  /\ percentage (partial_token_set_ratio e a b o).
Proof.
  split.
  - apply partial_token_sort_ratio_percentage.
  - apply partial_token_set_ratio_percentage.
Qed.

(** [WRatio] on two valid inputs: the rounded maximum of the base ratio and
    of scaled scores that stay within 0 and 100. *)
Lemma WRatio_shape (a b : jsval) (o : Opt.t) :
  subcost_nonneg o ->
  Utils.validate (prepared e o a) = true ->
  Utils.validate (prepared e o b) = true ->
  exists rest,
    Forall bounded rest
    /\ WRatio e a b o
       = Math_round (Math_max (_ratio e (prepared e o a) (prepared e o b) o :: rest)).
Proof.
  intros Hc Va Vb. unfold WRatio, prepared in *.
  set (o' := Utils.clone_and_set_option_defaults o) in *.
  assert (Hc' : subcost_nonneg (Opt.set_full_process (Some false) o')).
  { unfold subcost_nonneg. cbn [Opt.subcost Opt.set_full_process].
    apply (clone_subcost_nonneg o Hc). }
  rewrite Va, Vb. cbn [negb].
  rewrite _ratio_set_full_process.
  pose proof (_ratio_clone e (preprocessed e o' a) (preprocessed e o' b) o) as Hcl.
  fold o' in Hcl. rewrite Hcl. clear Hcl.
  assert (Hs : forall x, bounded x ->
               bounded (mul x (if gtb (div (of_nat (Nat.max (strlen (preprocessed e o' a))
                                                         (strlen (preprocessed e o' b))))
                                          (of_nat (Nat.min (strlen (preprocessed e o' a))
                                                         (strlen (preprocessed e o' b)))))
                                     (Num 8)
                               then Num (binary64 (6 # 10)) else Num (binary64 (90 # 100))))).
  { intros x Hx. destruct (gtb _ _); apply mul_scale_bounded; try assumption; discriminate. }
  assert (Hu : forall x, percentage x -> bounded (mul x (Num (binary64 (95 # 100))))).
  { intros x Hx. apply mul_scale_bounded; [now apply percentage_bounded | |]; discriminate. }
  destruct (ltb_num _ _).
  - eexists. split; [|reflexivity].
    repeat apply Forall_cons; try apply Forall_nil.
    + apply Hu. now apply token_sort_ratio_percentage.
    + apply Hu. now apply token_set_ratio_percentage.
  - eexists. split; [|reflexivity].
    repeat apply Forall_cons; try apply Forall_nil.
    + apply Hs, percentage_bounded. now apply _partial_ratio_percentage.
    + apply Hs, Hu. apply partial_token_sort_ratio_percentage.
    + apply Hs, Hu. apply partial_token_set_ratio_percentage.
Qed.

Lemma WRatio_invalid (a b : jsval) (o : Opt.t) :
  Utils.validate (prepared e o a) && Utils.validate (prepared e o b) = false ->
  WRatio e a b o = of_Z 0.
Proof.
  unfold WRatio, prepared. intro H.
  destruct (Utils.validate (preprocessed e _ a)); [|reflexivity].
  destruct (Utils.validate (preprocessed e _ b)); [discriminate | reflexivity].
Qed.

(** X5.  [WRatio] returns a whole number from 0 to 100 for every pair of
    inputs and every option bag whose substitution cost is not negative:
    the scaled scores it compares stay within 0 and 100. *)
Theorem WRatio_is_a_percentage (a b : jsval) (o : Opt.t) :
  subcost_nonneg o -> percentage (WRatio e a b o).
Proof.
  intro Hc.
  destruct (Utils.validate (prepared e o a)) eqn:Va;
    [|rewrite WRatio_invalid by (now rewrite Va); apply percentage_of_Z; lia].
  destruct (Utils.validate (prepared e o b)) eqn:Vb;
    [|rewrite WRatio_invalid by (rewrite Va, Vb; reflexivity); apply percentage_of_Z; lia].
  destruct (WRatio_shape a b o Hc Va Vb) as (rest & Hrest & ->).
  apply round_bounded, Math_max_bounded; [discriminate|].
  apply Forall_cons; [|exact Hrest].
  apply percentage_bounded. now apply _ratio_percentage.
Qed.

End ScorerRanges.

(** ** Containment and identical inputs *)

Lemma geb_of_Z_inv (x y : Z) : geb (of_Z x) (of_Z y) = true -> (y <= x)%Z.
Proof.
  unfold geb, of_Z. intro H. apply Qle_bool_iff in H. now rewrite <- Zle_Qle in H.
Qed.

Lemma of_Z_inj (x y : Z) : of_Z x = of_Z y -> x = y.
Proof. unfold of_Z, inject_Z. congruence. Qed.

Lemma app_same_length (s pre post : jsstring) :
  length (pre ++ s ++ post) <= length s -> pre ++ s ++ post = s.
Proof.
  rewrite !length_app. intro H.
  destruct pre; [|simpl in H; lia]. destruct post; [|simpl in H; lia].
  simpl. apply app_nil_r.
Qed.

(** X6.  When one prepared input occurs inside the other, [partial_ratio] is
    100, in either order of the arguments (the substitution cost is not
    negative, the collator is reflexive and normalisation keeps a non-empty
    text non-empty).  The inputs are shorter than 200 code units, the length
    from which the block matcher of [difflib] may leave frequent elements
    out. *)
Theorem partial_ratio_of_substring_is_100 (e : Env.t) (a b : jsval) (o : Opt.t)
        (s pre post : jsstring) :
  collator_reflexive e ->
  normalize_keeps_text e ->
  subcost_nonneg o ->
  s <> [] ->
  length (pre ++ s ++ post) < 200 ->
  prepared e o a = VString s ->
  prepared e o b = VString (pre ++ s ++ post) ->
  partial_ratio e a b o = of_Z 100 /\ partial_ratio e b a o = of_Z 100.
Proof.
  intros Hcol Hnorm Hc Hs Hshort Ha Hb.
  assert (Hlong : pre ++ s ++ post <> []).
  { intro E. apply app_eq_nil in E. destruct E as [_ E]. apply app_eq_nil in E. tauto. }
  destruct (@window_ratios_of_substring e s pre post o Hs Hshort Hc (fun _ => Hcol)
              (fun _ _ => Hnorm)) as (rest & Hw).
  rewrite !partial_ratio_unfold, Ha, Hb.
  rewrite (proj2 (validate_string _) Hs), (proj2 (validate_string _) Hlong). cbn [andb].
  rewrite !_partial_ratio_strings by assumption.
  split.
  - replace (length s <=? length (pre ++ s ++ post)) with true
      by (symmetry; apply Nat.leb_le; rewrite !length_app; lia).
    rewrite Hw. reflexivity.
  - destruct (length (pre ++ s ++ post) <=? length s) eqn:E.
    + apply Nat.leb_le in E. rewrite (app_same_length s pre post E) in Hw |- *.
      destruct (@window_ratios_of_same e s o Hs Hc (fun _ => Hcol)
                  (fun _ _ => Hnorm)) as (rest' & Hw').
      rewrite Hw'. reflexivity.
    + rewrite Hw. reflexivity.
Qed.

(** X7.  Two inputs that are the same non-empty string once prepared score 100
    under [QRatio], [partial_ratio] and [WRatio], for every option bag
    whose substitution cost is not negative. *)
Theorem identical_inputs_score_100 (e : Env.t) (a b : jsval) (o : Opt.t) (s : jsstring) :
  collator_reflexive e ->
  normalize_keeps_text e ->
  subcost_nonneg o ->
  s <> [] ->
  prepared e o a = VString s ->
  prepared e o b = VString s ->
  QRatio e a b o = of_Z 100
  /\ partial_ratio e a b o = of_Z 100
  /\ WRatio e a b o = of_Z 100.
Proof.
  intros Hcol Hnorm Hc Hs Ha Hb.
  assert (HQ : QRatio e a b o = of_Z 100).
  { rewrite QRatio_unfold. cbv zeta. fold (prepared e o a) (prepared e o b).
    rewrite Ha, Hb, (proj2 (validate_string _) Hs). cbn [andb].
    apply _ratio_reflexive; auto. }
  split; [exact HQ|]. split.
  - rewrite partial_ratio_unfold, Ha, Hb, (proj2 (validate_string _) Hs). cbn [andb].
    rewrite _partial_ratio_strings by assumption.
    destruct (@window_ratios_of_same e s o Hs Hc (fun _ => Hcol)
                (fun _ _ => Hnorm)) as (rest & Hw).
    destruct (length s <=? length s); rewrite Hw; reflexivity.
  - assert (Va : Utils.validate (prepared e o a) = true)
      by (rewrite Ha; now apply validate_string).
    assert (Vb : Utils.validate (prepared e o b) = true)
      by (rewrite Hb; now apply validate_string).
    destruct (@WRatio_shape e Hnorm a b o Hc Va Vb) as (rest & Hrest & ->).
    rewrite Ha, Hb, (@_ratio_reflexive e s o Hs Hc (fun _ => Hcol) (fun _ _ => Hnorm)).
    assert (Hp : percentage (Math_round (Math_max (of_Z 100 :: rest)))).
    { apply round_bounded, Math_max_bounded; [discriminate|].
      apply Forall_cons; [apply percentage_bounded, percentage_of_Z; lia | exact Hrest]. }
    assert (Hge : geb (Math_round (Math_max (of_Z 100 :: rest))) (of_Z 100) = true).
    { apply round_max_ge. apply Forall_forall. intros x Hx.
      apply (proj1 (Forall_forall _ _) Hrest) in Hx. destruct Hx as (q & -> & _).
      discriminate. }
    destruct Hp as (z & Hz & _ & H100). rewrite Hz in Hge |- *.
    apply geb_of_Z_inv in Hge. f_equal. lia.
Qed.

(** ** The order of the results of [extract] *)

Lemma gtb_geb (a b : jsnum) : gtb a b = true -> geb a b = true.
Proof.
  destruct a, b; simpl; try congruence.
  intro H. apply Qltb_true_iff in H. apply Qle_bool_iff. now apply Qlt_le_weak.
Qed.

Lemma not_gtb_geb (a b : jsnum) :
  number a -> number b -> gtb a b = false -> geb b a = true.
Proof.
  unfold number. destruct a, b; simpl; try congruence.
  intros _ _ H. apply Qltb_false_iff in H. now apply Qle_bool_iff.
Qed.

Lemma geb_trans (a b c : jsnum) : geb a b = true -> geb b c = true -> geb a c = true.
Proof.
  destruct a, b, c; simpl; try congruence.
  intros H1 H2. apply Qle_bool_iff in H1, H2. apply Qle_bool_iff.
  now apply Qle_trans with q0.
Qed.

Lemma insert_result_sorted (r : result) (l : list result) :
  number (result_score r) ->
  Forall (fun x => number (result_score x)) l ->
  StronglySorted scores_at_least l ->
  StronglySorted scores_at_least (insert_result r l).
Proof.
  intros Hr Hl Hs. induction l as [|y l IH]; cbn [insert_result].
  - constructor; [constructor | constructor].
  - apply Forall_cons_iff in Hl. destruct Hl as [Hy Hl].
    apply StronglySorted_inv in Hs. destruct Hs as [Hs Hall].
    destruct (gtb (result_score y) (result_score r)) eqn:E.
    + constructor; [now apply IH|].
      apply Forall_forall. intros x Hx. apply (proj1 (In_insert_result _ _ _)) in Hx.
      destruct Hx as [-> | Hx].
      * now apply gtb_geb.
      * exact (proj1 (Forall_forall _ _) Hall x Hx).
    + assert (Hry : scores_at_least r y) by (now apply not_gtb_geb).
      constructor; [constructor; assumption|].
      constructor; [exact Hry|].
      apply Forall_forall. intros x Hx. unfold scores_at_least.
      apply geb_trans with (result_score y); [exact Hry|].
      exact (proj1 (Forall_forall _ _) Hall x Hx).
Qed.

Lemma sort_results_sorted (l : list result) :
  Forall (fun x => number (result_score x)) l ->
  StronglySorted scores_at_least (sort_results l).
Proof.
  induction l as [|r l IH]; intro H; cbn [sort_results fold_right].
  - constructor.
  - apply Forall_cons_iff in H. destruct H as [Hr Hl]. fold (sort_results l).
    apply insert_result_sorted; [exact Hr | | now apply IH].
    apply Forall_forall. intros x Hx. apply (proj1 (In_sort_results _ _)) in Hx.
    exact (proj1 (Forall_forall _ _) Hl x Hx).
Qed.

Lemma Permutation_insert_result (r : result) (l : list result) :
  Permutation (insert_result r l) (r :: l).
Proof.
  induction l as [|y l IH]; cbn [insert_result]; [reflexivity|].
  destruct (gtb (result_score y) (result_score r)); [|reflexivity].
  rewrite IH. apply perm_swap.
Qed.

Lemma Permutation_sort_results (l : list result) : Permutation (sort_results l) l.
Proof.
  induction l as [|r l IH]; cbn [sort_results fold_right]; [reflexivity|].
  fold (sort_results l). rewrite Permutation_insert_result. now constructor.
Qed.

(** X8.  When no limit applies and [unsorted] is not set, [extract] returns
    its results by descending score (provided no score is [NaN]), and
    sorting neither drops nor repeats an entry. *)
Theorem extract_sorts_by_descending_score (e : Env.t) (query : jsval)
        (choices : collection) (o : ExtractOpt.t) (l : list result) :
  normalize_callable e query choices o ->
  extract e query choices o = Return l ->
  limit_applies o (numchoices choices) = false ->
  ExtractOpt.unsorted o = false ->
  (forall r, In r (scored e (setup_of e query o) choices) -> number (result_score r)) ->
  StronglySorted scores_at_least l
  /\ Permutation l (filter (fun r => gtb (result_score r)
                                         (cutoff_used (ExtractOpt.cutoff o)))
                           (scored e (setup_of e query o) choices)).
Proof.
  intros _ Hx Hl Hu Hnum. apply extract_return_inv in Hx. subst l.
  unfold ranked. rewrite Hl, Hu. cbn [negb]. split.
  - apply sort_results_sorted. apply Forall_forall. intros r Hr.
    apply filter_In in Hr. now apply Hnum.
  - apply Permutation_sort_results.
Qed.

(** X9.  With [unsorted] set, a limit has no effect on [extract]: it returns
    the retained entries in scan order whatever the limit. *)
Theorem extract_unsorted_ignores_limit (e : Env.t) (query : jsval)
        (choices : collection) (o : ExtractOpt.t) (limit : option Z) :
  normalize_callable e query choices o ->
  ExtractOpt.unsorted o = true ->
  extract e query choices (with_limit limit o) = extract e query choices o
  /\ forall l, extract e query choices o = Return l ->
               l = filter (fun r => gtb (result_score r)
                                        (cutoff_used (ExtractOpt.cutoff o)))
                          (scored e (setup_of e query o) choices).
Proof.
  intros _ Hu. split.
  - unfold extract. cbn [with_limit ExtractOpt.scoring ExtractOpt.scorer
                          ExtractOpt.processor ExtractOpt.cutoff ExtractOpt.unsorted
                          ExtractOpt.limit].
    unfold limit_applies.
    cbn [with_limit ExtractOpt.unsorted ExtractOpt.limit]. rewrite Hu. cbn [negb].
    destruct limit, (ExtractOpt.limit o); rewrite ?andb_false_r; reflexivity.
  - intros l Hx. apply extract_return_inv in Hx. subst l.
    unfold ranked, limit_applies. rewrite Hu.
    destruct (ExtractOpt.limit o); cbn [negb andb]; rewrite ?andb_false_r; reflexivity.
Qed.

(** ** [extract] with the default scorer *)

Lemma QRatio_nonneg (e : Env.t) (a b : jsval) (o : Opt.t) :
  normalize_keeps_text e ->
  exists z, QRatio e a b o = of_Z z /\ (0 <= z)%Z.
Proof.
  intro keeps. rewrite QRatio_unfold. cbv zeta.
  destruct (_ && _).
  - edestruct (@_ratio_range e keeps) as (z & Hz & H0 & _).
    exists z. split; [exact Hz | exact H0].
  - exists 0%Z. split; [reflexivity | lia].
Qed.

Lemma score_of_default (e : Env.t) (query : jsval) (o : ExtractOpt.t) (value : jsval) :
  ExtractOpt.scorer o = Absent \/ ExtractOpt.scorer o = Falsy ->
  exists a b o', score_of e (setup_of e query o) value = QRatio e a b o'.
Proof.
  intro Hs. unfold setup_of, scorer_used.
  destruct Hs as [-> | ->]; do 3 eexists; reflexivity.
Qed.

Lemma filter_all (A : Type) (f : A -> bool) (l : list A) :
  (forall x, In x l -> f x = true) -> filter f l = l.
Proof.
  induction l as [|x l IH]; intro H; cbn [filter]; [reflexivity|].
  rewrite (H x (or_introl eq_refl)). f_equal. apply IH. intros y Hy. apply H. now right.
Qed.

(** X12.  With the default scorer, no cutoff (or a cutoff of 0) and no limit
    in force, [extract] returns every candidate of the collection, each once
    with its key, and by descending score unless [unsorted] is set. *)
Theorem extract_by_default_returns_every_candidate (e : Env.t) (query : jsval)
        (choices : collection) (o : ExtractOpt.t) (l : list result) :
  normalize_callable e query choices o ->
  normalize_keeps_text e ->
  ExtractOpt.scorer o = Absent \/ ExtractOpt.scorer o = Falsy ->
  cutoff_used (ExtractOpt.cutoff o) = of_Z (-1) ->
  limit_applies o (numchoices choices) = false ->
  extract e query choices o = Return l ->
  Permutation (map (fun r => (fst (fst r), snd r)) l) (entries choices)
  /\ length l = numchoices choices
  /\ (ExtractOpt.unsorted o = false -> StronglySorted scores_at_least l).
Proof.
  intros _ keeps Hs Hc Hl Hx. apply extract_return_inv in Hx.
  assert (Hscore : forall r, In r (scored e (setup_of e query o) choices) ->
                             exists z, result_score r = of_Z z /\ (0 <= z)%Z).
  { intros r Hr. unfold scored in Hr. apply in_map_iff in Hr.
    destruct Hr as ([v k] & <- & _). unfold result_score. cbn [fst snd].
    destruct (@score_of_default e query o v Hs) as (a & b & o' & ->).
    now apply QRatio_nonneg. }
  rewrite Hc in Hx. rewrite filter_all in Hx.
  2:{ intros r Hr. destruct (Hscore r Hr) as (z & -> & Hz).
      unfold gtb, of_Z. apply Qltb_true_iff. rewrite <- Zlt_Qlt. lia. }
  assert (Hent : map (fun r : result => (fst (fst r), snd r))
                     (scored e (setup_of e query o) choices) = entries choices).
  { unfold scored. rewrite map_map. cbn [fst snd].
    rewrite <- (map_id (entries choices)) at 2. apply map_ext. now intros [v k]. }
  assert (Hlen : length (entries choices) = numchoices choices).
  { destruct choices; cbn [entries numchoices]; [| now rewrite length_map | reflexivity].
    rewrite length_combine, length_map, length_seq. lia. }
  assert (Hperm : Permutation l (scored e (setup_of e query o) choices)).
  { subst l. unfold ranked. rewrite Hl.
    destruct (negb (ExtractOpt.unsorted o)); [apply Permutation_sort_results | reflexivity]. }
  split; [|split].
  - rewrite <- Hent. now apply Permutation_map.
  - rewrite (Permutation_length Hperm). unfold scored. now rewrite length_map.
  - intro Hu. subst l. unfold ranked. rewrite Hl, Hu. cbn [negb].
    apply sort_results_sorted. apply Forall_forall. intros r Hr.
    destruct (Hscore r Hr) as (z & -> & _). apply number_of_Z.
Qed.

(** ** [extractAsync] against [extract] *)

Lemma eqb_eq (s t : jsstring) : Js.eqb s t = true -> s = t.
Proof.
  revert t. induction s as [|x s IH]; intros [|y t]; simpl; try congruence.
  intro H. apply andb_prop in H. destruct H as [H1 H2].
  apply N.eqb_eq in H1. apply IH in H2. congruence.
Qed.


Lemma nth_error_combine_seq (A : Type) (l : list A) (p start : nat) (d : A) :
  p < length l ->
  nth_error (combine l (map KIndex (seq start (length l)))) p
  = Some (nth p l d, KIndex (start + p)).
Proof.
  revert p start. induction l as [|x l IH]; intros p start Hp; simpl in Hp; [lia|].
  cbn [length seq map combine]. destruct p as [|p]; cbn [nth_error nth].
  - now rewrite Nat.add_0_r.
  - rewrite IH by lia. do 3 f_equal. lia.
Qed.

Section SearchLoop.

Variable e : Env.t.
Variable su : scan_setup.
Variable cutoff : jsnum.
Variable choices : collection.
Hypothesis distinct : distinct_keys choices.






End SearchLoop.




(** ** [distance] *)

Lemma eqb_sym (s t : jsstring) : Js.eqb s t = Js.eqb t s.
Proof.
  revert t. induction s as [|x s IH]; intros [|y t]; simpl; try reflexivity.
  now rewrite IH, N.eqb_sym.
Qed.

Lemma symbol_same_sym (e : Env.t) (o : Opt.t) :
  collator_symmetric e -> forall x y, Leven.symbol_same e o x y = Leven.symbol_same e o y x.
Proof.
  intros Hc x y. unfold Leven.symbol_same.
  destruct (Env.collator e) as [c|] eqn:E; [|apply eqb_sym].
  destruct (Opt.useCollator o); [now apply (Hc c) | apply eqb_sym].
Qed.

Lemma symbol_same_eq (e : Env.t) (o : Opt.t) :
  Env.collator e = None \/ Opt.useCollator o = false ->
  forall x y, Leven.symbol_same e o x y = true -> x = y.
Proof.
  intros Hc x y. unfold Leven.symbol_same.
  destruct (Env.collator e) as [c|] eqn:E; [|apply eqb_eq].
  destruct Hc as [Hc | Hc]; [discriminate|]. rewrite Hc. apply eqb_eq.
Qed.

(** The engine on code units is the engine on the one-unit symbols. *)
Lemma edit_distance_map (A B : Type) (f : A -> B) (same : B -> B -> bool)
      (subcost : Z) (a b : list A) :
  Leven.edit_distance (fun x y => same (f x) (f y)) subcost a b
  = Leven.edit_distance same subcost (map f a) (map f b).
Proof.
  revert b. induction a as [|x a IHa]; intro b.
  - simpl. now rewrite length_map.
  - induction b as [|y b IHb].
    + rewrite !edit_distance_nil_r. now rewrite length_map.
    + cbn [map]. rewrite !edit_distance_cons.
      rewrite (IHa (y :: b)), (IHa b). cbn [map]. cbn [map] in IHb. now rewrite IHb.
Qed.

Section EditDistanceLengths.

Variable A : Type.
Variable same : A -> A -> bool.
Variable subcost : Z.

(** Each symbol in excess costs an insertion or a deletion. *)
Lemma edit_distance_ge_diff (a b : list A) :
  (0 <= subcost)%Z ->
  (Z.abs (Z.of_nat (length a) - Z.of_nat (length b))
   <= Leven.edit_distance same subcost a b)%Z.
Proof.
  intro Hc. revert b. induction a as [|x a IHa]; intro b.
  - simpl. lia.
  - induction b as [|y b IHb].
    + rewrite edit_distance_nil_r. cbn [length]. lia.
    + rewrite edit_distance_cons.
      pose proof (IHa (y :: b)) as H1. pose proof (IHa b) as H2.
      cbn [length] in *. destruct (same x y); lia.
Qed.

(** With a substitution cost of at most 1, substituting along the shorter
    sequence and inserting or deleting the rest is enough. *)
Lemma edit_distance_le_max (a b : list A) :
  (subcost <= 1)%Z ->
  (Leven.edit_distance same subcost a b
   <= Z.max (Z.of_nat (length a)) (Z.of_nat (length b)))%Z.
Proof.
  intro Hc. revert b. induction a as [|x a IHa]; intro b.
  - simpl. lia.
  - destruct b as [|y b].
    + rewrite edit_distance_nil_r. lia.
    + rewrite edit_distance_cons. pose proof (IHa b) as H. cbn [length].
      destruct (same x y); lia.
Qed.

End EditDistanceLengths.

(** [distance] as the engine on the symbols of the two prepared texts. *)
Lemma distance_unfold (e : Env.t) (a b : jsstring) (o : Opt.t) :
  distance e a b o
  = of_Z (Leven.edit_distance (Leven.symbol_same e o) (Leven.cost o)
                              (symbols o (prepared_text e o a))
                              (symbols o (prepared_text e o b))).
Proof.
  unfold distance, prepared_text, symbols, Leven._iLeven, Leven._leven, Leven.unit_same.
  rewrite <- (clone_astral o).
  assert (Hs : forall o', Leven.symbol_same e (Utils.clone_and_set_option_defaults o')
                          = Leven.symbol_same e o').
  { intro o'. unfold Leven.symbol_same. now rewrite clone_useCollator. }
  rewrite <- (Hs o).
  assert (Hc : Leven.cost o = Leven.cost (Utils.clone_and_set_option_defaults o)).
  { unfold Leven.cost. now rewrite clone_subcost. }
  rewrite Hc.
  set (o' := Utils.clone_and_set_option_defaults o).
  destruct (Opt.subcost o') as [c|] eqn:Ec.
  - destruct (Opt.astral o'); [reflexivity|].
    f_equal. unfold Leven.cost. rewrite Ec.
    apply (edit_distance_map (fun c => [c]) (Leven.symbol_same e o')).
  - cbn [Opt.astral Opt.set_subcost].
    destruct (Opt.astral o').
    + unfold Leven.cost, Leven.symbol_same. cbn [Opt.subcost Opt.set_subcost Opt.useCollator].
      now rewrite Ec.
    + f_equal. unfold Leven.cost. cbn [Opt.subcost Opt.set_subcost]. rewrite Ec.
      apply (edit_distance_map (fun c => [c])
                               (Leven.symbol_same e (Opt.set_subcost (Some 1%Z) o'))).
Qed.

(** X13.  [distance] does not depend on the order of its two strings,
    provided the collator (when one is used) does not. *)
Theorem distance_symmetric (e : Env.t) (a b : jsstring) (o : Opt.t) :
  collator_symmetric e ->
  distance e a b o = distance e b a o.
Proof.
  intro Hc. rewrite !distance_unfold. f_equal.
  apply edit_distance_sym. now apply symbol_same_sym.
Qed.

(** X14.  [distance] is a whole number.  With a substitution cost that is
    not negative it lies between the difference and the sum of the two
    symbol counts; with the default cost of 1 it is at most the larger of
    the two counts. *)
Theorem distance_bounds (e : Env.t) (a b : jsstring) (o : Opt.t) :
  exists d n1 n2,
    distance e a b o = of_Z d
    /\ n1 = Z.of_nat (length (symbols o (prepared_text e o a)))
    /\ n2 = Z.of_nat (length (symbols o (prepared_text e o b)))
    /\ (subcost_nonneg o -> (Z.abs (n1 - n2) <= d <= n1 + n2)%Z)
    /\ (Opt.subcost o = None -> (d <= Z.max n1 n2)%Z).
Proof.
  rewrite distance_unfold. do 3 eexists.
  split; [reflexivity|]. split; [reflexivity|]. split; [reflexivity|]. split.
  - intro Hc. split.
    + apply edit_distance_ge_diff. unfold subcost_nonneg in Hc. unfold Leven.cost.
      destruct (Opt.subcost o); lia.
    + rewrite <- Nat2Z.inj_add. apply edit_distance_le_sum.
  - intro Hn. apply edit_distance_le_max. unfold Leven.cost. rewrite Hn. lia.
Qed.

Lemma concat_toArray (s : jsstring) : concat (Lodash._toArray s) = s.
Proof.
  enough (H : concat (Lodash._toArray s) = s
              /\ forall c, concat (Lodash._toArray (c :: s)) = c :: s) by apply H.
  induction s as [|d s [IH1 IH2]].
  - split; [reflexivity | intro c; reflexivity].
  - split; [apply IH2|]. intro c.
    change (Lodash._toArray (c :: d :: s))
      with (if Lodash.is_high_surrogate c && Lodash.is_low_surrogate d
            then [c; d] :: Lodash._toArray s
            else [c] :: Lodash._toArray (d :: s)).
    destruct (_ && _); cbn [concat app]; [now rewrite IH1 | now rewrite IH2].
Qed.

Lemma symbols_inj (o : Opt.t) (s t : jsstring) : symbols o s = symbols o t -> s = t.
Proof.
  unfold symbols. destruct (Opt.astral o); intro H.
  - rewrite <- (concat_toArray s), <- (concat_toArray t). now rewrite H.
  - revert t H. induction s as [|x s IH]; intros [|y t] H; cbn [map] in H;
      try discriminate; [reflexivity|].
    injection H as -> H. f_equal. now apply IH.
Qed.

(** X15.  With a positive substitution cost and raw symbol equality,
    [distance] is 0 exactly when the two prepared texts are the same. *)
Theorem distance_zero_iff_same_text (e : Env.t) (a b : jsstring) (o : Opt.t) :
  (forall c, Opt.subcost o = Some c -> (0 < c)%Z) ->
  Env.collator e = None \/ Opt.useCollator o = false ->
  distance e a b o = of_Z 0 <-> prepared_text e o a = prepared_text e o b.
Proof.
  intros Hc Hraw. rewrite distance_unfold.
  assert (Hpos : (0 < Leven.cost o)%Z).
  { unfold Leven.cost. destruct (Opt.subcost o) as [c|]; [now apply Hc | lia]. }
  split; intro H.
  - apply of_Z_inj in H. apply (symbols_inj o).
    apply (@edit_distance_zero _ (Leven.symbol_same e o) (Leven.cost o) Hpos); [|exact H].
    now apply symbol_same_eq.
  - rewrite H. f_equal. apply edit_distance_refl; [lia|].
    intro x. unfold Leven.symbol_same.
    destruct (Env.collator e) as [c|] eqn:E; [|apply eqb_refl].
    destruct Hraw as [Hraw | Hraw]; [discriminate|]. rewrite Hraw. apply eqb_refl.
Qed.

(** ** Symmetry of the ratios by edit distance *)

Lemma _ratio_sym (e : Env.t) (a b : jsval) (o : Opt.t) :
  collator_symmetric e ->
  difflib_selected o = false ->
  _ratio e a b o = _ratio e b a o.
Proof.
  intros Hc Hd.
  destruct (Utils.validate a) eqn:Va;
    [|now rewrite (_ratio_invalid_l e a b o Va), (_ratio_invalid_r e b a o Va)].
  destruct (Utils.validate b) eqn:Vb;
    [|now rewrite (_ratio_invalid_r e a b o Vb), (_ratio_invalid_l e b a o Vb)].
  apply validate_inv in Va, Vb. destruct Va as (c1 & s1 & ->), Vb as (c2 & s2 & ->).
  rewrite !_ratio_strings by congruence. rewrite Hd.
  assert (Hu : forall x y, Leven.unit_same e o x y = Leven.unit_same e o y x).
  { intros x y. unfold Leven.unit_same. now apply symbol_same_sym. }
  destruct (Opt.astral o); cbv zeta.
  - rewrite (Nat.add_comm (length (Lodash._toArray _))).
    f_equal. apply edit_distance_sym. now apply symbol_same_sym.
  - rewrite (Nat.add_comm (length (c1 :: s1))). f_equal. now apply edit_distance_sym.
Qed.

(** X16.  With the edit-distance algorithm, [QRatio] and [token_sort_ratio]
    do not depend on the order of their two inputs, provided the collator
    (when one is used) does not. *)
Theorem ratios_by_edit_distance_symmetric (e : Env.t) (a b : jsval) (o : Opt.t) :
  collator_symmetric e ->
  difflib_selected o = false ->
  QRatio e a b o = QRatio e b a o
  /\ token_sort_ratio e a b o = token_sort_ratio e b a o.
Proof.
  intros Hc Hd.
  assert (Hd' : difflib_selected (Utils.clone_and_set_option_defaults o) = false)
    by now rewrite clone_difflib_selected.
  split.
  - rewrite !QRatio_unfold. cbv zeta. rewrite andb_comm.
    destruct (_ && _); [now apply _ratio_sym | reflexivity].
  - unfold token_sort_ratio.
    destruct (Utils.validate (preprocessed e _ a)), (Utils.validate (preprocessed e _ b));
      cbn [negb]; try reflexivity.
    now apply _ratio_sym.
Qed.

(** ** Inputs the scorers reject *)

Lemma prepared_not_string (e : Env.t) (o : Opt.t) (a : jsval) :
  (forall s, a <> VString s) -> Utils.validate (prepared e o a) = false.
Proof.
  intro H. unfold prepared, preprocessed, full_process.
  destruct a as [s| |]; [now contradiction (H s) | |];
    destruct (Opt.truthy _); reflexivity.
Qed.

(** X17.  Each scorer returns 0 when one of its inputs is not a string, or
    is the empty string once prepared. *)
Theorem scorers_return_0_on_invalid_input (e : Env.t) (a b : jsval) (o : Opt.t) :
  (forall s, a <> VString s) \/ prepared e o a = VString []
  \/ (forall s, b <> VString s) \/ prepared e o b = VString [] ->
  QRatio e a b o = of_Z 0
  /\ partial_ratio e a b o = of_Z 0
  /\ token_sort_ratio e a b o = of_Z 0
  /\ partial_token_sort_ratio e a b o = of_Z 0
  /\ token_set_ratio e a b o = of_Z 0
  /\ partial_token_set_ratio e a b o = of_Z 0
  /\ WRatio e a b o = of_Z 0.
Proof.
  intro H.
  assert (Hv : Utils.validate (prepared e o a) = false
               \/ Utils.validate (prepared e o b) = false).
  { destruct H as [H | [H | [H | H]]].
    - left. now apply prepared_not_string.
    - left. now rewrite H.
    - right. now apply prepared_not_string.
    - right. now rewrite H. }
  unfold prepared in Hv.
  unfold QRatio, partial_ratio, token_sort_ratio, partial_token_sort_ratio,
    token_set_ratio, partial_token_set_ratio, WRatio.
  destruct Hv as [Hv | Hv]; rewrite Hv; cbn [negb];
    repeat split; try reflexivity;
    destruct (Utils.validate (preprocessed e _ a)); reflexivity.
Qed.

(** ** The keys of the results of [extract] *)

Lemma entries_array (l : list jsval) (v : jsval) (k : key) :
  In (v, k) (entries (CArray l)) -> exists i, k = KIndex i /\ nth_error l i = Some v.
Proof.
  cbn [entries]. intro H. apply In_nth_error in H. destruct H as [p Hp].
  assert (Hlt : p < length l).
  { assert (Hc : p < length (combine l (map KIndex (seq 0 (length l)))))
      by (apply nth_error_Some; congruence).
    rewrite length_combine, length_map, length_seq in Hc. lia. }
  rewrite (nth_error_combine_seq l 0 VOther Hlt) in Hp. injection Hp as <- <-.
  exists p. split; [reflexivity|]. now apply nth_error_nth'.
Qed.

Lemma filter_keeps_keys_distinct (keep : result -> bool) (results : list result) :
  NoDup (map snd results) -> NoDup (map snd (filter keep results)).
Proof.
  induction results as [|r results IH]; cbn [map filter]; intro H; [constructor|].
  apply NoDup_cons_iff in H. destruct H as [Hr Hrest].
  destruct (keep r); [|now apply IH]. cbn [map]. constructor; [|now apply IH].
  intro Hin. apply Hr. apply in_map_iff in Hin. destruct Hin as (y & Hy & Hin).
  apply filter_In in Hin. apply in_map_iff. exists y. tauto.
Qed.

Lemma NoDup_map_injective (A B : Type) (f : A -> B) (l : list A) :
  (forall x y, f x = f y -> x = y) -> NoDup l -> NoDup (map f l).
Proof.
  intros Hf. induction 1 as [|x l Hx _ IH]; cbn [map]; constructor; [|exact IH].
  intro Hin. apply in_map_iff in Hin. destruct Hin as (y & E & Hy).
  apply Hf in E. now subst y.
Qed.

Lemma NoDup_keys (choices : collection) :
  distinct_keys choices -> NoDup (map snd (entries choices)).
Proof.
  destruct choices as [l | l |]; cbn [distinct_keys entries]; intro H.
  - assert (Hm : map snd (combine l (map KIndex (seq 0 (length l))))
                 = map KIndex (seq 0 (length l))).
    { generalize 0. induction l as [|x l IH]; intro n; cbn [length seq map combine];
        [reflexivity | now rewrite IH]. }
    rewrite Hm. apply NoDup_map_injective; [|apply seq_NoDup].
    intros x y E. now injection E.
  - rewrite map_map. cbn [snd fst].
    rewrite <- (map_map fst KName).
    apply NoDup_map_injective; [|exact H].
    intros x y E. now injection E.
  - constructor.
Qed.

(** X18.  When no limit applies, the key of each result of [extract] locates
    its value in the collection (an index in an array, a property name in an
    object), and no key occurs twice. *)
Theorem extract_keys_locate_candidates (e : Env.t) (query : jsval)
        (choices : collection) (o : ExtractOpt.t) (l : list result) :
  normalize_callable e query choices o ->
  distinct_keys choices ->
  limit_applies o (numchoices choices) = false ->
  extract e query choices o = Return l ->
  (forall value score k, In (value, score, k) l ->
     match choices, k with
     | CArray c, KIndex i => nth_error c i = Some value
     | CObject c, KName n => In (n, value) c
     | _, _ => False
     end)
  /\ NoDup (map snd l).
Proof.
  intros _ Hd Hl Hx. apply extract_return_inv in Hx.
  set (kept := filter (fun r => gtb (result_score r) (cutoff_used (ExtractOpt.cutoff o)))
                      (scored e (setup_of e query o) choices)) in *.
  assert (Hperm : Permutation l kept).
  { subst l. unfold ranked. rewrite Hl.
    destruct (negb (ExtractOpt.unsorted o)); [apply Permutation_sort_results | reflexivity]. }
  split.
  - intros value score k Hin.
    apply (Permutation_in _ Hperm) in Hin. unfold kept in Hin.
    apply filter_In in Hin. destruct Hin as [Hin _].
    unfold scored in Hin. apply in_map_iff in Hin.
    destruct Hin as ([v k'] & E & Hin). cbn [fst snd] in E. injection E as -> _ ->.
    destruct choices as [c | c |].
    + apply entries_array in Hin. destruct Hin as (i & -> & Hi). exact Hi.
    + cbn [entries] in Hin. apply in_map_iff in Hin.
      destruct Hin as ([n v'] & E & Hin). cbn [fst snd] in E. injection E as -> <-.
      exact Hin.
    + destruct Hin.
  - apply (Permutation_NoDup (l := map snd kept)).
    + apply Permutation_map. now symmetry.
    + unfold kept. apply filter_keeps_keys_distinct.
      unfold scored. rewrite map_map. cbn [snd]. now apply NoDup_keys.
Qed.

(** ** The scores [extract] reports *)

(** [_ratio] reads five members of the options. *)
Lemma _ratio_ext (e : Env.t) (a b : jsval) (o1 o2 : Opt.t) :
  Opt.ratio_alg o1 = Opt.ratio_alg o2 ->
  Opt.subcost o1 = Opt.subcost o2 ->
  Opt.astral o1 = Opt.astral o2 ->
  Opt.normalize o1 = Opt.normalize o2 ->
  Opt.useCollator o1 = Opt.useCollator o2 ->
  _ratio e a b o1 = _ratio e a b o2.
Proof.
  intros H1 H2 H3 H4 H5.
  destruct (Utils.validate a) eqn:Va; [|now rewrite !_ratio_invalid_l].
  destruct (Utils.validate b) eqn:Vb; [|now rewrite !_ratio_invalid_r].
  apply validate_inv in Va, Vb. destruct Va as (c1 & s1 & ->), Vb as (c2 & s2 & ->).
  rewrite !_ratio_strings by congruence.
  unfold difflib_selected, ratio_subcost, Leven.unit_same, Leven.symbol_same.
  rewrite H1, H2, H3, H4, H5. reflexivity.
Qed.

Lemma _partial_ratio_ext (e : Env.t) (a b : jsval) (o1 o2 : Opt.t) :
  Opt.ratio_alg o1 = Opt.ratio_alg o2 ->
  Opt.subcost o1 = Opt.subcost o2 ->
  Opt.astral o1 = Opt.astral o2 ->
  Opt.normalize o1 = Opt.normalize o2 ->
  Opt.useCollator o1 = Opt.useCollator o2 ->
  _partial_ratio e a b o1 = _partial_ratio e a b o2.
Proof.
  intros H1 H2 H3 H4 H5.
  destruct (Utils.validate a) eqn:Va; [|now rewrite !_partial_ratio_invalid_l].
  destruct (Utils.validate b) eqn:Vb; [|now rewrite !_partial_ratio_invalid_r].
  apply validate_inv in Va, Vb. destruct Va as (c1 & s1 & ->), Vb as (c2 & s2 & ->).
  rewrite !_partial_ratio_strings by congruence. cbv zeta.
  assert (Hw : forall shorter longer,
             window_ratios e shorter longer o1 = window_ratios e shorter longer o2).
  { intros shorter longer. unfold window_ratios. apply map_ext. intro x.
    now apply _ratio_ext. }
  now rewrite Hw.
Qed.

Lemma clone_ratio_alg (o : Opt.t) :
  Opt.ratio_alg (Utils.clone_and_set_option_defaults o) = Opt.ratio_alg o.
Proof. clone_cases o; reflexivity. Qed.

Lemma preprocessed_off (e : Env.t) (o : Opt.t) (x : jsval) :
  Opt.full_process o = Some false ->
  preprocessed e (Utils.clone_and_set_option_defaults o) x = x.
Proof.
  intro H. unfold preprocessed, Utils.clone_and_set_option_defaults. rewrite H.
  destruct (Opt.force_ascii o); cbn [Opt.full_process Opt.set_force_ascii];
    rewrite ?H; reflexivity.
Qed.

(** The score of one candidate under a scorer that compares the two texts
    as they are, when [extract] does not normalise them itself. *)
Lemma score_of_plain (e : Env.t) (query : jsval) (o : ExtractOpt.t) (value : jsval)
      (f : jsfunction) :
  scorer_used e (ExtractOpt.scorer o) = f ->
  fn_name f = "QRatio"%string \/ fn_name f = "partial_ratio"%string ->
  Opt.astral (ExtractOpt.scoring o) && Opt.normalize (ExtractOpt.scoring o) = false ->
  let options := Utils.clone_and_set_option_defaults (ExtractOpt.scoring o) in
  score_of e (setup_of e query o) value
  = fn_call f (preprocessed e options query)
              (preprocessed e options (processor_used (ExtractOpt.processor o) value))
              (Opt.set_proc_sorted false
                 (Opt.set_tokens None (Opt.set_full_process (Some false) options))).
Proof.
  intros Hf Hname Hn options. unfold setup_of. rewrite Hf. fold options.
  assert (Hn' : Opt.astral options && Opt.normalize options = false).
  { unfold options. now rewrite clone_astral, clone_normalize. }
  unfold score_of, setup.
  cbn [su_tsort su_tset su_isCustom su_options su_scorer su_query su_processor
       su_pre_processor su_normalize].
  assert (Hnv : forall v, normalize_value e false v = v) by (intros [s| |]; reflexivity).
  destruct Hname as [Hname | Hname]; rewrite Hname;
    cbn [Utils.isCustomFunc Utils.builtin_names existsb String.eqb Ascii.eqb Bool.eqb
         orb andb negb];
    cbn [Opt.astral Opt.normalize Opt.set_full_process]; rewrite Hn';
    cbn [andb]; rewrite !Hnv; unfold preprocessed;
    destruct (Opt.truthy (Opt.full_process options)); reflexivity.
Qed.

(** X19.  With the scorer [QRatio] (the default) or [partial_ratio], and
    when it does not normalise the inputs itself, [extract] reports for each
    candidate the score the scorer gives the query and the processed
    candidate under the caller's options: preparing the inputs once, before
    the scan, changes no score. *)
Theorem extract_reports_the_score_of_the_scorer (e : Env.t) (query : jsval)
        (choices : collection) (o : ExtractOpt.t) (l : list result) :
  scorer_used e (ExtractOpt.scorer o) = QRatio_function e
  \/ scorer_used e (ExtractOpt.scorer o) = partial_ratio_function e ->
  Opt.astral (ExtractOpt.scoring o) && Opt.normalize (ExtractOpt.scoring o) = false ->
  limit_applies o (numchoices choices) = false ->
  extract e query choices o = Return l ->
  forall value score k, In (value, score, k) l ->
    score = fn_call (scorer_used e (ExtractOpt.scorer o)) query
                    (processor_used (ExtractOpt.processor o) value)
                    (ExtractOpt.scoring o).
Proof.
  intros Hf Hn Hl Hx value score k Hin.
  apply extract_return_inv in Hx.
  assert (Hperm : Permutation l
             (filter (fun r => gtb (result_score r) (cutoff_used (ExtractOpt.cutoff o)))
                     (scored e (setup_of e query o) choices))).
  { subst l. unfold ranked. rewrite Hl.
    destruct (negb (ExtractOpt.unsorted o)); [apply Permutation_sort_results | reflexivity]. }
  apply (Permutation_in _ Hperm) in Hin. apply filter_In in Hin. destruct Hin as [Hin _].
  unfold scored in Hin. apply in_map_iff in Hin.
  destruct Hin as ([v k'] & E & _). cbn [fst snd] in E. injection E as -> <- _.
  set (options := Utils.clone_and_set_option_defaults (ExtractOpt.scoring o)).
  set (scan_options := Opt.set_proc_sorted false
                         (Opt.set_tokens None (Opt.set_full_process (Some false) options))).
  set (c := processor_used (ExtractOpt.processor o) value).
  assert (Hpre : forall x, preprocessed e (Utils.clone_and_set_option_defaults scan_options) x
                           = x).
  { intro x. now apply preprocessed_off. }
  destruct Hf as [Hf | Hf].
  - rewrite (@score_of_plain e query o value _ Hf (or_introl eq_refl) Hn). rewrite Hf.
    fold options c scan_options. cbn [fn_call QRatio_function].
    rewrite (QRatio_unfold e _ _ scan_options), (QRatio_unfold e query c _). cbv zeta.
    rewrite !Hpre. fold options.
    destruct (Utils.validate _ && Utils.validate _); [|reflexivity].
    rewrite <- (_ratio_clone e _ _ (ExtractOpt.scoring o)). fold options.
    apply _ratio_ext; reflexivity.
  - rewrite (@score_of_plain e query o value _ Hf (or_intror eq_refl) Hn). rewrite Hf.
    fold options c scan_options. cbn [fn_call partial_ratio_function].
    rewrite (partial_ratio_unfold e _ _ scan_options), (partial_ratio_unfold e query c _).
    unfold prepared. rewrite !Hpre. fold options.
    destruct (Utils.validate _ && Utils.validate _); [|reflexivity].
    rewrite <- (_partial_ratio_clone e _ _ (ExtractOpt.scoring o)). fold options.
    apply _partial_ratio_ext; reflexivity.
Qed.

(** ** Token sets *)

Lemma whitespace_space : is_whitespace 32%N = true.
Proof. reflexivity. Qed.

Lemma solid_starts (t : jsstring) : solid t -> starts_solid t.
Proof.
  intros [Hn Hall]. destruct t as [|c t]; [congruence|].
  now apply Forall_inv in Hall.
Qed.

Lemma solid_rev (t : jsstring) : solid t -> solid (rev t).
Proof.
  intros [Hn Hall]. split.
  - intro E. apply Hn. rewrite <- (rev_involutive t), E. reflexivity.
  - now apply Forall_rev.
Qed.

Lemma starts_solid_app (x y : jsstring) : starts_solid x -> starts_solid (x ++ y).
Proof. destruct x; simpl; tauto. Qed.

Lemma trim_start_solid (x : jsstring) : starts_solid x -> trim_start x = x.
Proof. destruct x as [|c x]; simpl; [tauto|]. now intros ->. Qed.

Lemma trim_solid (x : jsstring) : starts_solid x -> starts_solid (rev x) -> trim x = x.
Proof.
  intros H1 H2. unfold trim. rewrite (@trim_start_solid _ H1), (@trim_start_solid _ H2).
  apply rev_involutive.
Qed.

Lemma trim_solid_space (x : jsstring) :
  starts_solid x -> starts_solid (rev x) -> trim (x ++ lit " ") = x.
Proof.
  intros H1 H2. unfold trim.
  rewrite (@trim_start_solid _ (@starts_solid_app _ _ H1)).
  change (lit " ") with [32%N]. rewrite rev_app_distr. cbn [rev app trim_start].
  rewrite whitespace_space, (@trim_start_solid _ H2). apply rev_involutive.
Qed.

(** The tokens joined by single spaces start and end with a token. *)
Lemma join_solid (l : list jsstring) :
  l <> [] -> Forall solid l ->
  starts_solid (join (lit " ") l) /\ starts_solid (rev (join (lit " ") l)).
Proof.
  induction l as [|s l IH]; [congruence|]. intros _ H.
  apply Forall_cons_iff in H. destruct H as [Hs Hl].
  destruct l as [|t l].
  - cbn [join]. split; [now apply solid_starts | now apply solid_starts, solid_rev].
  - change (join (lit " ") (s :: t :: l)) with (s ++ lit " " ++ join (lit " ") (t :: l)).
    destruct (IH ltac:(discriminate) Hl) as [_ IH2]. split.
    + now apply starts_solid_app, solid_starts.
    + rewrite !rev_app_distr, <- app_assoc. now apply starts_solid_app.
Qed.

Lemma runs_solid (cur s : jsstring) :
  Forall (fun c => is_whitespace c = false) cur -> Forall solid (runs cur s).
Proof.
  revert cur. induction s as [|c s IH]; intros cur Hcur; cbn [runs].
  - destruct cur as [|d cur]; [constructor|]. constructor; [|constructor].
    apply solid_rev. split; [discriminate | exact Hcur].
  - destruct (is_whitespace c) eqn:E.
    + destruct cur as [|d cur]; [now apply IH|]. constructor; [|now apply IH].
      apply solid_rev. split; [discriminate | exact Hcur].
    + apply IH. now constructor.
Qed.

Lemma In_uniq_acc (l acc : list jsstring) (x : jsstring) :
  In x (fold_left (fun acc s => if existsb (Js.eqb s) acc then acc else acc ++ [s]) l acc)
  <-> In x acc \/ In x l.
Proof.
  revert acc. induction l as [|s l IH]; intro acc; cbn [fold_left].
  - simpl. tauto.
  - rewrite IH. destruct (existsb (Js.eqb s) acc) eqn:E.
    + apply existsb_exists in E. destruct E as (y & Hy & E). apply eqb_eq in E. subst y.
      simpl. intuition congruence.
    + rewrite in_app_iff. simpl. intuition congruence.
Qed.

Lemma In_uniq (l : list jsstring) (x : jsstring) : In x (Utils.uniq l) <-> In x l.
Proof. unfold Utils.uniq. rewrite In_uniq_acc. simpl. tauto. Qed.

Lemma tokenize_solid (str : jsval) : Forall solid (Utils.tokenize str).
Proof.
  destruct str as [s| |]; cbn [Utils.tokenize]; try constructor.
  apply Forall_forall. intros x Hx. apply (proj1 (In_uniq _ _)) in Hx.
  exact (proj1 (Forall_forall _ _) (@runs_solid [] s (Forall_nil _)) x Hx).
Qed.

Lemma mem_In (s : jsstring) (l : list jsstring) : Lodash.mem s l = true <-> In s l.
Proof.
  unfold Lodash.mem. rewrite existsb_exists. split.
  - intros (y & Hy & E). apply eqb_eq in E. now subst y.
  - intro H. exists s. split; [exact H | apply eqb_refl].
Qed.

Lemma In_intersect (a b : list jsstring) (x : jsstring) :
  In x (Lodash._intersect a b) <-> In x a /\ In x b.
Proof.
  unfold Lodash._intersect. rewrite In_uniq, filter_In, mem_In. tauto.
Qed.

Lemma In_difference (a b : list jsstring) (x : jsstring) :
  In x (Lodash._difference a b) <-> In x a /\ ~ In x b.
Proof.
  unfold Lodash._difference. rewrite filter_In, negb_true_iff.
  rewrite <- (mem_In x b). destruct (Lodash.mem x b); split; intros [H1 H2];
    split; try assumption; try discriminate; try reflexivity.
  now contradiction H2.
Qed.

Lemma difference_of_subset (a b : list jsstring) :
  (forall t, In t a -> In t b) -> Lodash._difference a b = [].
Proof.
  intro H. destruct (Lodash._difference a b) as [|x l] eqn:E; [reflexivity|].
  assert (Hx : In x (Lodash._difference a b)) by (rewrite E; now left).
  apply (proj1 (In_difference _ _ _)) in Hx. destruct Hx as [Ha Hb]. now apply H in Ha.
Qed.

Lemma In_insert (s x : jsstring) (l : list jsstring) :
  In x (Js.insert s l) <-> x = s \/ In x l.
Proof.
  induction l as [|t l IH]; cbn [Js.insert].
  - simpl. intuition congruence.
  - destruct (Js.ltb t s); simpl in *; rewrite ?IH; intuition congruence.
Qed.

Lemma In_sort (x : jsstring) (l : list jsstring) : In x (Js.sort l) <-> In x l.
Proof.
  induction l as [|s l IH]; cbn [Js.sort fold_right]; [tauto|].
  fold (Js.sort l). rewrite In_insert, IH. simpl. intuition congruence.
Qed.

Lemma sort_nil_inv (l : list jsstring) : Js.sort l = [] -> l = [].
Proof.
  destruct l as [|s l]; [reflexivity|]. intro E.
  assert (H : In s (Js.sort (s :: l))) by (apply (proj2 (In_sort _ _)); now left).
  rewrite E in H. destruct H.
Qed.

(** The sorted tokens of a list of tokens, joined: a text without white
    space at either end, unless there is no token. *)
Lemma sorted_tokens_solid (l : list jsstring) :
  l <> [] -> Forall solid l ->
  starts_solid (join (lit " ") (Js.sort l))
  /\ starts_solid (rev (join (lit " ") (Js.sort l))).
Proof.
  intros Hn Hl. apply join_solid.
  - intro E. now apply sort_nil_inv in E.
  - apply Forall_forall. intros x Hx. apply (proj1 (In_sort _ _)) in Hx.
    exact (proj1 (Forall_forall _ _) Hl x Hx).
Qed.

Lemma starts_solid_nonempty (x : jsstring) : starts_solid x -> x <> [].
Proof. destruct x; simpl; [tauto | discriminate]. Qed.

(** ** The maximum of percentages *)

Lemma Math_max_100 (l : list jsnum) :
  Forall percentage l -> In (of_Z 100) l -> Math_max l = of_Z 100.
Proof.
  induction l as [|x l IH]; intros Hall Hin; [destruct Hin|].
  apply Forall_cons_iff in Hall. destruct Hall as [(z & -> & Hz) Hl].
  cbn [Math_max fold_right]. fold (Math_max l).
  destruct l as [|y l].
  - destruct Hin as [E | []]. rewrite E. reflexivity.
  - destruct (@Math_max_percentage (y :: l) ltac:(discriminate) Hl) as (z' & Hz' & Hr).
    rewrite Hz'. cbn [of_Z max2].
    destruct (Qle_bool (inject_Z z) (inject_Z z')) eqn:E.
    + destruct Hin as [Hin | Hin].
      * apply of_Z_inj in Hin. subst z. apply Qle_bool_iff in E.
        rewrite <- Zle_Qle in E. replace z' with 100%Z by lia. reflexivity.
      * fold (of_Z z'). rewrite <- Hz'. now apply IH.
    + destruct Hin as [Hin | Hin]; [exact Hin|].
      rewrite (IH Hl Hin) in Hz'. apply of_Z_inj in Hz'. subst z'.
      assert (Hle : Qle_bool (inject_Z z) (inject_Z 100) = true)
        by (apply Qle_bool_iff; rewrite <- Zle_Qle; lia).
      congruence.
Qed.

(** ** [_token_set] on inputs that share tokens *)

Section TokenSet.

Variable e : Env.t.
Hypothesis reflexive : collator_reflexive e.
Hypothesis keeps : normalize_keeps_text e.

Lemma _partial_ratio_of_prefix (s post : jsstring) (o : Opt.t) :
  s <> [] -> subcost_nonneg o ->
  _partial_ratio e (VString s) (VString (s ++ post)) o = of_Z 100.
Proof.
  intros Hs Hc.
  assert (Hlong : s ++ post <> []) by (destruct s; [congruence | discriminate]).
  rewrite _partial_ratio_strings by assumption. cbv zeta.
  replace (length s <=? length (s ++ post)) with true
    by (symmetry; apply Nat.leb_le; rewrite length_app; lia).
  destruct (@window_ratios_of_prefix e s post o Hs Hc (fun _ => reflexive)
              (fun _ _ => keeps)) as (rest & Hw).
  rewrite Hw. reflexivity.
Qed.

(** The intersection followed by a sorted difference, trimmed: the
    intersection itself when the difference is empty, and a text that
    starts with it otherwise. *)
Lemma combined_shape (t1 t2 : list jsstring) :
  Forall solid t1 ->
  Lodash._intersect t1 t2 <> [] ->
  let sorted_sect := join (lit " ") (Js.sort (Lodash._intersect t1 t2)) in
  trim sorted_sect = sorted_sect
  /\ sorted_sect <> []
  /\ forall d, Forall solid d ->
       exists post,
         trim (sorted_sect ++ lit " " ++ join (lit " ") (Js.sort d)) = sorted_sect ++ post
         /\ (d = [] -> post = []).
Proof.
  intros H1 Hne sorted_sect.
  assert (Hsect : Forall solid (Lodash._intersect t1 t2)).
  { apply Forall_forall. intros x Hx. apply (proj1 (In_intersect _ _ _)) in Hx.
    exact (proj1 (Forall_forall _ _) H1 x (proj1 Hx)). }
  destruct (@sorted_tokens_solid _ Hne Hsect) as [Hs Hr]. fold sorted_sect in Hs, Hr.
  split; [now apply trim_solid|]. split; [now apply starts_solid_nonempty|].
  intros d Hd. destruct d as [|x d].
  - exists []. split; [|reflexivity]. cbn [Js.sort fold_right join].
    rewrite !app_nil_r. now apply trim_solid_space.
  - exists (lit " " ++ join (lit " ") (Js.sort (x :: d))). split; [|discriminate].
    destruct (@sorted_tokens_solid (x :: d) ltac:(discriminate) Hd) as [_ Hdr].
    apply trim_solid; [now apply starts_solid_app|].
    rewrite !rev_app_distr, <- app_assoc. now apply starts_solid_app.
Qed.

Lemma difference_solid (t1 t2 : list jsstring) :
  Forall solid t1 -> Forall solid (Lodash._difference t1 t2).
Proof.
  intro H. apply Forall_forall. intros x Hx. apply (proj1 (In_difference _ _ _)) in Hx.
  exact (proj1 (Forall_forall _ _) H x (proj1 Hx)).
Qed.

Lemma intersect_comm_nonempty (t1 t2 : list jsstring) :
  (exists t, In t t1 /\ In t t2) -> Lodash._intersect t1 t2 <> [].
Proof.
  intros (t & H1 & H2) E.
  assert (H : In t (Lodash._intersect t1 t2)) by (apply In_intersect; tauto).
  rewrite E in H. destruct H.
Qed.

Lemma _token_set_common (str1 str2 : jsval) (o : Opt.t) :
  subcost_nonneg o ->
  Opt.tokens o = None ->
  (exists t, In t (Utils.tokenize str1) /\ In t (Utils.tokenize str2)) ->
  Opt.partial o = true
  \/ (forall t, In t (Utils.tokenize str1) -> In t (Utils.tokenize str2))
  \/ (forall t, In t (Utils.tokenize str2) -> In t (Utils.tokenize str1)) ->
  _token_set e str1 str2 o = of_Z 100.
Proof.
  intros Hc Htok Hcommon Hcase. unfold _token_set. rewrite Htok.
  set (t1 := Utils.tokenize str1) in *. set (t2 := Utils.tokenize str2) in *.
  pose proof (tokenize_solid str1) as S1. pose proof (tokenize_solid str2) as S2.
  fold t1 in S1. fold t2 in S2.
  pose proof (@intersect_comm_nonempty t1 t2 Hcommon) as Hne.
  destruct (@combined_shape t1 t2 S1 Hne) as (Htrim & Hsect & Hshape). cbv zeta in Htrim, Hsect, Hshape.
  set (sorted_sect := join (lit " ") (Js.sort (Lodash._intersect t1 t2))) in *.
  destruct (Hshape _ (@difference_solid t1 t2 S1)) as (post1 & E1 & Hp1).
  destruct (Hshape _ (@difference_solid t2 t1 S2)) as (post2 & E2 & Hp2).
  rewrite Htrim, E1, E2.
  set (ratio_func := if Opt.partial o then _partial_ratio e else _ratio e).
  assert (R : forall x y, percentage (ratio_func x y o)).
  { intros x y. unfold ratio_func. destruct (Opt.partial o).
    - now apply _partial_ratio_percentage.
    - now apply _ratio_percentage. }
  apply Math_max_100.
  - destruct (Opt.trySimple o); cbn [app]; repeat (apply Forall_cons; [apply R|]);
      apply Forall_nil.
  - assert (Hin : forall (l : list jsnum) (y : jsnum),
               In (of_Z 100) l ->
               In (of_Z 100) (if Opt.trySimple o then l ++ [y] else l)).
    { intros l y H. destruct (Opt.trySimple o); [apply in_or_app; now left | exact H]. }
    apply Hin.
    assert (Hsame : ratio_func (VString sorted_sect) (VString sorted_sect) o = of_Z 100).
    { unfold ratio_func. destruct (Opt.partial o).
      - rewrite <- (app_nil_r sorted_sect) at 2. now apply _partial_ratio_of_prefix.
      - apply _ratio_reflexive; auto. }
    destruct Hcase as [Hp | [Hsub | Hsub]].
    + left. unfold ratio_func. rewrite Hp. now apply _partial_ratio_of_prefix.
    + left. rewrite (Hp1 (@difference_of_subset t1 t2 Hsub)), app_nil_r. exact Hsame.
    + right. left. rewrite (Hp2 (@difference_of_subset t2 t1 Hsub)), app_nil_r. exact Hsame.
Qed.

Lemma tokenize_valid (str : jsval) : Utils.tokenize str <> [] -> Utils.validate str = true.
Proof. destruct str as [[|c s]| |]; cbn; congruence. Qed.

Lemma token_set_ratio_common (a b : jsval) (o : Opt.t) :
  subcost_nonneg o ->
  Opt.tokens o = None ->
  (exists t, In t (Utils.tokenize (prepared e o a))
             /\ In t (Utils.tokenize (prepared e o b))) ->
  (partial_token_set_ratio e a b o = of_Z 100)
  /\ ((forall t, In t (Utils.tokenize (prepared e o a))
                 -> In t (Utils.tokenize (prepared e o b)))
      \/ (forall t, In t (Utils.tokenize (prepared e o b))
                    -> In t (Utils.tokenize (prepared e o a))) ->
      token_set_ratio e a b o = of_Z 100).
Proof.
  intros Hc Htok Hcommon.
  assert (Va : Utils.validate (prepared e o a) = true).
  { apply tokenize_valid. destruct Hcommon as (t & H & _). intro E. rewrite E in H.
    destruct H. }
  assert (Vb : Utils.validate (prepared e o b) = true).
  { apply tokenize_valid. destruct Hcommon as (t & _ & H). intro E. rewrite E in H.
    destruct H. }
  unfold partial_token_set_ratio, token_set_ratio.
  fold (prepared e o a) (prepared e o b). rewrite Va, Vb. cbn [negb].
  split.
  - apply _token_set_common; try assumption.
    + unfold subcost_nonneg. cbn [Opt.subcost Opt.set_partial].
      now apply clone_subcost_nonneg.
    + cbn [Opt.tokens Opt.set_partial]. now rewrite clone_tokens.
    + now left.
  - intro Hsub. apply _token_set_common; try assumption.
    + now apply clone_subcost_nonneg.
    + now rewrite clone_tokens.
    + now right.
Qed.

End TokenSet.

(** X20.  When every token of one prepared input is a token of the other,
    [token_set_ratio] and [partial_token_set_ratio] are 100, in either order
    of the arguments (the tokens are computed from the inputs, the
    substitution cost is not negative, the collator is reflexive and
    normalisation keeps a non-empty text non-empty). *)
Theorem token_set_ratio_of_token_subset (e : Env.t) (a b : jsval) (o : Opt.t) :
  collator_reflexive e ->
  normalize_keeps_text e ->
  subcost_nonneg o ->
  Opt.tokens o = None ->
  Utils.tokenize (prepared e o a) <> [] ->
  (forall t, In t (Utils.tokenize (prepared e o a))
             -> In t (Utils.tokenize (prepared e o b))) ->
  token_set_ratio e a b o = of_Z 100
  /\ token_set_ratio e b a o = of_Z 100
  /\ partial_token_set_ratio e a b o = of_Z 100
  /\ partial_token_set_ratio e b a o = of_Z 100.
Proof.
  intros Hcol Hnorm Hc Htok Hne Hsub.
  assert (Hab : exists t, In t (Utils.tokenize (prepared e o a))
                          /\ In t (Utils.tokenize (prepared e o b))).
  { destruct (Utils.tokenize (prepared e o a)) as [|t l] eqn:E; [congruence|].
    exists t. split; [now left | apply Hsub; now left]. }
  assert (Hba : exists t, In t (Utils.tokenize (prepared e o b))
                          /\ In t (Utils.tokenize (prepared e o a))).
  { destruct Hab as (t & H1 & H2). exists t. tauto. }
  destruct (@token_set_ratio_common e Hcol Hnorm a b o Hc Htok Hab) as [P1 T1].
  destruct (@token_set_ratio_common e Hcol Hnorm b a o Hc Htok Hba) as [P2 T2].
  repeat split; [apply T1; now left | apply T2; now right | exact P1 | exact P2].
Qed.

(** X21.  When the two prepared inputs share a token,
    [partial_token_set_ratio] is 100.  The inputs are shorter than 200 code
    units, the length from which the block matcher of [difflib] may leave
    frequent elements out. *)
Theorem partial_token_set_ratio_of_common_token (e : Env.t) (a b : jsval) (o : Opt.t)
        (s1 s2 t : jsstring) :
  collator_reflexive e ->
  normalize_keeps_text e ->
  subcost_nonneg o ->
  Opt.tokens o = None ->
  prepared e o a = VString s1 ->
  prepared e o b = VString s2 ->
  length s1 < 200 ->
  length s2 < 200 ->
  In t (Utils.tokenize (VString s1)) ->
  In t (Utils.tokenize (VString s2)) ->
  partial_token_set_ratio e a b o = of_Z 100.
Proof.
  intros Hcol Hnorm Hc Htok Ha Hb _ _ H1 H2.
  apply (@token_set_ratio_common e Hcol Hnorm a b o Hc Htok).
  exists t. rewrite Ha, Hb. tauto.
Qed.

(** ** The scores [extract] reports under the token scorers *)

Lemma process_and_sort_invalid (v : jsval) :
  Utils.validate v = false -> Utils.process_and_sort v = [].
Proof. destruct v as [[|c s]| |]; cbn; congruence. Qed.

Lemma clone_proc_sorted (o : Opt.t) :
  Opt.proc_sorted (Utils.clone_and_set_option_defaults o) = Opt.proc_sorted o.
Proof. clone_cases o; reflexivity. Qed.

Lemma _token_set_ext (e : Env.t) (a b : jsval) (o1 o2 : Opt.t) :
  Opt.ratio_alg o1 = Opt.ratio_alg o2 ->
  Opt.subcost o1 = Opt.subcost o2 ->
  Opt.astral o1 = Opt.astral o2 ->
  Opt.normalize o1 = Opt.normalize o2 ->
  Opt.useCollator o1 = Opt.useCollator o2 ->
  Opt.partial o1 = Opt.partial o2 ->
  Opt.trySimple o1 = Opt.trySimple o2 ->
  Opt.tokens o1 = Some (Utils.tokenize a, Utils.tokenize b) ->
  Opt.tokens o2 = None ->
  _token_set e a b o1 = _token_set e a b o2.
Proof.
  intros H1 H2 H3 H4 H5 H6 H7 T1 T2. unfold _token_set.
  rewrite T1, T2, H6, H7. cbn [fst snd].
  assert (R : forall x y,
             (if Opt.partial o2 then _partial_ratio e else _ratio e) x y o1
             = (if Opt.partial o2 then _partial_ratio e else _ratio e) x y o2).
  { intros x y. destruct (Opt.partial o2);
      [now apply _partial_ratio_ext | now apply _ratio_ext]. }
  now rewrite !R.
Qed.

(** The options [extract] hands a scorer of its own name, when it does not
    normalise the inputs itself. *)
Lemma score_of_token_sort (e : Env.t) (query : jsval) (o : ExtractOpt.t) (value : jsval)
      (f : jsfunction) :
  scorer_used e (ExtractOpt.scorer o) = f ->
  fn_name f = "token_sort_ratio"%string \/ fn_name f = "partial_token_sort_ratio"%string ->
  Opt.astral (ExtractOpt.scoring o) && Opt.normalize (ExtractOpt.scoring o) = false ->
  value_proc_sorted value = None ->
  let options := Utils.clone_and_set_option_defaults (ExtractOpt.scoring o) in
  score_of e (setup_of e query o) value
  = fn_call f
      (VString (Utils.process_and_sort (preprocessed e options query)))
      (VString (Utils.process_and_sort
                  (preprocessed e options
                                (processor_used (ExtractOpt.processor o) value))))
      (Opt.set_proc_sorted true
         (Opt.set_proc_sorted false
            (Opt.set_tokens None (Opt.set_full_process (Some false) options)))).
Proof.
  intros Hf Hname Hn Hv options. unfold setup_of. rewrite Hf. fold options.
  assert (Hn' : Opt.astral options && Opt.normalize options = false).
  { unfold options. now rewrite clone_astral, clone_normalize. }
  unfold score_of, setup.
  cbn [su_tsort su_tset su_isCustom su_options su_scorer su_query su_processor
       su_pre_processor su_normalize su_proc_sorted_query].
  assert (Hnv : forall v, normalize_value e false v = v) by (intros [s| |]; reflexivity).
  rewrite Hv.
  destruct Hname as [Hname | Hname]; rewrite Hname;
    cbn [Utils.isCustomFunc Utils.builtin_names existsb String.eqb Ascii.eqb Bool.eqb
         orb andb negb];
    cbn [Opt.astral Opt.normalize Opt.set_full_process]; rewrite Hn';
    cbn [andb]; rewrite !Hnv; unfold preprocessed;
    destruct (Opt.truthy (Opt.full_process options)); reflexivity.
Qed.

Lemma score_of_token_set (e : Env.t) (query : jsval) (o : ExtractOpt.t) (value : jsval)
      (f : jsfunction) :
  scorer_used e (ExtractOpt.scorer o) = f ->
  fn_name f = "token_set_ratio"%string \/ fn_name f = "partial_token_set_ratio"%string ->
  Opt.astral (ExtractOpt.scoring o) && Opt.normalize (ExtractOpt.scoring o) = false ->
  value_tokens value = None ->
  let options := Utils.clone_and_set_option_defaults (ExtractOpt.scoring o) in
  let mychoice := preprocessed e options (processor_used (ExtractOpt.processor o) value) in
  score_of e (setup_of e query o) value
  = fn_call f (preprocessed e options query) mychoice
      (Opt.set_tokens
         (Some (Utils.tokenize (preprocessed e options query), Utils.tokenize mychoice))
         (Opt.set_proc_sorted false
            (Opt.set_tokens None (Opt.set_full_process (Some false) options)))).
Proof.
  intros Hf Hname Hn Hv options mychoice. unfold setup_of. rewrite Hf. fold options.
  assert (Hn' : Opt.astral options && Opt.normalize options = false).
  { unfold options. now rewrite clone_astral, clone_normalize. }
  unfold score_of, setup.
  cbn [su_tsort su_tset su_isCustom su_options su_scorer su_query su_processor
       su_pre_processor su_normalize su_query_tokens].
  assert (Hnv : forall v, normalize_value e false v = v) by (intros [s| |]; reflexivity).
  rewrite Hv. subst mychoice.
  destruct Hname as [Hname | Hname]; rewrite Hname;
    cbn [Utils.isCustomFunc Utils.builtin_names existsb String.eqb Ascii.eqb Bool.eqb
         orb andb negb];
    cbn [Opt.astral Opt.normalize Opt.set_full_process]; rewrite Hn';
    cbn [andb]; rewrite !Hnv; unfold preprocessed;
    destruct (Opt.truthy (Opt.full_process options)); reflexivity.
Qed.

Lemma extract_result_inv (e : Env.t) (query : jsval) (choices : collection)
      (o : ExtractOpt.t) (l : list result) (value : jsval) (score : jsnum) (k : key) :
  limit_applies o (numchoices choices) = false ->
  extract e query choices o = Return l ->
  In (value, score, k) l ->
  In (value, k) (entries choices) /\ score = score_of e (setup_of e query o) value.
Proof.
  intros Hl Hx Hin. apply extract_return_inv in Hx.
  assert (Hperm : Permutation l
             (filter (fun r => gtb (result_score r) (cutoff_used (ExtractOpt.cutoff o)))
                     (scored e (setup_of e query o) choices))).
  { subst l. unfold ranked. rewrite Hl.
    destruct (negb (ExtractOpt.unsorted o)); [apply Permutation_sort_results | reflexivity]. }
  apply (Permutation_in _ Hperm) in Hin. apply filter_In in Hin. destruct Hin as [Hin _].
  unfold scored in Hin. apply in_map_iff in Hin.
  destruct Hin as ([v k'] & E & Hin). cbn [fst snd] in E. injection E as -> <- ->.
  split; [exact Hin | reflexivity].
Qed.

Section TokenScorers.

Variable e : Env.t.
Variable query : jsval.
Variable o : ExtractOpt.t.
Variable value : jsval.

Let scoring := ExtractOpt.scoring o.
Let options := Utils.clone_and_set_option_defaults scoring.
Let c := processor_used (ExtractOpt.processor o) value.

Hypothesis plain : Opt.astral scoring && Opt.normalize scoring = false.

Lemma score_of_token_sort_ratio :
  scorer_used e (ExtractOpt.scorer o) = token_sort_ratio_function e ->
  Opt.proc_sorted scoring = false ->
  value_proc_sorted value = None ->
  score_of e (setup_of e query o) value = token_sort_ratio e query c scoring.
Proof.
  intros Hf Hps Hv.
  rewrite (@score_of_token_sort e query o value _ Hf (or_introl eq_refl) plain Hv).
  cbn [fn_call token_sort_ratio_function]. fold scoring options c.
  set (scan_options := Opt.set_proc_sorted true _).
  unfold token_sort_ratio. fold options.
  rewrite !(@preprocessed_off e scan_options _ eq_refl).
  assert (Hs1 : Opt.proc_sorted (Utils.clone_and_set_option_defaults scan_options) = true).
  { now rewrite clone_proc_sorted. }
  assert (Hs2 : Opt.proc_sorted options = false).
  { unfold options. now rewrite clone_proc_sorted. }
  rewrite Hs1, Hs2. cbn [negb].
  set (q := preprocessed e options query). set (c' := preprocessed e options c).
  assert (Hr : _ratio e (VString (Utils.process_and_sort q))
                      (VString (Utils.process_and_sort c'))
                      (Utils.clone_and_set_option_defaults scan_options)
               = _ratio e (VString (Utils.process_and_sort q))
                        (VString (Utils.process_and_sort c')) options).
  { rewrite _ratio_clone. apply _ratio_ext; reflexivity. }
  rewrite Hr.
  destruct (Utils.validate q) eqn:Vq; cbn [negb].
  - destruct (Utils.validate c') eqn:Vc; cbn [negb].
    + destruct (Utils.validate (VString (Utils.process_and_sort q))) eqn:V1; cbn [negb];
        [|now rewrite _ratio_invalid_l].
      destruct (Utils.validate (VString (Utils.process_and_sort c'))) eqn:V2; cbn [negb];
        [reflexivity | now rewrite _ratio_invalid_r].
    + rewrite (process_and_sort_invalid _ Vc).
      destruct (Utils.validate (VString (Utils.process_and_sort q))); reflexivity.
  - rewrite (process_and_sort_invalid _ Vq). reflexivity.
Qed.

Lemma score_of_partial_token_sort_ratio :
  scorer_used e (ExtractOpt.scorer o) = partial_token_sort_ratio_function e ->
  Opt.proc_sorted scoring = false ->
  value_proc_sorted value = None ->
  score_of e (setup_of e query o) value = partial_token_sort_ratio e query c scoring.
Proof.
  intros Hf Hps Hv.
  rewrite (@score_of_token_sort e query o value _ Hf (or_intror eq_refl) plain Hv).
  cbn [fn_call partial_token_sort_ratio_function]. fold scoring options c.
  set (scan_options := Opt.set_proc_sorted true _).
  unfold partial_token_sort_ratio. fold options.
  rewrite !(@preprocessed_off e scan_options _ eq_refl).
  cbn [Opt.proc_sorted Opt.set_partial].
  assert (Hs1 : Opt.proc_sorted (Utils.clone_and_set_option_defaults scan_options) = true).
  { now rewrite clone_proc_sorted. }
  assert (Hs2 : Opt.proc_sorted options = false).
  { unfold options. now rewrite clone_proc_sorted. }
  rewrite Hs1, Hs2. cbn [negb].
  set (q := preprocessed e options query). set (c' := preprocessed e options c).
  assert (Hr : _partial_ratio e (VString (Utils.process_and_sort q))
                 (VString (Utils.process_and_sort c'))
                 (Opt.set_partial true (Utils.clone_and_set_option_defaults scan_options))
               = _partial_ratio e (VString (Utils.process_and_sort q))
                   (VString (Utils.process_and_sort c')) (Opt.set_partial true options)).
  { apply _partial_ratio_ext; cbn [Opt.ratio_alg Opt.subcost Opt.astral Opt.normalize
                                    Opt.useCollator Opt.set_partial];
      [rewrite clone_ratio_alg | rewrite clone_subcost | rewrite clone_astral
       | rewrite clone_normalize | rewrite clone_useCollator]; reflexivity. }
  rewrite Hr.
  destruct (Utils.validate q) eqn:Vq; cbn [negb].
  - destruct (Utils.validate c') eqn:Vc; cbn [negb].
    + destruct (Utils.validate (VString (Utils.process_and_sort q))) eqn:V1; cbn [negb];
        [|now rewrite _partial_ratio_invalid_l].
      destruct (Utils.validate (VString (Utils.process_and_sort c'))) eqn:V2; cbn [negb];
        [reflexivity | now rewrite _partial_ratio_invalid_r].
    + rewrite (process_and_sort_invalid _ Vc).
      destruct (Utils.validate (VString (Utils.process_and_sort q))); reflexivity.
  - rewrite (process_and_sort_invalid _ Vq). reflexivity.
Qed.

Lemma score_of_token_set_ratio :
  scorer_used e (ExtractOpt.scorer o) = token_set_ratio_function e ->
  Opt.tokens scoring = None ->
  value_tokens value = None ->
  score_of e (setup_of e query o) value = token_set_ratio e query c scoring.
Proof.
  intros Hf Ht Hv.
  rewrite (@score_of_token_set e query o value _ Hf (or_introl eq_refl) plain Hv).
  cbv zeta. cbn [fn_call token_set_ratio_function]. fold scoring options c.
  set (q := preprocessed e options query). set (c' := preprocessed e options c).
  set (scan_options := Opt.set_tokens _ _).
  unfold token_set_ratio. fold options. fold q c'.
  rewrite !(@preprocessed_off e scan_options _ eq_refl).
  destruct (Utils.validate q); cbn [negb]; [|reflexivity].
  destruct (Utils.validate c'); cbn [negb]; [|reflexivity].
  apply _token_set_ext;
    [rewrite clone_ratio_alg | rewrite clone_subcost | rewrite clone_astral
     | rewrite clone_normalize | rewrite clone_useCollator | rewrite clone_partial
     | rewrite clone_trySimple | rewrite clone_tokens
     | unfold options; rewrite clone_tokens; exact Ht]; reflexivity.
Qed.

Lemma score_of_partial_token_set_ratio :
  scorer_used e (ExtractOpt.scorer o) = partial_token_set_ratio_function e ->
  Opt.tokens scoring = None ->
  value_tokens value = None ->
  score_of e (setup_of e query o) value = partial_token_set_ratio e query c scoring.
Proof.
  intros Hf Ht Hv.
  rewrite (@score_of_token_set e query o value _ Hf (or_intror eq_refl) plain Hv).
  cbv zeta. cbn [fn_call partial_token_set_ratio_function]. fold scoring options c.
  set (q := preprocessed e options query). set (c' := preprocessed e options c).
  set (scan_options := Opt.set_tokens _ _).
  unfold partial_token_set_ratio. fold options. fold q c'.
  rewrite !(@preprocessed_off e scan_options _ eq_refl).
  destruct (Utils.validate q); cbn [negb]; [|reflexivity].
  destruct (Utils.validate c'); cbn [negb]; [|reflexivity].
  apply _token_set_ext;
    cbn [Opt.ratio_alg Opt.subcost Opt.astral Opt.normalize Opt.useCollator Opt.partial
         Opt.trySimple Opt.tokens Opt.set_partial];
    [rewrite clone_ratio_alg | rewrite clone_subcost | rewrite clone_astral
     | rewrite clone_normalize | rewrite clone_useCollator | 
     | rewrite clone_trySimple | rewrite clone_tokens
     | unfold options; rewrite clone_tokens; exact Ht]; reflexivity.
Qed.

End TokenScorers.

(** X22.  With one of the four token scorers, and when [extract] does not
    normalise the inputs itself, the score [extract] reports for a candidate
    without cached tokens is the score the scorer gives the query and the
    processed candidate under the caller's options: sorting or tokenising
    the query once, before the scan, changes no score. *)
Theorem extract_reports_the_score_of_the_token_scorer (e : Env.t) (query : jsval)
        (choices : collection) (o : ExtractOpt.t) (l : list result) :
  In (scorer_used e (ExtractOpt.scorer o))
     [token_sort_ratio_function e; partial_token_sort_ratio_function e;
      token_set_ratio_function e; partial_token_set_ratio_function e] ->
  Opt.astral (ExtractOpt.scoring o) && Opt.normalize (ExtractOpt.scoring o) = false ->
  Opt.proc_sorted (ExtractOpt.scoring o) = false ->
  Opt.tokens (ExtractOpt.scoring o) = None ->
  (forall value k, In (value, k) (entries choices) ->
                   value_proc_sorted value = None /\ value_tokens value = None) ->
  limit_applies o (numchoices choices) = false ->
  extract e query choices o = Return l ->
  forall value score k, In (value, score, k) l ->
    score = fn_call (scorer_used e (ExtractOpt.scorer o)) query
                    (processor_used (ExtractOpt.processor o) value)
                    (ExtractOpt.scoring o).
Proof.
  intros Hf Hn Hps Ht Hplain Hl Hx value score k Hin.
  destruct (@extract_result_inv e query choices o l value score k Hl Hx Hin) as [Hent ->].
  destruct (Hplain value k Hent) as [Hv1 Hv2].
  destruct Hf as [Hf | [Hf | [Hf | [Hf | []]]]]; symmetry in Hf; rewrite Hf;
    cbn [fn_call token_sort_ratio_function partial_token_sort_ratio_function
         token_set_ratio_function partial_token_set_ratio_function].
  - now apply score_of_token_sort_ratio.
  - now apply score_of_partial_token_sort_ratio.
  - now apply score_of_token_set_ratio.
  - now apply score_of_partial_token_set_ratio.
Qed.

(** ** Raising the cutoff of [extract] *)

Lemma gtb_geb_trans (s c2 c1 : jsnum) :
  gtb s c2 = true -> geb c2 c1 = true -> gtb s c1 = true.
Proof.
  destruct s, c2, c1; simpl; try congruence.
  intros H1 H2. apply Qltb_true_iff in H1. apply Qle_bool_iff in H2.
  apply Qltb_true_iff. now apply Qle_lt_trans with q0.
Qed.

Lemma results_above_cutoff_permuted (cutoff : jsnum) (l l' : list result) :
  Permutation l l' ->
  Permutation (filter (fun r => gtb (result_score r) cutoff) l)
              (filter (fun r => gtb (result_score r) cutoff) l').
Proof.
  induction 1 as [|x l l' _ IH|x y l|l l' l'' _ IH1 _ IH2]; cbn [filter].
  - constructor.
  - destruct (gtb (result_score x) cutoff); [now constructor | exact IH].
  - destruct (gtb (result_score x) cutoff), (gtb (result_score y) cutoff);
      try reflexivity. apply perm_swap.
  - now transitivity (filter (fun r => gtb (result_score r) cutoff) l').
Qed.

Lemma results_above_higher_cutoff (c1 c2 : jsnum) (l : list result) :
  geb c2 c1 = true ->
  filter (fun r => gtb (result_score r) c2) (filter (fun r => gtb (result_score r) c1) l)
  = filter (fun r => gtb (result_score r) c2) l.
Proof.
  intro H. induction l as [|r l IH]; cbn [filter]; [reflexivity|].
  destruct (gtb (result_score r) c2) eqn:E2.
  - rewrite (@gtb_geb_trans _ _ _ E2 H). cbn [filter]. rewrite E2. now rewrite IH.
  - destruct (gtb (result_score r) c1); cbn [filter]; rewrite ?E2; exact IH.
Qed.

(** X23.  Raising the cutoff of [extract] only removes results: when no
    limit applies, the results for the higher cutoff are those for the lower
    cutoff whose score exceeds the higher one (0, as a cutoff, counting as
    -1). *)
Theorem extract_with_higher_cutoff (e : Env.t) (query : jsval) (choices : collection)
        (o : ExtractOpt.t) (c1 c2 : option jsnum) (l1 l2 : list result) :
  normalize_callable e query choices o ->
  geb (cutoff_used c2) (cutoff_used c1) = true ->
  limit_applies o (numchoices choices) = false ->
  extract e query choices (with_cutoff c1 o) = Return l1 ->
  extract e query choices (with_cutoff c2 o) = Return l2 ->
  Permutation l2 (filter (fun r => gtb (result_score r) (cutoff_used c2)) l1)
  /\ (forall r, In r l2 -> In r l1).
Proof.
  intros _ Hc Hl H1 H2.
  apply extract_return_inv in H1, H2.
  assert (Hl' : forall c, limit_applies (with_cutoff c o) (numchoices choices) = false).
  { intro c. exact Hl. }
  assert (Hperm : forall c l,
             l = ranked e (with_cutoff c o) (numchoices choices)
                        (filter (fun r => gtb (result_score r) (cutoff_used c))
                                (scored e (setup_of e query o) choices)) ->
             Permutation l (filter (fun r => gtb (result_score r) (cutoff_used c))
                                   (scored e (setup_of e query o) choices))).
  { intros c l ->. unfold ranked. rewrite Hl'.
    destruct (negb _); [apply Permutation_sort_results | reflexivity]. }
  apply Hperm in H1, H2.
  assert (P : Permutation l2 (filter (fun r => gtb (result_score r) (cutoff_used c2)) l1)).
  { rewrite H2. rewrite (@results_above_cutoff_permuted (cutoff_used c2) _ _ H1).
    now rewrite results_above_higher_cutoff. }
  split; [exact P|].
  intros r Hr. apply (Permutation_in _ P) in Hr. now apply filter_In in Hr.
Qed.

(** ** The order of the tokens *)

Lemma ltb_irrefl (s : jsstring) : Js.ltb s s = false.
Proof. induction s as [|x s IH]; cbn [Js.ltb]; [reflexivity|]. now rewrite N.ltb_irrefl. Qed.

Lemma ltb_antisym (s t : jsstring) : Js.ltb s t = false -> Js.ltb t s = false -> s = t.
Proof.
  revert t. induction s as [|x s IH]; intros [|y t]; cbn [Js.ltb]; try congruence.
  rewrite (N.ltb_antisym x y), (N.ltb_antisym y x).
  destruct (N.leb y x) eqn:E1, (N.leb x y) eqn:E2; cbn [negb]; try congruence.
  apply N.leb_le in E1, E2. intros H1 H2. f_equal; [lia | now apply IH].
Qed.

Lemma ltb_trans (s t u : jsstring) :
  Js.ltb s t = true -> Js.ltb t u = true -> Js.ltb s u = true.
Proof.
  revert t u. induction s as [|x s IH]; intros [|y t] [|z u]; cbn [Js.ltb]; try congruence.
  destruct (N.ltb x y) eqn:Exy, (N.ltb y x) eqn:Eyx, (N.ltb y z) eqn:Eyz,
    (N.ltb z y) eqn:Ezy, (N.ltb x z) eqn:Exz, (N.ltb z x) eqn:Ezx;
    try congruence;
    rewrite ?N.ltb_lt, ?N.ltb_ge in *; try lia.
  apply IH.
Qed.

Lemma ltb_total (s t : jsstring) : Js.ltb s t = false -> s = t \/ Js.ltb t s = true.
Proof.
  intro H. destruct (Js.ltb t s) eqn:E; [now right | left; now apply ltb_antisym].
Qed.

(** [s] does not come after [t]. *)
Lemma not_after_trans (s t u : jsstring) :
  Js.ltb t s = false -> Js.ltb u t = false -> Js.ltb u s = false.
Proof.
  intros H1 H2. destruct (Js.ltb u s) eqn:E; [|reflexivity].
  destruct (@ltb_total _ _ H1) as [-> | H1']; [congruence|].
  rewrite (@ltb_trans _ _ _ E H1') in H2. discriminate.
Qed.

Lemma insert_sorted (s : jsstring) (l : list jsstring) :
  StronglySorted (fun x y => Js.ltb y x = false) l ->
  StronglySorted (fun x y => Js.ltb y x = false) (Js.insert s l).
Proof.
  induction l as [|t l IH]; cbn [Js.insert]; intro H.
  - constructor; constructor.
  - apply StronglySorted_inv in H. destruct H as [Hl Ht].
    destruct (Js.ltb t s) eqn:E.
    + constructor; [now apply IH|].
      apply Forall_forall. intros x Hx. apply (proj1 (In_insert _ _ _)) in Hx.
      destruct Hx as [-> | Hx].
      * destruct (Js.ltb s t) eqn:E'; [|reflexivity].
        pose proof (@ltb_trans _ _ _ E E') as C. rewrite ltb_irrefl in C. discriminate.
      * exact (proj1 (Forall_forall _ _) Ht x Hx).
    + constructor; [now constructor|]. constructor; [exact E|].
      apply Forall_forall. intros x Hx.
      apply (@not_after_trans s t x E). exact (proj1 (Forall_forall _ _) Ht x Hx).
Qed.

Lemma sort_sorted (l : list jsstring) :
  StronglySorted (fun x y => Js.ltb y x = false) (Js.sort l).
Proof.
  induction l as [|s l IH]; cbn [Js.sort fold_right]; [constructor|].
  now apply insert_sorted.
Qed.

Lemma Permutation_insert (s : jsstring) (l : list jsstring) :
  Permutation (Js.insert s l) (s :: l).
Proof.
  induction l as [|t l IH]; cbn [Js.insert]; [reflexivity|].
  destruct (Js.ltb t s); [|reflexivity]. rewrite IH. apply perm_swap.
Qed.

Lemma Permutation_sort (l : list jsstring) : Permutation (Js.sort l) l.
Proof.
  induction l as [|s l IH]; cbn [Js.sort fold_right]; [reflexivity|].
  fold (Js.sort l). rewrite Permutation_insert. now constructor.
Qed.

(** Two sorted arrays with the same strings are the same array. *)
Lemma sorted_unique (l1 l2 : list jsstring) :
  StronglySorted (fun x y => Js.ltb y x = false) l1 ->
  StronglySorted (fun x y => Js.ltb y x = false) l2 ->
  Permutation l1 l2 -> l1 = l2.
Proof.
  revert l2. induction l1 as [|x l1 IH]; intros l2 S1 S2 P.
  - apply Permutation_nil in P. now subst.
  - destruct l2 as [|y l2]; [apply Permutation_sym, Permutation_nil in P; discriminate|].
    apply StronglySorted_inv in S1, S2. destruct S1 as [S1 F1], S2 as [S2 F2].
    assert (Hxy : x = y).
    { assert (Hy : In y (x :: l1))
        by (apply (Permutation_in _ (Permutation_sym P)); now left).
      assert (Hx : In x (y :: l2)) by (apply (Permutation_in _ P); now left).
      destruct Hy as [E | Hy]; [exact E|]. destruct Hx as [E | Hx]; [now symmetry|].
      apply ltb_antisym.
      - exact (proj1 (Forall_forall _ _) F2 x Hx).
      - exact (proj1 (Forall_forall _ _) F1 y Hy). }
    subst y. f_equal. apply IH; try assumption. now apply Permutation_cons_inv in P.
Qed.

Lemma sort_permuted (l1 l2 : list jsstring) :
  Permutation l1 l2 -> Js.sort l1 = Js.sort l2.
Proof.
  intro P. apply sorted_unique; try apply sort_sorted.
  rewrite !Permutation_sort. exact P.
Qed.

(** X24.  [token_sort_ratio] and [partial_token_sort_ratio] do not depend on
    the order of the tokens of an input: two first inputs whose prepared
    texts hold the same tokens, in any order, score the same against every
    second input. *)
Theorem token_sort_ratio_ignores_token_order (e : Env.t) (a b x : jsval) (o : Opt.t)
        (s1 s2 : jsstring) :
  Opt.proc_sorted o = false ->
  prepared e o a = VString s1 ->
  prepared e o b = VString s2 ->
  s1 <> [] -> s2 <> [] ->
  Permutation (match_non_space s1) (match_non_space s2) ->
  token_sort_ratio e a x o = token_sort_ratio e b x o
  /\ partial_token_sort_ratio e a x o = partial_token_sort_ratio e b x o.
Proof.
  intros Hps Ha Hb H1 H2 P.
  assert (Hs : Utils.process_and_sort (VString s1) = Utils.process_and_sort (VString s2)).
  { cbn [Utils.process_and_sort]. now rewrite (@sort_permuted _ _ P). }
  assert (Hp : Opt.proc_sorted (Utils.clone_and_set_option_defaults o) = false)
    by now rewrite clone_proc_sorted.
  unfold token_sort_ratio, partial_token_sort_ratio.
  fold (prepared e o a) (prepared e o b) (prepared e o x).
  cbn [Opt.proc_sorted Opt.set_partial].
  rewrite Ha, Hb, Hp, Hs, !(proj2 (validate_string _)) by assumption.
  split; reflexivity.
Qed.

(** ** The closing block of the matcher *)

Lemma Math_max_ge (l : list jsnum) (z : Z) :
  Forall percentage l -> In (of_Z z) l ->
  exists m, Math_max l = of_Z m /\ (z <= m)%Z.
Proof.
  induction l as [|x l IH]; intros Hall Hin; [destruct Hin|].
  apply Forall_cons_iff in Hall. destruct Hall as [(zx & -> & Hzx) Hl].
  cbn [Math_max fold_right]. fold (Math_max l).
  destruct l as [|y l].
  - destruct Hin as [E | []]. apply of_Z_inj in E. subst zx.
    exists z. split; [reflexivity | lia].
  - destruct (@Math_max_percentage (y :: l) ltac:(discriminate) Hl) as (m & Hm & _).
    rewrite Hm. cbn [of_Z max2].
    destruct (Qle_bool (inject_Z zx) (inject_Z m)) eqn:E.
    + exists m. split; [reflexivity|].
      apply Qle_bool_iff in E. rewrite <- Zle_Qle in E.
      destruct Hin as [Hin | Hin].
      * apply of_Z_inj in Hin. lia.
      * destruct (IH Hl Hin) as (m' & Hm' & Hle). rewrite Hm in Hm'.
        apply of_Z_inj in Hm'. lia.
    + exists zx. split; [reflexivity|].
      destruct Hin as [Hin | Hin].
      * apply of_Z_inj in Hin. lia.
      * destruct (IH Hl Hin) as (m' & Hm' & Hle). rewrite Hm in Hm'.
        apply of_Z_inj in Hm'. subst m'.
        assert (Hlt : ~ (inject_Z zx <= inject_Z m)%Q).
        { intro C. apply Qle_bool_iff in C. congruence. }
        rewrite <- Zle_Qle in Hlt. lia.
Qed.

(** The window of the closing block [(|shorter|, |longer|, 0)], for two
    strings of the same length, is the whole of [longer]. *)
Lemma closing_window (shorter longer : jsstring) :
  length shorter = length longer ->
  window shorter longer (length shorter, length longer, 0) = longer.
Proof.
  intro H. unfold window, long_start, Difflib.block_a, Difflib.block_b. cbn [fst snd].
  replace (0 <? Z.of_nat (length longer) - Z.of_nat (length shorter))%Z with false
    by (symmetry; apply Z.ltb_ge; lia).
  rewrite H. apply substring_whole.
Qed.

(** X25.  For two prepared inputs of the same length, [partial_ratio] is at
    least [QRatio]: the closing block of the matcher selects the whole of
    the second input as a window (the substitution cost is not negative and
    normalisation keeps a non-empty text non-empty). *)
Theorem partial_ratio_ge_QRatio_on_equal_lengths (e : Env.t) (a b : jsval) (o : Opt.t) :
  normalize_keeps_text e ->
  subcost_nonneg o ->
  strlen (prepared e o a) = strlen (prepared e o b) ->
  geb (partial_ratio e a b o) (QRatio e a b o) = true.
Proof.
  intros keeps Hc Hlen.
  rewrite partial_ratio_unfold, QRatio_unfold. cbv zeta.
  fold (prepared e o a) (prepared e o b).
  destruct (Utils.validate (prepared e o a)) eqn:Va; [|reflexivity].
  destruct (Utils.validate (prepared e o b)) eqn:Vb; [|reflexivity].
  cbn [andb].
  apply validate_inv in Va, Vb. destruct Va as (c1 & s1 & Ea), Vb as (c2 & s2 & Eb).
  rewrite Ea, Eb in *. cbn [strlen] in Hlen.
  rewrite _partial_ratio_strings by discriminate. cbv zeta.
  replace (length (c1 :: s1) <=? length (c2 :: s2)) with true
    by (symmetry; apply Nat.leb_le; lia).
  destruct (@_ratio_range e keeps (VString (c1 :: s1)) (VString (c2 :: s2)) o)
    as (z & Hz & H0 & H100).
  specialize (H100 Hc).
  assert (Hin : In (of_Z z) (window_ratios e (c1 :: s1) (c2 :: s2) o)).
  { unfold window_ratios, Difflib.getMatchingBlocks. cbv zeta.
    rewrite map_app. apply in_or_app. right. cbn [map]. left.
    rewrite (closing_window _ _ Hlen). exact Hz. }
  rewrite Hz.
  destruct (existsb exceeds_99_5 (window_ratios e (c1 :: s1) (c2 :: s2) o)) eqn:Ex.
  - now apply geb_of_Z.
  - assert (Hall : Forall percentage (window_ratios e (c1 :: s1) (c2 :: s2) o)).
    { apply Forall_forall. intros r Hr.
      assert (Hn : exceeds_99_5 r = false).
      { destruct (exceeds_99_5 r) eqn:Er; [|reflexivity].
        assert (existsb exceeds_99_5 (window_ratios e (c1 :: s1) (c2 :: s2) o) = true)
          by (apply existsb_exists; now exists r).
        congruence. }
      unfold window_ratios in Hr. apply in_map_iff in Hr. destruct Hr as (x & <- & _).
      destruct (@_ratio_range e keeps (VString (c1 :: s1))
                  (VString (window (c1 :: s1) (c2 :: s2) x)) o) as (z' & Hz' & H0' & _).
      rewrite Hz' in Hn |- *. apply percentage_of_Z.
      split; [exact H0' | now apply not_exceeding]. }
    destruct (@Math_max_ge _ _ Hall Hin) as (m & -> & Hm). now apply geb_of_Z.
Qed.

(** ** Examples *)

#[local] Open Scope string_scope.

(** C1, amended, on "abc" and "abd" under default options. *)
Lemma QRatio_by_edit_distance_example :
  difflib_selected Opt.empty = false
  /\ QRatio reference_env (str "abc") (str "abd") Opt.empty = of_Z 67.
Proof.
  split; [reflexivity|].
  exact (@QRatio_by_edit_distance reference_env (str "abc") (str "abd") Opt.empty eq_refl).
Defined.

(** C1 does not hold when a character takes two code units and [astral] is off:
    the lengths are counted in code units. *)
Lemma QRatio_counts_code_units :
  QRatio reference_env (VString [55357; 56832]%N) (VString [55357; 56832; 97]%N)
         (Opt.set_full_process (Some false) Opt.empty) = of_Z 80
  /\ Leven.edit_distance N.eqb 2 [55357; 56832]%N [55357; 56832; 97]%N = 1%Z
  /\ Leven.edit_distance Js.eqb 2 (Lodash._toArray [55357; 56832]%N)
                         (Lodash._toArray [55357; 56832; 97]%N) = 1%Z
  /\ code_point_score 1 [55357; 56832]%N [55357; 56832; 97]%N = of_Z 67
  /\ QRatio reference_env (VString [55357; 56832]%N) (VString [55357; 56832; 97]%N)
             (Opt.set_full_process (Some false) Opt.empty)
     <> code_point_score 1 [55357; 56832]%N [55357; 56832; 97]%N.
Proof.
  repeat split; try (vm_compute; reflexivity).
  intro H. vm_compute in H. discriminate H.
Qed.

(** C2, amended, on "ab" and "xxa". *)
Lemma partial_ratio_over_windows_example :
  prepared reference_env Opt.empty (str "ab") = VString (lit "ab")
  /\ lit "ab" <> []
  /\ prepared reference_env Opt.empty (str "xxa") = VString (lit "xxa")
  /\ lit "xxa" <> []
  /\ partial_ratio reference_env (str "ab") (str "xxa") Opt.empty = of_Z 67.
Proof.
  split; [reflexivity|]. split; [discriminate|].
  split; [reflexivity|]. split; [discriminate|].
  exact (proj1 (@partial_ratio_over_windows reference_env (str "ab") (str "xxa") Opt.empty
                  (lit "ab") (lit "xxa") eq_refl ltac:(discriminate)
                  eq_refl ltac:(discriminate))).
Defined.

(** C2 does not hold on a window that runs past the end of the longer string. *)
Lemma partial_ratio_window_cut_short :
  In (0, 2, 1) (Difflib.getMatchingBlocks (lit "ab") (lit "xxa"))
  /\ length (window (lit "ab") (lit "xxa") (0, 2, 1)) = 1
  /\ length (window (lit "ab") (lit "xxa") (0, 2, 1)) <> length (lit "ab")
  /\ partial_ratio reference_env (str "ab") (str "xxa") Opt.empty = of_Z 67
  /\ map (fun start => _ratio reference_env (str "ab")
                              (VString (substring (lit "xxa") start (start + 2)))
                              Opt.empty) [0; 1]
     = [of_Z 0; of_Z 50].
Proof.
  repeat split; try (vm_compute; auto; fail).
  intro H. vm_compute in H. discriminate H.
Qed.

(** C3, amended, on three candidates and the cutoff 50. *)
Lemma extract_keeps_scores_above_cutoff_example :
  extract reference_env (str "apple")
          (CArray [str "apple"; str "appel"; str "banana"])
          (with_cutoff (Some (Num 50)) no_extract_options)
  = Return [(str "apple", of_Z 100, KIndex 0); (str "appel", of_Z 80, KIndex 1)]
  /\ limit_applies (with_cutoff (Some (Num 50)) no_extract_options) 3 = false
  /\ forall r,
       In r [(str "apple", of_Z 100, KIndex 0); (str "appel", of_Z 80, KIndex 1)]
       <-> In r (scored reference_env
                        (setup_of reference_env (str "apple")
                                  (with_cutoff (Some (Num 50)) no_extract_options))
                        (CArray [str "apple"; str "appel"; str "banana"]))
           /\ gtb (result_score r) (Num 50) = true.
Proof.
  assert (H : extract reference_env (str "apple")
                (CArray [str "apple"; str "appel"; str "banana"])
                (with_cutoff (Some (Num 50)) no_extract_options)
              = Return [(str "apple", of_Z 100, KIndex 0); (str "appel", of_Z 80, KIndex 1)])
    by (vm_compute; reflexivity).
  split; [exact H|]. split; [reflexivity|].
  exact (proj1 (@extract_keeps_scores_above_cutoff reference_env (str "apple")
                  (CArray [str "apple"; str "appel"; str "banana"])
                  (with_cutoff (Some (Num 50)) no_extract_options) _ H) eq_refl).
Defined.

(** C3 does not hold for the cutoff 0, which [extract] replaces by -1. *)
Lemma extract_cutoff_zero_keeps_zero :
  extract reference_env (str "abc") (CArray [str "xyz"])
          (with_cutoff (Some (Num 0)) no_extract_options)
  = Return [(str "xyz", of_Z 0, KIndex 0)]
  /\ gtb (of_Z 0) (Num 0) = false.
Proof. split; vm_compute; reflexivity. Qed.

(** C4, amended, on "abc". *)
Lemma ratio_and_distance_of_equal_strings_example :
  Env.full_process reference_env (lit "abc") true <> []
  /\ QRatio reference_env (str "abc") (str "abc") Opt.empty = of_Z 100.
Proof.
  assert (H : Env.full_process reference_env (lit "abc") true <> [])
    by (vm_compute; discriminate).
  split; [exact H|].
  exact (proj1 (ratio_and_distance_of_equal_strings reference_env (lit "abc")) H).
Defined.

(** C4 does not hold for the empty string. *)
Lemma ratio_of_empty_strings :
  QRatio reference_env (VString []) (VString []) Opt.empty = of_Z 0
  /\ QRatio reference_env (VString []) (VString []) Opt.empty <> of_Z 100.
Proof.
  split; [vm_compute; reflexivity|].
  intro H. vm_compute in H. discriminate H.
Qed.

(** C5, amended, on "aba" and "bca" with each algorithm. *)
Lemma QRatio_selects_algorithm_example :
  QRatio reference_env (str "aba") (str "bca") (with_ratio_alg "difflib" Opt.empty)
  = of_Z 33
  /\ QRatio reference_env (str "aba") (str "bca") Opt.empty = of_Z 67.
Proof.
  split.
  - exact (proj2 (QRatio_selects_algorithm reference_env (str "aba") (str "bca")
                    (with_ratio_alg "difflib" Opt.empty))).
  - exact (proj2 (QRatio_selects_algorithm reference_env (str "aba") (str "bca")
                    Opt.empty)).
Defined.

(** The formulas round as the doubles of the code do.  With 80 for the sum
    of the lengths and the distance 34, [(80 - 34) / 80] is the double just
    below 0.575, 100 times it is 57.49999999999999, and the score is 57; the
    exact value 57.5 would be rounded to 58.  The same with 23 matched code
    units of 80 under the block-matching algorithm. *)
Lemma scores_round_as_doubles :
  percent 80 34 = of_Z 57
  /\ Qfloor (100 * ((80 - 34) / 80) + (1 # 2)) = 58%Z
  /\ Difflib.matches (repeat 97%N 23 ++ repeat 98%N 17)%list (repeat 97%N 23 ++ repeat 99%N 17)%list
     = 23
  /\ QRatio reference_env (VString (repeat 97%N 23 ++ repeat 98%N 17)%list)
            (VString (repeat 97%N 23 ++ repeat 99%N 17)%list)
            (with_ratio_alg "difflib" Opt.empty) = of_Z 57.
Proof. repeat split; vm_compute; reflexivity. Qed.

(** C5 does not hold for the value it names: "block-match" selects nothing. *)
Lemma block_match_selects_edit_distance :
  QRatio reference_env (str "aba") (str "bca") (with_ratio_alg "block-match" Opt.empty)
  = of_Z 67
  /\ block_score (lit "aba") (lit "bca") = of_Z 33
  /\ QRatio reference_env (str "aba") (str "bca")
             (with_ratio_alg "block-match" Opt.empty)
     <> block_score (lit "aba") (lit "bca").
Proof.
  repeat split; try (vm_compute; reflexivity).
  intro H. vm_compute in H. discriminate H.
Qed.

(** C6, amended, on "a b a" and "a c a" under default options. *)
Lemma token_set_ratio_is_a_maximum_example :
  Utils.validate (prepared reference_env Opt.empty (str "a b a")) = true
  /\ Utils.validate (prepared reference_env Opt.empty (str "a c a")) = true
  /\ token_set_ratio reference_env (str "a b a") (str "a c a") Opt.empty = of_Z 67.
Proof.
  split; [reflexivity|]. split; [reflexivity|].
  exact (@token_set_ratio_is_a_maximum reference_env (str "a b a") (str "a c a") Opt.empty
           eq_refl eq_refl).
Defined.

(** C6 does not hold under [trySimple], which adds the score of the inputs. *)
Lemma token_set_ratio_with_trySimple :
  token_set_ratio reference_env (str "a b a") (str "a c a")
                  (with_trySimple true Opt.empty) = of_Z 80
  /\ Math_max [ _ratio reference_env (str "a") (str "a b") Opt.empty;
                _ratio reference_env (str "a") (str "a c") Opt.empty;
                _ratio reference_env (str "a b") (str "a c") Opt.empty ] = of_Z 67
  /\ comparison_strings (Utils.tokenize (str "a b a")) (Utils.tokenize (str "a c a"))
     = (str "a", str "a b", str "a c")
  /\ token_set_ratio reference_env (str "a b a") (str "a c a")
                      (with_trySimple true Opt.empty)
     <> Math_max [ _ratio reference_env (str "a") (str "a b") Opt.empty;
                   _ratio reference_env (str "a") (str "a c") Opt.empty;
                   _ratio reference_env (str "a b") (str "a c") Opt.empty ].
Proof.
  repeat split; try (vm_compute; reflexivity).
  intro H. vm_compute in H. discriminate H.
Qed.

(** The reference environment meets the assumptions on the host. *)
Lemma reference_env_keeps_text : normalize_keeps_text reference_env.
Proof. intros f H. discriminate H. Defined.

Lemma reference_env_collates : collator_reflexive reference_env.
Proof. intros c H. discriminate H. Defined.

(** C7 on "abc" and "abd". *)
Lemma WRatio_ge_QRatio_example :
  normalize_keeps_text reference_env
  /\ geb (WRatio reference_env (str "abc") (str "abd") Opt.empty)
         (QRatio reference_env (str "abc") (str "abd") Opt.empty) = true.
Proof.
  split; [exact reference_env_keeps_text|].
  exact (@WRatio_ge_QRatio reference_env (str "abc") (str "abd") Opt.empty
           reference_env_keeps_text).
Defined.

(** C8 on "bc" inside "abcd". *)
Lemma partial_ratio_ge_ratio_of_substring_example :
  collator_reflexive reference_env
  /\ normalize_keeps_text reference_env
  /\ subcost_nonneg Opt.empty
  /\ prepared reference_env Opt.empty (str "bc") = VString (lit "bc")
  /\ prepared reference_env Opt.empty (str "abcd") = VString (lit "a" ++ lit "bc" ++ lit "d")%list
  /\ length (lit "a" ++ lit "bc" ++ lit "d")%list < 200
  /\ geb (partial_ratio reference_env (str "bc") (str "abcd") Opt.empty)
         (QRatio reference_env (str "bc") (str "abcd") Opt.empty) = true.
Proof.
  split; [exact reference_env_collates|]. split; [exact reference_env_keeps_text|].
  split; [exact I|]. split; [reflexivity|]. split; [reflexivity|].
  split; [vm_compute; lia|].
  exact (@partial_ratio_ge_ratio_of_substring reference_env (str "bc") (str "abcd")
           Opt.empty (lit "bc") (lit "a") (lit "d")
           reference_env_collates reference_env_keeps_text I eq_refl eq_refl
           ltac:(vm_compute; lia)).
Defined.

(** C8 as stated fails from 200 code units on.  "x" occurs in
    [popular_text], where every element is popular: the search finds no
    run, nothing grows from the start of the two strings ("x" against "y"),
    and the only block is the closing one, whose window is the last "y".  So
    [partial_ratio] is 0, while [QRatio] is round(100 * 2 / 201) = 1. *)
Lemma partial_ratio_below_ratio_of_substring :
  prepared reference_env Opt.empty (str "x") = VString (lit "x")
  /\ prepared reference_env Opt.empty (VString popular_text)
     = VString (lit "y" ++ lit "x" ++ (lit "xxx" ++ repeat 121%N 195))%list
  /\ length popular_text = 200
  /\ Difflib.getMatchingBlocks (lit "x") popular_text = [(1, 200, 0)]
  /\ partial_ratio reference_env (str "x") (VString popular_text) Opt.empty = of_Z 0
  /\ QRatio reference_env (str "x") (VString popular_text) Opt.empty = of_Z 1
  /\ geb (partial_ratio reference_env (str "x") (VString popular_text) Opt.empty)
         (QRatio reference_env (str "x") (VString popular_text) Opt.empty) = false.
Proof. vm_compute. repeat split. Qed.


(** Where [extract] normalises the query itself, a query that is not a
    string makes [query.normalize()] fail with a TypeError, although the
    collection has a candidate and processor and scorer are left out. *)
Lemma extract_normalize_of_a_number_throws :
  extract normalizing_env VOther (CArray [str "ab"]) normalizing_options = ThrowTypeError
  /\ extractAsync normalizing_env VOther (CArray [str "ab"]) normalizing_options = TypeError
  /\ extract normalizing_env (str "ab") (CArray [str "ab"]) normalizing_options
     = Return [(str "ab", of_Z 100, KIndex 0)].
Proof. repeat split; vm_compute; reflexivity. Qed.


(** C10, amended, on "ab" and "abc". *)
Lemma partial_ratio_symmetric_example :
  strlen (prepared reference_env Opt.empty (str "ab"))
  <> strlen (prepared reference_env Opt.empty (str "abc"))
  /\ partial_ratio reference_env (str "ab") (str "abc") Opt.empty
     = partial_ratio reference_env (str "abc") (str "ab") Opt.empty.
Proof.
  assert (H : strlen (prepared reference_env Opt.empty (str "ab"))
              <> strlen (prepared reference_env Opt.empty (str "abc")))
    by (vm_compute; discriminate).
  split; [exact H|].
  exact (@partial_ratio_symmetric_on_unequal_lengths reference_env (str "ab") (str "abc")
           Opt.empty H).
Defined.

(** C10 does not hold for two different strings of one length. *)
Lemma partial_ratio_not_symmetric :
  partial_ratio reference_env (str "abcx") (str "xabc") Opt.empty = of_Z 86
  /\ partial_ratio reference_env (str "xabc") (str "abcx") Opt.empty = of_Z 75
  /\ partial_ratio reference_env (str "abcx") (str "xabc") Opt.empty
     <> partial_ratio reference_env (str "xabc") (str "abcx") Opt.empty.
Proof.
  repeat split; try (vm_compute; reflexivity).
  intro H. vm_compute in H. discriminate H.
Qed.

(** ** Examples of the further properties *)

Lemma reference_env_symmetric : collator_symmetric reference_env.
Proof. intros c H. discriminate H. Defined.

(** The reference environment has no [normalize], so that [extract] never
    normalises the inputs itself. *)
Lemma reference_env_normalize_callable (query : jsval) (choices : collection)
      (o : ExtractOpt.t) :
  normalize_callable reference_env query choices o.
Proof.
  intro H. unfold setup_of, setup in H. cbn [su_normalize Env.normalize reference_env] in H.
  rewrite andb_false_r in H. discriminate H.
Defined.

(** X1 on "abc" and "abd". *)
Lemma QRatio_is_a_percentage_example :
  normalize_keeps_text reference_env
  /\ subcost_nonneg Opt.empty
  /\ percentage (QRatio reference_env (str "abc") (str "abd") Opt.empty).
Proof.
  split; [exact reference_env_keeps_text|]. split; [exact I|].
  exact (@QRatio_is_a_percentage reference_env reference_env_keeps_text
           (str "abc") (str "abd") Opt.empty I).
Defined.

(** X2 on "abc" and "xabd". *)
Lemma partial_ratio_is_a_percentage_example :
  normalize_keeps_text reference_env
  /\ percentage (partial_ratio reference_env (str "abc") (str "xabd") Opt.empty).
Proof.
  split; [exact reference_env_keeps_text|].
  exact (@partial_ratio_is_a_percentage reference_env reference_env_keeps_text
           (str "abc") (str "xabd") Opt.empty).
Defined.

(** X3 on "b a" and "a c". *)
Lemma token_ratios_are_percentages_example :
  normalize_keeps_text reference_env
  /\ subcost_nonneg Opt.empty
  /\ percentage (token_sort_ratio reference_env (str "b a") (str "a c") Opt.empty)
  /\ percentage (token_set_ratio reference_env (str "b a") (str "a c") Opt.empty).
Proof.
  split; [exact reference_env_keeps_text|]. split; [exact I|].
  exact (@token_ratios_are_percentages reference_env reference_env_keeps_text
           (str "b a") (str "a c") Opt.empty I).
Defined.

(** X4 on "b a" and "a c". *)
Lemma partial_token_ratios_are_percentages_example :
  normalize_keeps_text reference_env
  /\ percentage (partial_token_sort_ratio reference_env (str "b a") (str "a c") Opt.empty)
  /\ percentage (partial_token_set_ratio reference_env (str "b a") (str "a c") Opt.empty).
Proof.
  split; [exact reference_env_keeps_text|].
  exact (@partial_token_ratios_are_percentages reference_env reference_env_keeps_text
           (str "b a") (str "a c") Opt.empty).
Defined.

(** X5 on "abc" and "abd". *)
Lemma WRatio_is_a_percentage_example :
  normalize_keeps_text reference_env
  /\ subcost_nonneg Opt.empty
  /\ percentage (WRatio reference_env (str "abc") (str "abd") Opt.empty).
Proof.
  split; [exact reference_env_keeps_text|]. split; [exact I|].
  exact (@WRatio_is_a_percentage reference_env reference_env_keeps_text
           (str "abc") (str "abd") Opt.empty I).
Defined.

(** X6 on "abc" inside "xabcx". *)
Lemma partial_ratio_of_substring_is_100_example :
  prepared reference_env Opt.empty (str "abc") = VString (lit "abc")
  /\ prepared reference_env Opt.empty (str "xabcx")
     = VString ((lit "x" ++ lit "abc" ++ lit "x")%list)
  /\ partial_ratio reference_env (str "abc") (str "xabcx") Opt.empty = of_Z 100
  /\ partial_ratio reference_env (str "xabcx") (str "abc") Opt.empty = of_Z 100.
Proof.
  split; [reflexivity|]. split; [reflexivity|].
  refine (@partial_ratio_of_substring_is_100 reference_env (str "abc") (str "xabcx")
            Opt.empty (lit "abc") (lit "x") (lit "x")
            reference_env_collates reference_env_keeps_text I _ _ _ _).
  - discriminate.
  - cbn. lia.
  - reflexivity.
  - reflexivity.
Defined.

(** X7 on "Abc" and "abc", which the clean-up makes equal. *)
Lemma identical_inputs_score_100_example :
  prepared reference_env Opt.empty (str "Abc") = VString (lit "abc")
  /\ prepared reference_env Opt.empty (str "abc") = VString (lit "abc")
  /\ QRatio reference_env (str "Abc") (str "abc") Opt.empty = of_Z 100
  /\ partial_ratio reference_env (str "Abc") (str "abc") Opt.empty = of_Z 100
  /\ WRatio reference_env (str "Abc") (str "abc") Opt.empty = of_Z 100.
Proof.
  split; [reflexivity|]. split; [reflexivity|].
  refine (@identical_inputs_score_100 reference_env (str "Abc") (str "abc") Opt.empty
            (lit "abc") reference_env_collates reference_env_keeps_text I _ _ _).
  - discriminate.
  - reflexivity.
  - reflexivity.
Defined.

(** X8 on two candidates given in ascending order of score. *)
Lemma extract_sorts_by_descending_score_example :
  extract reference_env (str "apple") (CArray [str "appel"; str "apple"])
          no_extract_options
  = Return [(str "apple", of_Z 100, KIndex 1); (str "appel", of_Z 80, KIndex 0)]
  /\ StronglySorted scores_at_least
       [(str "apple", of_Z 100, KIndex 1); (str "appel", of_Z 80, KIndex 0)]
  /\ Permutation
       [(str "apple", of_Z 100, KIndex 1); (str "appel", of_Z 80, KIndex 0)]
       (filter (fun r => gtb (result_score r)
                             (cutoff_used (ExtractOpt.cutoff no_extract_options)))
               (scored reference_env
                       (setup_of reference_env (str "apple") no_extract_options)
                       (CArray [str "appel"; str "apple"]))).
Proof.
  assert (H : extract reference_env (str "apple") (CArray [str "appel"; str "apple"])
                no_extract_options
              = Return [(str "apple", of_Z 100, KIndex 1); (str "appel", of_Z 80, KIndex 0)])
    by (vm_compute; reflexivity).
  split; [exact H|].
  refine (@extract_sorts_by_descending_score reference_env (str "apple")
            (CArray [str "appel"; str "apple"]) no_extract_options _
            (reference_env_normalize_callable _ _ _) H eq_refl eq_refl _).
  intros r Hr. vm_compute in Hr. destruct Hr as [<- | [<- | []]]; discriminate.
Defined.

(** X9 on two candidates and the limit 1. *)
Lemma extract_unsorted_ignores_limit_example :
  ExtractOpt.unsorted (with_unsorted true no_extract_options) = true
  /\ extract reference_env (str "apple") (CArray [str "appel"; str "apple"])
             (with_limit (Some 1%Z) (with_unsorted true no_extract_options))
     = extract reference_env (str "apple") (CArray [str "appel"; str "apple"])
               (with_unsorted true no_extract_options)
  /\ forall l,
       extract reference_env (str "apple") (CArray [str "appel"; str "apple"])
               (with_unsorted true no_extract_options) = Return l ->
       l = filter (fun r => gtb (result_score r)
                                (cutoff_used (ExtractOpt.cutoff
                                                (with_unsorted true no_extract_options))))
                  (scored reference_env
                          (setup_of reference_env (str "apple")
                                    (with_unsorted true no_extract_options))
                          (CArray [str "appel"; str "apple"])).
Proof.
  split; [reflexivity|].
  exact (@extract_unsorted_ignores_limit reference_env (str "apple")
           (CArray [str "appel"; str "apple"]) (with_unsorted true no_extract_options)
           (Some 1%Z) (reference_env_normalize_callable _ _ _) eq_refl).
Defined.

Lemma example_keys_distinct :
  distinct_keys (CObject [(lit "k1", str "ab"); (lit "k2", str "cd")]).
Proof.
  vm_compute. constructor; [intros [H | []]; discriminate H|].
  constructor; [intros []|]. constructor.
Defined.





(** X12 on a candidate that scores 0. *)
Lemma extract_by_default_returns_every_candidate_example :
  extract reference_env (str "abc") (CArray [str "xyz"; str "abd"]) no_extract_options
  = Return [(str "abd", of_Z 67, KIndex 1); (str "xyz", of_Z 0, KIndex 0)]
  /\ Permutation
       (map (fun r : result => (fst (fst r), snd r))
            [(str "abd", of_Z 67, KIndex 1); (str "xyz", of_Z 0, KIndex 0)])
       (entries (CArray [str "xyz"; str "abd"]))
  /\ length [(str "abd", of_Z 67, KIndex 1); (str "xyz", of_Z 0, KIndex 0)]
     = numchoices (CArray [str "xyz"; str "abd"])
  /\ (ExtractOpt.unsorted no_extract_options = false ->
      StronglySorted scores_at_least
        [(str "abd", of_Z 67, KIndex 1); (str "xyz", of_Z 0, KIndex 0)]).
Proof.
  assert (H : extract reference_env (str "abc") (CArray [str "xyz"; str "abd"])
                no_extract_options
              = Return [(str "abd", of_Z 67, KIndex 1); (str "xyz", of_Z 0, KIndex 0)])
    by (vm_compute; reflexivity).
  split; [exact H|].
  exact (@extract_by_default_returns_every_candidate reference_env (str "abc")
           (CArray [str "xyz"; str "abd"]) no_extract_options _
           (reference_env_normalize_callable _ _ _) reference_env_keeps_text
           (or_introl eq_refl) eq_refl eq_refl H).
Defined.

(** X13 on "abc" and "abxd". *)
Lemma distance_symmetric_example :
  collator_symmetric reference_env
  /\ distance reference_env (lit "abc") (lit "abxd") Opt.empty
     = distance reference_env (lit "abxd") (lit "abc") Opt.empty.
Proof.
  split; [exact reference_env_symmetric|].
  exact (@distance_symmetric reference_env (lit "abc") (lit "abxd") Opt.empty
           reference_env_symmetric).
Defined.

(** X15 on "Abc" and "abc", which the clean-up makes equal. *)
Lemma distance_zero_iff_same_text_example :
  prepared_text reference_env Opt.empty (lit "Abc")
  = prepared_text reference_env Opt.empty (lit "abc")
  /\ (distance reference_env (lit "Abc") (lit "abc") Opt.empty = of_Z 0
      <-> prepared_text reference_env Opt.empty (lit "Abc")
          = prepared_text reference_env Opt.empty (lit "abc")).
Proof.
  split; [reflexivity|].
  refine (@distance_zero_iff_same_text reference_env (lit "Abc") (lit "abc") Opt.empty
            _ (or_introl eq_refl)).
  intros c H. discriminate H.
Defined.

(** X16 on "abc" and "abxd". *)
Lemma ratios_by_edit_distance_symmetric_example :
  difflib_selected Opt.empty = false
  /\ QRatio reference_env (str "abc") (str "abxd") Opt.empty
     = QRatio reference_env (str "abxd") (str "abc") Opt.empty
  /\ token_sort_ratio reference_env (str "abc") (str "abxd") Opt.empty
     = token_sort_ratio reference_env (str "abxd") (str "abc") Opt.empty.
Proof.
  split; [reflexivity|].
  exact (@ratios_by_edit_distance_symmetric reference_env (str "abc") (str "abxd")
           Opt.empty reference_env_symmetric eq_refl).
Defined.

(** X17 on a first input that is not a string. *)
Lemma scorers_return_0_on_invalid_input_example :
  QRatio reference_env VOther (str "abc") Opt.empty = of_Z 0
  /\ partial_ratio reference_env VOther (str "abc") Opt.empty = of_Z 0
  /\ token_sort_ratio reference_env VOther (str "abc") Opt.empty = of_Z 0
  /\ partial_token_sort_ratio reference_env VOther (str "abc") Opt.empty = of_Z 0
  /\ token_set_ratio reference_env VOther (str "abc") Opt.empty = of_Z 0
  /\ partial_token_set_ratio reference_env VOther (str "abc") Opt.empty = of_Z 0
  /\ WRatio reference_env VOther (str "abc") Opt.empty = of_Z 0.
Proof.
  refine (@scorers_return_0_on_invalid_input reference_env VOther (str "abc") Opt.empty
            (or_introl _)).
  intros s H. discriminate H.
Defined.

(** X18 on an object with two properties. *)
Lemma extract_keys_locate_candidates_example :
  extract reference_env (str "ab")
          (CObject [(lit "k1", str "ab"); (lit "k2", str "cd")]) no_extract_options
  = Return [(str "ab", of_Z 100, KName (lit "k1")); (str "cd", of_Z 0, KName (lit "k2"))]
  /\ (forall value score k,
        In (value, score, k)
           [(str "ab", of_Z 100, KName (lit "k1")); (str "cd", of_Z 0, KName (lit "k2"))] ->
        match CObject [(lit "k1", str "ab"); (lit "k2", str "cd")], k with
        | CArray c, KIndex i => nth_error c i = Some value
        | CObject c, KName n => In (n, value) c
        | _, _ => False
        end)
  /\ NoDup (map snd [(str "ab", of_Z 100, KName (lit "k1"));
                     (str "cd", of_Z 0, KName (lit "k2"))]).
Proof.
  assert (H : extract reference_env (str "ab")
                (CObject [(lit "k1", str "ab"); (lit "k2", str "cd")]) no_extract_options
              = Return [(str "ab", of_Z 100, KName (lit "k1"));
                        (str "cd", of_Z 0, KName (lit "k2"))])
    by (vm_compute; reflexivity).
  split; [exact H|].
  exact (@extract_keys_locate_candidates reference_env (str "ab")
           (CObject [(lit "k1", str "ab"); (lit "k2", str "cd")]) no_extract_options _
           (reference_env_normalize_callable _ _ _) example_keys_distinct eq_refl H).
Defined.

(** X19 on the default scorer and two candidates. *)
Lemma extract_reports_the_score_of_the_scorer_example :
  extract reference_env (str "abc") (CArray [str "xyz"; str "abd"]) no_extract_options
  = Return [(str "abd", of_Z 67, KIndex 1); (str "xyz", of_Z 0, KIndex 0)]
  /\ forall value score k,
       In (value, score, k)
          [(str "abd", of_Z 67, KIndex 1); (str "xyz", of_Z 0, KIndex 0)] ->
       score = fn_call (scorer_used reference_env (ExtractOpt.scorer no_extract_options))
                       (str "abc")
                       (processor_used (ExtractOpt.processor no_extract_options) value)
                       (ExtractOpt.scoring no_extract_options).
Proof.
  assert (H : extract reference_env (str "abc") (CArray [str "xyz"; str "abd"])
                no_extract_options
              = Return [(str "abd", of_Z 67, KIndex 1); (str "xyz", of_Z 0, KIndex 0)])
    by (vm_compute; reflexivity).
  split; [exact H|].
  exact (@extract_reports_the_score_of_the_scorer reference_env (str "abc")
           (CArray [str "xyz"; str "abd"]) no_extract_options _
           (or_introl eq_refl) eq_refl eq_refl H).
Defined.

(** X20 on "ab" and "cd ab". *)
Lemma token_set_ratio_of_token_subset_example :
  Utils.tokenize (prepared reference_env Opt.empty (str "ab")) = [lit "ab"]
  /\ Utils.tokenize (prepared reference_env Opt.empty (str "cd ab")) = [lit "cd"; lit "ab"]
  /\ token_set_ratio reference_env (str "ab") (str "cd ab") Opt.empty = of_Z 100
  /\ token_set_ratio reference_env (str "cd ab") (str "ab") Opt.empty = of_Z 100
  /\ partial_token_set_ratio reference_env (str "ab") (str "cd ab") Opt.empty = of_Z 100
  /\ partial_token_set_ratio reference_env (str "cd ab") (str "ab") Opt.empty = of_Z 100.
Proof.
  split; [reflexivity|]. split; [reflexivity|].
  refine (@token_set_ratio_of_token_subset reference_env (str "ab") (str "cd ab") Opt.empty
            reference_env_collates reference_env_keeps_text I eq_refl _ _).
  - vm_compute. discriminate.
  - intros t Ht. vm_compute in Ht |- *. destruct Ht as [<- | []]. right. left. reflexivity.
Defined.

(** X21 on "ab cd" and "ef ab". *)
Lemma partial_token_set_ratio_of_common_token_example :
  In (lit "ab") (Utils.tokenize (str "ab cd"))
  /\ In (lit "ab") (Utils.tokenize (str "ef ab"))
  /\ partial_token_set_ratio reference_env (str "ab cd") (str "ef ab") Opt.empty = of_Z 100.
Proof.
  assert (H1 : In (lit "ab") (Utils.tokenize (VString (lit "ab cd"))))
    by (vm_compute; left; reflexivity).
  assert (H2 : In (lit "ab") (Utils.tokenize (VString (lit "ef ab"))))
    by (vm_compute; right; left; reflexivity).
  split; [exact H1|]. split; [exact H2|].
  refine (@partial_token_set_ratio_of_common_token reference_env (str "ab cd")
            (str "ef ab") Opt.empty (lit "ab cd") (lit "ef ab") (lit "ab")
            reference_env_collates reference_env_keeps_text I eq_refl _ _ _ _ H1 H2).
  - reflexivity.
  - reflexivity.
  - cbn. lia.
  - cbn. lia.
Defined.

(** X22 on the scorer [token_sort_ratio] and two candidates. *)
Lemma extract_reports_the_score_of_the_token_scorer_example :
  extract reference_env (str "a b") (CArray [str "c d"; str "b a"])
          (with_scorer (Callable (token_sort_ratio_function reference_env))
                       no_extract_options)
  = Return [(str "b a", of_Z 100, KIndex 1); (str "c d", of_Z 33, KIndex 0)]
  /\ forall value score k,
       In (value, score, k)
          [(str "b a", of_Z 100, KIndex 1); (str "c d", of_Z 33, KIndex 0)] ->
       score = fn_call (scorer_used reference_env
                          (ExtractOpt.scorer
                             (with_scorer (Callable (token_sort_ratio_function reference_env))
                                          no_extract_options)))
                       (str "a b")
                       (processor_used
                          (ExtractOpt.processor
                             (with_scorer (Callable (token_sort_ratio_function reference_env))
                                          no_extract_options)) value)
                       (ExtractOpt.scoring
                          (with_scorer (Callable (token_sort_ratio_function reference_env))
                                       no_extract_options)).
Proof.
  assert (H : extract reference_env (str "a b") (CArray [str "c d"; str "b a"])
                (with_scorer (Callable (token_sort_ratio_function reference_env))
                             no_extract_options)
              = Return [(str "b a", of_Z 100, KIndex 1); (str "c d", of_Z 33, KIndex 0)])
    by (vm_compute; reflexivity).
  split; [exact H|].
  refine (@extract_reports_the_score_of_the_token_scorer reference_env (str "a b")
            (CArray [str "c d"; str "b a"])
            (with_scorer (Callable (token_sort_ratio_function reference_env))
                         no_extract_options) _
            (or_introl eq_refl) eq_refl eq_refl eq_refl _ eq_refl H).
  intros value k Hin. vm_compute in Hin.
  destruct Hin as [E | [E | []]]; injection E as <- _; split; reflexivity.
Defined.

(** X23 on three candidates and the cutoffs 50 and 90. *)
Lemma extract_with_higher_cutoff_example :
  extract reference_env (str "apple")
          (CArray [str "apple"; str "appel"; str "banana"])
          (with_cutoff (Some (Num 50)) no_extract_options)
  = Return [(str "apple", of_Z 100, KIndex 0); (str "appel", of_Z 80, KIndex 1)]
  /\ extract reference_env (str "apple")
             (CArray [str "apple"; str "appel"; str "banana"])
             (with_cutoff (Some (Num 90)) no_extract_options)
     = Return [(str "apple", of_Z 100, KIndex 0)]
  /\ Permutation
       [(str "apple", of_Z 100, KIndex 0)]
       (filter (fun r => gtb (result_score r) (cutoff_used (Some (Num 90))))
               [(str "apple", of_Z 100, KIndex 0); (str "appel", of_Z 80, KIndex 1)])
  /\ (forall r, In r [(str "apple", of_Z 100, KIndex 0)] ->
                In r [(str "apple", of_Z 100, KIndex 0); (str "appel", of_Z 80, KIndex 1)]).
Proof.
  assert (H1 : extract reference_env (str "apple")
                 (CArray [str "apple"; str "appel"; str "banana"])
                 (with_cutoff (Some (Num 50)) no_extract_options)
               = Return [(str "apple", of_Z 100, KIndex 0); (str "appel", of_Z 80, KIndex 1)])
    by (vm_compute; reflexivity).
  assert (H2 : extract reference_env (str "apple")
                 (CArray [str "apple"; str "appel"; str "banana"])
                 (with_cutoff (Some (Num 90)) no_extract_options)
               = Return [(str "apple", of_Z 100, KIndex 0)])
    by (vm_compute; reflexivity).
  split; [exact H1|]. split; [exact H2|].
  exact (@extract_with_higher_cutoff reference_env (str "apple")
           (CArray [str "apple"; str "appel"; str "banana"]) no_extract_options
           (Some (Num 50)) (Some (Num 90)) _ _
           (reference_env_normalize_callable _ _ _) eq_refl eq_refl H1 H2).
Defined.

(** X24 on "b a" and "a b" against "a c". *)
Lemma token_sort_ratio_ignores_token_order_example :
  Permutation (match_non_space (lit "b a")) (match_non_space (lit "a b"))
  /\ token_sort_ratio reference_env (str "b a") (str "a c") Opt.empty
     = token_sort_ratio reference_env (str "a b") (str "a c") Opt.empty
  /\ partial_token_sort_ratio reference_env (str "b a") (str "a c") Opt.empty
     = partial_token_sort_ratio reference_env (str "a b") (str "a c") Opt.empty.
Proof.
  assert (P : Permutation (match_non_space (lit "b a")) (match_non_space (lit "a b")))
    by (vm_compute; apply perm_swap).
  split; [exact P|].
  refine (@token_sort_ratio_ignores_token_order reference_env (str "b a") (str "a b")
            (str "a c") Opt.empty (lit "b a") (lit "a b") eq_refl eq_refl eq_refl _ _ P).
  - discriminate.
  - discriminate.
Defined.

(** X25 on "abc" and "abd". *)
Lemma partial_ratio_ge_QRatio_on_equal_lengths_example :
  strlen (prepared reference_env Opt.empty (str "abc"))
  = strlen (prepared reference_env Opt.empty (str "abd"))
  /\ geb (partial_ratio reference_env (str "abc") (str "abd") Opt.empty)
         (QRatio reference_env (str "abc") (str "abd") Opt.empty) = true.
Proof.
  split; [reflexivity|].
  exact (@partial_ratio_ge_QRatio_on_equal_lengths reference_env (str "abc") (str "abd")
           Opt.empty reference_env_keeps_text I eq_refl).
Defined.
